(** * KBook: the chapter-task engine of [src/App.tsx] and the outline
      parser of [src/services/geminiService.ts], embedded in Rocq.

    The development follows the source file by file:
    - JavaScript strings and the few built-ins the code calls
      ([trim], template literals over numbers, [JSON.stringify],
      [JSON.parse], the two [replace] calls and the fence regular
      expression);
    - [types.ts]: [ChapterTask], [AppStep], [UserInputs];
    - [App.tsx]: [flattenStructureToTasks], the handlers and the two
      effects of the [App] component, run on a model of React's update
      queue;
    - [geminiService.ts]: [parseJsonFromText]. *)

From Stdlib Require Import NArith ZArith Lia Ascii String DecimalN.
From stdpp Require Import base tactics option numbers list.

Local Open Scope N_scope.
Local Open Scope list_scope.

(** ** JavaScript strings *)

(** A JavaScript string is a finite sequence of UTF-16 code units; a code
    unit is kept as its number. *)
Abbreviation jsstring := (list N).

(** String literals of the source (all of them are ASCII). *)
Definition lit (s : string) : jsstring :=
  N_of_ascii <$> list_ascii_of_string s.

(** WhiteSpace and LineTerminator code units of ECMAScript: what
    [String.prototype.trim] removes and what [\s] matches. *)
Definition is_space (c : N) : bool :=
  (c =? 9) || (c =? 10) || (c =? 11) || (c =? 12) || (c =? 13) || (c =? 32)
  || (c =? 160) || (c =? 5760) || ((8192 <=? c) && (c <=? 8202))
  || (c =? 8232) || (c =? 8233) || (c =? 8239) || (c =? 8287)
  || (c =? 12288) || (c =? 65279).

(** [\w] without the unicode and ignore-case flags: [A-Za-z0-9_]. *)
Definition is_alnum (c : N) : bool :=
  ((48 <=? c) && (c <=? 57)) || ((65 <=? c) && (c <=? 90))
  || ((97 <=? c) && (c <=? 122)).

Definition is_word (c : N) : bool := is_alnum c || (c =? 95).

Fixpoint drop_while (p : N → bool) (s : jsstring) : jsstring :=
  match s with
  | [] => []
  | c :: s' => if p c then drop_while p s' else s
  end.

Definition trimStart (s : jsstring) : jsstring := drop_while is_space s.
Definition trimEnd (s : jsstring) : jsstring :=
  reverse (drop_while is_space (reverse s)).

(** [String.prototype.trim]. *)
Definition trim (s : jsstring) : jsstring := trimEnd (trimStart s).

(** Concatenation of a list of strings: [Array.prototype.join('')]. *)
Definition join (l : list jsstring) : jsstring := concat l.

(** The non-negative integers that a Number holds exactly: those below
    2^53.  The readings of [Date.now()] (at most 8.64e15) and the loop
    indices are among them. *)
Definition safe_integer (n : N) : Prop := n < 2 ^ 53.

(** [Number.prototype.toString] (and so a template literal) on a safe
    integer: its decimal digits.  (From 2^53 on a Number is printed with
    the fewest digits that tell it from its neighbours, and from 10^21 on
    with an exponent.) *)
Fixpoint digits (d : Decimal.uint) : jsstring :=
  match d with
  | Decimal.Nil => []
  | Decimal.D0 d => 48 :: digits d
  | Decimal.D1 d => 49 :: digits d
  | Decimal.D2 d => 50 :: digits d
  | Decimal.D3 d => 51 :: digits d
  | Decimal.D4 d => 52 :: digits d
  | Decimal.D5 d => 53 :: digits d
  | Decimal.D6 d => 54 :: digits d
  | Decimal.D7 d => 55 :: digits d
  | Decimal.D8 d => 56 :: digits d
  | Decimal.D9 d => 57 :: digits d
  end.

Definition Number_toString (n : N) : jsstring := digits (N.to_uint n).

(** JavaScript truthiness of a string. *)
Definition nonempty (s : jsstring) : bool :=
  match s with [] => false | _ => true end.

(** [a || b] on strings. *)
Definition or_else (a b : jsstring) : jsstring := if nonempty a then a else b.

(** ** JSON values *)

(** What [JSON.parse] returns.  A number is kept as the numeral it was
    read from: the code under study never computes with one.  (The
    numeral stands for the double it rounds to, so [JSON.stringify]
    below prints a number as the code does only when the numeral is the
    one [Number.prototype.toString] gives; outlines, the values the
    properties about printed text are stated for, hold no number.) *)
#[local] Unset Elimination Schemes.
Inductive JSON : Type :=
| JNull
| JBool (b : bool)
| JNumber (numeral : jsstring)
| JString (s : jsstring)
| JArray (elements : list JSON)
| JObject (properties : list (jsstring * JSON)).
#[local] Set Elimination Schemes.

(** ** [types.ts] *)

Inductive Status := pending | generating | done | error.

Global Instance Status_eq_dec : EqDecision Status.
Proof. solve_decision. Defined.

Record ChapterTask := mkTask {
  id : jsstring;
  title : jsstring;
  description : jsstring;
  path : list jsstring;
  status : Status;
  content : option jsstring;
  errorMessage : option jsstring;
}.

Inductive GenerationMode := normal | advanced.

Record UserInputs := mkInputs {
  subject : jsstring;
  language : jsstring;
  additionalInfo : jsstring;
  generationMode : GenerationMode;
  contentLength : N;
  readingLevel : N;
  numberOfChapters : N;
}.

Inductive AppStep :=
| USER_INPUT
| GENERATING_OUTLINE
| OUTLINE_REVIEW
| GENERATING_CHAPTERS
| VIEW_BOOK.

Global Instance AppStep_eq_dec : EqDecision AppStep.
Proof. solve_decision. Defined.

(** ** [JSON.stringify(value, null, 2)] *)

Definition is_high_surrogate (c : N) : bool := (55296 <=? c) && (c <=? 56319).
Definition is_low_surrogate (c : N) : bool := (56320 <=? c) && (c <=? 57343).

Definition hex_digit (n : N) : N := if n <? 10 then 48 + n else 87 + n.

(** [UnicodeEscape]: a backslash, [u] and four lower-case hexadecimal
    digits. *)
Definition UnicodeEscape (c : N) : jsstring :=
  [92; 117; hex_digit (c / 4096 mod 16); hex_digit (c / 256 mod 16);
   hex_digit (c / 16 mod 16); hex_digit (c mod 16)].

(** One code point that is not a surrogate, as [QuoteJSONString] writes
    it. *)
Definition quote_unit (c : N) : jsstring :=
  if c =? 8 then [92; 98]
  else if c =? 9 then [92; 116]
  else if c =? 10 then [92; 110]
  else if c =? 12 then [92; 102]
  else if c =? 13 then [92; 114]
  else if c =? 34 then [92; 34]
  else if c =? 92 then [92; 92]
  else if c <? 32 then UnicodeEscape c
  else [c].

(** The body of [QuoteJSONString]: a well-formed surrogate pair is
    copied, a lone surrogate is escaped. *)
Fixpoint quote_units (s : jsstring) : jsstring :=
  match s with
  | [] => []
  | c :: s' =>
      if is_high_surrogate c then
        match s' with
        | d :: s'' =>
            if is_low_surrogate d then c :: d :: quote_units s''
            else UnicodeEscape c ++ quote_units s'
        | [] => UnicodeEscape c
        end
      else if is_low_surrogate c then UnicodeEscape c ++ quote_units s'
      else quote_unit c ++ quote_units s'
  end.

Definition QuoteJSONString (s : jsstring) : jsstring :=
  34 :: quote_units s ++ [34].

Definition spaces (n : nat) : jsstring := replicate n 32.

(** [Array.prototype.join(separator)] on strings. *)
Fixpoint join_with (sep : jsstring) (l : list jsstring) : jsstring :=
  match l with
  | [] => []
  | [x] => x
  | x :: l' => x ++ sep ++ join_with sep l'
  end.

(** [SerializeJSONProperty] with the gap of two spaces; [indent] is the
    length of the current indentation. *)
Fixpoint SerializeJSONProperty (indent : nat) (v : JSON) {struct v} : jsstring :=
  match v with
  | JNull => lit "null"
  | JBool true => lit "true"
  | JBool false => lit "false"
  | JNumber x => x
  | JString s => QuoteJSONString s
  | JArray l =>
      match l with
      | [] => lit "[]"
      | _ =>
          [91; 10] ++ spaces (indent + 2)
          ++ join_with ([44; 10] ++ spaces (indent + 2))
               (map (SerializeJSONProperty (indent + 2)) l)
          ++ [10] ++ spaces indent ++ [93]
      end
  | JObject ps =>
      match ps with
      | [] => lit "{}"
      | _ =>
          [123; 10] ++ spaces (indent + 2)
          ++ join_with ([44; 10] ++ spaces (indent + 2))
               (map (λ p, let '(k, x) := p in
                          QuoteJSONString k ++ [58; 32]
                          ++ SerializeJSONProperty (indent + 2) x) ps)
          ++ [10] ++ spaces indent ++ [125]
      end
  end.

Definition JSON_stringify (v : JSON) : jsstring := SerializeJSONProperty 0 v.

(** [Object.entries] on a value read by [JSON.parse]: the properties of
    an object in their own order, the indexed elements of an array or of
    a string, nothing for a number or a boolean.  (It throws on [null],
    which every caller excludes by testing the structure first.) *)
Definition Object_entries (v : JSON) : list (jsstring * JSON) :=
  match v with
  | JObject ps => ps
  | JArray l => imap (λ i x, (Number_toString (N.of_nat i), x)) l
  | JString s => imap (λ i c, (Number_toString (N.of_nat i), JString [c])) s
  | _ => []
  end.

(** ** [JSON.parse] *)

(** The four white-space characters of the JSON grammar. *)
Definition is_json_ws (c : N) : bool :=
  (c =? 32) || (c =? 9) || (c =? 10) || (c =? 13).

Definition skip_ws (s : jsstring) : jsstring := drop_while is_json_ws s.

Definition is_digit (c : N) : bool := (48 <=? c) && (c <=? 57).

Definition hex_value (c : N) : option N :=
  if is_digit c then Some (c - 48)
  else if (97 <=? c) && (c <=? 102) then Some (c - 87)
  else if (65 <=? c) && (c <=? 70) then Some (c - 55)
  else None.

(** The character a two-character escape stands for. *)
Definition unescape (e : N) : option N :=
  if e =? 34 then Some 34
  else if e =? 92 then Some 92
  else if e =? 47 then Some 47
  else if e =? 98 then Some 8
  else if e =? 102 then Some 12
  else if e =? 110 then Some 10
  else if e =? 114 then Some 13
  else if e =? 116 then Some 9
  else None.

Definition cons_char (c : N) (r : option (jsstring * jsstring))
  : option (jsstring * jsstring) :=
  match r with
  | Some (str, rest) => Some (c :: str, rest)
  | None => None
  end.

(** A string after its opening quote: its value and what follows the
    closing quote. *)
Fixpoint parse_chars (s : jsstring) : option (jsstring * jsstring) :=
  match s with
  | [] => None
  | c :: s1 =>
      if c =? 34 then Some ([], s1)
      else if c =? 92 then
        match s1 with
        | [] => None
        | e :: s2 =>
            if e =? 117 then
              match s2 with
              | h1 :: h2 :: h3 :: h4 :: s3 =>
                  match hex_value h1, hex_value h2, hex_value h3, hex_value h4 with
                  | Some a, Some b, Some c', Some d =>
                      cons_char (4096 * a + 256 * b + 16 * c' + d)
                                (parse_chars s3)
                  | _, _, _, _ => None
                  end
              | _ => None
              end
            else
              match unescape e with
              | Some x => cons_char x (parse_chars s2)
              | None => None
              end
        end
      else if c <? 32 then None
      else cons_char c (parse_chars s1)
  end.

(** The longest prefix of digits, and the rest. *)
Fixpoint span_digits (s : jsstring) : jsstring * jsstring :=
  match s with
  | c :: s' =>
      if is_digit c then
        let '(ds, rest) := span_digits s' in (c :: ds, rest)
      else ([], s)
  | [] => ([], [])
  end.

(** A number of the JSON grammar: the numeral read and the rest. *)
Definition parse_number (s : jsstring) : option (jsstring * jsstring) :=
  let '(sign, s1) :=
    match s with
    | c :: s' => if c =? 45 then ([45], s') else ([], s)
    | [] => ([], s)
    end in
  match s1 with
  | [] => None
  | c :: s2 =>
      let int_part :=
        if c =? 48 then Some ([48], s2)
        else if is_digit c then
          let '(ds, rest) := span_digits s2 in Some (c :: ds, rest)
        else None in
      match int_part with
      | None => None
      | Some (int, s3) =>
          let frac_part :=
            match s3 with
            | c3 :: s4 =>
                if c3 =? 46 then
                  match span_digits s4 with
                  | ([], _) => None
                  | (ds, rest) => Some (46 :: ds, rest)
                  end
                else Some ([], s3)
            | [] => Some ([], s3)
            end in
          match frac_part with
          | None => None
          | Some (frac, s5) =>
              let exp_part :=
                match s5 with
                | c5 :: s6 =>
                    if (c5 =? 101) || (c5 =? 69) then
                      let '(esign, s7) :=
                        match s6 with
                        | c6 :: s6' =>
                            if (c6 =? 43) || (c6 =? 45) then ([c6], s6')
                            else ([], s6)
                        | [] => ([], s6)
                        end in
                      match span_digits s7 with
                      | ([], _) => None
                      | (ds, rest) => Some (c5 :: esign ++ ds, rest)
                      end
                    else Some ([], s5)
                | [] => Some ([], s5)
                end in
              match exp_part with
              | None => None
              | Some (exp, s8) => Some (sign ++ int ++ frac ++ exp, s8)
              end
          end
      end
  end.

(** [s] without the prefix [p], when it starts with it. *)
Fixpoint strip_prefix (p s : jsstring) : option jsstring :=
  match p, s with
  | [], _ => Some s
  | a :: p', b :: s' => if a =? b then strip_prefix p' s' else None
  | _ :: _, [] => None
  end.

(** *** The properties of an object *)

Fixpoint decimal_value (acc : N) (s : jsstring) : N :=
  match s with
  | [] => acc
  | c :: s' => decimal_value (10 * acc + (c - 48)) s'
  end.

(** An array index: the canonical numeral of an integer below 2^32 - 1. *)
Definition array_index (k : jsstring) : option N :=
  match k with
  | [] => None
  | c :: k' =>
      if forallb is_digit k && ((c =? 48) && bool_decide (k' = []) || negb (c =? 48))
         && bool_decide (length k ≤ 10)%nat
         && (decimal_value 0 k <=? 4294967294)
      then Some (decimal_value 0 k)
      else None
  end.

(** A new index key goes before the first key that is not a smaller
    index. *)
Fixpoint insert_index (n : N) (k : jsstring) (v : JSON)
    (ps : list (jsstring * JSON)) : list (jsstring * JSON) :=
  match ps with
  | [] => [(k, v)]
  | (k', v') :: ps' =>
      match array_index k' with
      | Some n' =>
          if n' <? n then (k', v') :: insert_index n k v ps'
          else (k, v) :: ps
      | None => (k, v) :: ps
      end
  end.

Fixpoint replace_value (k : jsstring) (v : JSON) (ps : list (jsstring * JSON))
  : option (list (jsstring * JSON)) :=
  match ps with
  | [] => None
  | (k', v') :: ps' =>
      if decide (k' = k) then Some ((k', v) :: ps')
      else match replace_value k v ps' with
           | Some ps'' => Some ((k', v') :: ps'')
           | None => None
           end
  end.

(** [CreateDataProperty] on an ordinary object, the properties listed in
    the order of [OrdinaryOwnPropertyKeys]: array indices in ascending
    order, then the other keys in the order of their creation.  An
    existing key keeps its place and takes the new value. *)
Definition CreateDataProperty (ps : list (jsstring * JSON)) (k : jsstring)
    (v : JSON) : list (jsstring * JSON) :=
  match replace_value k v ps with
  | Some ps' => ps'
  | None =>
      match array_index k with
      | Some n => insert_index n k v ps
      | None => ps ++ [(k, v)]
      end
  end.

(** *** The parser *)

Inductive Parse (A : Type) :=
| Parsed (a : A) (rest : jsstring)
| SyntaxError
| OutOfFuel.
Arguments Parsed {A} a rest.
Arguments SyntaxError {A}.
Arguments OutOfFuel {A}.

(** One value, after optional white space.  [fuel] bounds the depth of
    the calls; a value that is read needs no more fuel than it has
    characters, so the length of the text, plus one, is always enough
    ([parse_value_fuel]). *)
Fixpoint parse_value (fuel : nat) (s : jsstring) {struct fuel} : Parse JSON :=
  match fuel with
  | O => OutOfFuel
  | S fuel =>
      match skip_ws s with
      | [] => SyntaxError
      | c :: r =>
          if c =? 123 then
            match skip_ws r with
            | c' :: r' =>
                if c' =? 125 then Parsed (JObject []) r'
                else parse_members fuel [] r
            | [] => SyntaxError
            end
          else if c =? 91 then
            match skip_ws r with
            | c' :: r' =>
                if c' =? 93 then Parsed (JArray []) r'
                else parse_elements fuel [] r
            | [] => SyntaxError
            end
          else if c =? 34 then
            match parse_chars r with
            | Some (str, r') => Parsed (JString str) r'
            | None => SyntaxError
            end
          else
            match strip_prefix (lit "true") (c :: r),
                  strip_prefix (lit "false") (c :: r),
                  strip_prefix (lit "null") (c :: r) with
            | Some r', _, _ => Parsed (JBool true) r'
            | _, Some r', _ => Parsed (JBool false) r'
            | _, _, Some r' => Parsed JNull r'
            | None, None, None =>
                match parse_number (c :: r) with
                | Some (x, r') => Parsed (JNumber x) r'
                | None => SyntaxError
                end
            end
      end
  end
with parse_members (fuel : nat) (acc : list (jsstring * JSON)) (s : jsstring)
    {struct fuel} : Parse JSON :=
  match fuel with
  | O => OutOfFuel
  | S fuel =>
      match skip_ws s with
      | [] => SyntaxError
      | c :: r =>
          if c =? 34 then
            match parse_chars r with
            | None => SyntaxError
            | Some (key, r1) =>
                match skip_ws r1 with
                | [] => SyntaxError
                | c1 :: r2 =>
                    if c1 =? 58 then
                      match parse_value fuel r2 with
                      | Parsed v r3 =>
                          let acc' := CreateDataProperty acc key v in
                          match skip_ws r3 with
                          | [] => SyntaxError
                          | c3 :: r4 =>
                              if c3 =? 44 then parse_members fuel acc' r4
                              else if c3 =? 125 then Parsed (JObject acc') r4
                              else SyntaxError
                          end
                      | SyntaxError => SyntaxError
                      | OutOfFuel => OutOfFuel
                      end
                    else SyntaxError
                end
            end
          else SyntaxError
      end
  end
with parse_elements (fuel : nat) (acc : list JSON) (s : jsstring)
    {struct fuel} : Parse JSON :=
  match fuel with
  | O => OutOfFuel
  | S fuel =>
      match parse_value fuel s with
      | Parsed v r =>
          match skip_ws r with
          | [] => SyntaxError
          | c :: r' =>
              if c =? 44 then parse_elements fuel (acc ++ [v]) r'
              else if c =? 93 then Parsed (JArray (acc ++ [v])) r'
              else SyntaxError
          end
      | SyntaxError => SyntaxError
      | OutOfFuel => OutOfFuel
      end
  end.

(** [JSON.parse]: one value between optional white space; [None] is the
    [SyntaxError] it throws. *)
Definition JSON_parse (text : jsstring) : option JSON :=
  match parse_value (S (length text)) text with
  | Parsed v rest =>
      match skip_ws rest with
      | [] => Some v
      | _ => None
      end
  | _ => None
  end.

(** ** [App.tsx]: [flattenStructureToTasks] *)

(** [key.replace(/\s+/g, '-')]: every maximal run of white space becomes
    one hyphen.  [in_run] tells that the previous code unit was white
    space. *)
Fixpoint replace_space_runs (in_run : bool) (s : jsstring) : jsstring :=
  match s with
  | [] => []
  | c :: s' =>
      if is_space c then
        if in_run then replace_space_runs true s'
        else 45 :: replace_space_runs true s'
      else c :: replace_space_runs false s'
  end.

(** [.replace(/[^a-zA-Z0-9-]/g, '')]. *)
Definition keep_alnum_hyphen (s : jsstring) : jsstring :=
  filter (λ c, is_alnum c || (c =? 45) = true) s.

Definition sanitizedKey (key : jsstring) : jsstring :=
  keep_alnum_hyphen (replace_space_runs false key).

(** The identifier of line 86; [now] is what [Date.now()] returned. *)
Definition task_id (key : jsstring) (now : N) (order : nat) : jsstring :=
  or_else (sanitizedKey key) (lit "chapter")
  ++ [45] ++ Number_toString now ++ [45] ++ Number_toString (N.of_nat order).

Definition chapterOutlineJson (value : JSON) : jsstring :=
  match value with
  | JString s => s
  | _ => JSON_stringify value
  end.

(** The loop of lines 84-99.  [Date.now()] is read once per iteration:
    [now i] is the reading of iteration [i]. *)
Fixpoint flatten_loop (now : nat → N) (order : nat)
    (entries : list (jsstring * JSON)) : list ChapterTask :=
  match entries with
  | [] => []
  | (key, value) :: rest =>
      {| id := task_id key (now order) order;
         title := key;
         description := chapterOutlineJson value;
         path := [key];
         status := pending;
         content := Some [];
         errorMessage := None |}
      :: flatten_loop now (S order) rest
  end.

Definition flattenStructureToTasks (now : nat → N) (structure : JSON)
  : list ChapterTask :=
  flatten_loop now 0 (Object_entries structure).

(** ** [App.tsx]: the state of the component *)

(** The [useState] cells of [App].  The cell named [error] in the source
    is [appError] here, [error] being a task status. *)
Record AppState := mkApp {
  currentStep : AppStep;
  userInputs : option UserInputs;
  bookTitle : option jsstring;
  bookStructure : option JSON;
  chapterTasks : list ChapterTask;
  appError : option jsstring;
  isLoading : bool;
  isAutoGeneratingChapters : bool;
  activelyGeneratingChapterId : option jsstring;
  apiKeyMissing : bool;
}.

(** The numeral [x] denotes a number that is zero once it is rounded to
    a double.  With [M] the integer that the digits of the mantissa
    spell and [E] the decimal exponent left after the fraction has been
    counted in, the value [M * 10^E] rounds to zero when it is at most
    [2^-1075], half of the least positive double. *)
Definition rounds_to_zero (x : jsstring) : bool :=
  let x1 := match x with
            | c :: r => if c =? 45 then r else x
            | [] => x
            end in
  let '(int, r1) := span_digits x1 in
  let '(frac, r2) := match r1 with
                     | c :: r => if c =? 46 then span_digits r else ([], r1)
                     | [] => ([], r1)
                     end in
  let exponent :=
    match r2 with
    | c :: r =>
        if (c =? 101) || (c =? 69) then
          match r with
          | c' :: ds =>
              if c' =? 45 then (- Z.of_N (decimal_value 0 ds))%Z
              else if c' =? 43 then Z.of_N (decimal_value 0 ds)
              else Z.of_N (decimal_value 0 r)
          | [] => 0%Z
          end
        else 0%Z
    | [] => 0%Z
    end in
  let M := Z.of_N (decimal_value 0 (int ++ frac)) in
  let E := (exponent - Z.of_nat (length frac))%Z in
  ((M =? 0) || ((E <? 0) && (M * 2 ^ 1075 <=? 10 ^ (- E))))%Z.

(** Truthiness of a parsed value. *)
Definition truthy (v : JSON) : bool :=
  match v with
  | JNull => false
  | JBool b => b
  | JNumber x => negb (rounds_to_zero x)
  | JString s => nonempty s
  | JArray _ | JObject _ => true
  end.

(** [if (bookStructure)]. *)
Definition has_structure (bs : option JSON) : bool :=
  match bs with Some v => truthy v | None => false end.

(** Truthiness of an optional string ([t.content],
    [activelyGeneratingChapterId]). *)
Definition truthy_str (o : option jsstring) : bool :=
  match o with Some s => nonempty s | None => false end.

(** The four arrow functions that the source passes to [setChapterTasks]
    (lines 131, 156, 161 and 166).  Each one maps over the previous list
    and rewrites the tasks whose [id] is [taskId]. *)
Inductive TasksUpdater :=
| mark_generating (taskId : jsstring)
| show_buffer (taskId : jsstring)
| commit_done (taskId : jsstring) (finalContent : jsstring)
| mark_error (taskId : jsstring) (message : jsstring).

Definition target (f : TasksUpdater) : jsstring :=
  match f with
  | mark_generating i | show_buffer i | commit_done i _ | mark_error i _ => i
  end.

(** What an updater makes of a task it applies to.  [ref] is
    [generatingChapterContentRef.current] at the moment the function
    runs: lines 156 and 166 read it inside the arrow function. *)
Definition rewrite_task (f : TasksUpdater) (ref : jsstring) (t : ChapterTask)
  : ChapterTask :=
  match f with
  | mark_generating _ =>
      {| id := id t; title := title t; description := description t;
         path := path t; status := generating; content := Some [];
         errorMessage := None |}
  | show_buffer _ =>
      {| id := id t; title := title t; description := description t;
         path := path t; status := status t; content := Some ref;
         errorMessage := errorMessage t |}
  | commit_done _ finalContent =>
      {| id := id t; title := title t; description := description t;
         path := path t; status := done; content := Some finalContent;
         errorMessage := errorMessage t |}
  | mark_error _ message =>
      {| id := id t; title := title t; description := description t;
         path := path t; status := error; content := Some (trim (or_else ref []));
         errorMessage := Some message |}
  end.

Definition update_task (f : TasksUpdater) (ref : jsstring) (t : ChapterTask)
  : ChapterTask :=
  if decide (id t = target f) then rewrite_task f ref t else t.

(** [prev => prev.map(t => t.id === taskId ? {...} : t)]. *)
Definition apply_updater (f : TasksUpdater) (ref : jsstring)
    (prev : list ChapterTask) : list ChapterTask :=
  update_task f ref <$> prev.

(** A call of a state setter.  React does not change the state at the
    call: it puts the update in a queue and applies the queue, in order,
    when it next renders the component.  A functional update
    ([setChapterTasksWith]) is run at that render; when the queue is
    empty at the call, React may instead run it at once, on the state of
    the last render.  [atCall] is then the value the reference had at the
    call, and [None] when the function is run at the render. *)
Inductive Update :=
| setCurrentStep (v : AppStep)
| setUserInputs (v : option UserInputs)
| setBookTitle (v : option jsstring)
| setBookStructure (v : option JSON)
| setChapterTasks (v : list ChapterTask)
| setChapterTasksWith (f : TasksUpdater) (atCall : option jsstring)
| setError (v : option jsstring)
| setIsLoading (v : bool)
| setIsAutoGeneratingChapters (v : bool)
| setActivelyGeneratingChapterId (v : option jsstring)
| setApiKeyMissing (v : bool).

Definition with_tasks (s : AppState) (l : list ChapterTask) : AppState :=
  mkApp (currentStep s) (userInputs s) (bookTitle s) (bookStructure s) l
        (appError s) (isLoading s) (isAutoGeneratingChapters s)
        (activelyGeneratingChapterId s) (apiKeyMissing s).

(** One update applied; [ref] is the reference as the render finds it. *)
Definition apply_update (ref : jsstring) (s : AppState) (u : Update) : AppState :=
  match u with
  | setCurrentStep v =>
      mkApp v (userInputs s) (bookTitle s) (bookStructure s) (chapterTasks s)
            (appError s) (isLoading s) (isAutoGeneratingChapters s)
            (activelyGeneratingChapterId s) (apiKeyMissing s)
  | setUserInputs v =>
      mkApp (currentStep s) v (bookTitle s) (bookStructure s) (chapterTasks s)
            (appError s) (isLoading s) (isAutoGeneratingChapters s)
            (activelyGeneratingChapterId s) (apiKeyMissing s)
  | setBookTitle v =>
      mkApp (currentStep s) (userInputs s) v (bookStructure s) (chapterTasks s)
            (appError s) (isLoading s) (isAutoGeneratingChapters s)
            (activelyGeneratingChapterId s) (apiKeyMissing s)
  | setBookStructure v =>
      mkApp (currentStep s) (userInputs s) (bookTitle s) v (chapterTasks s)
            (appError s) (isLoading s) (isAutoGeneratingChapters s)
            (activelyGeneratingChapterId s) (apiKeyMissing s)
  | setChapterTasks v => with_tasks s v
  | setChapterTasksWith f None => with_tasks s (apply_updater f ref (chapterTasks s))
  | setChapterTasksWith f (Some r) => with_tasks s (apply_updater f r (chapterTasks s))
  | setError v =>
      mkApp (currentStep s) (userInputs s) (bookTitle s) (bookStructure s)
            (chapterTasks s) v (isLoading s) (isAutoGeneratingChapters s)
            (activelyGeneratingChapterId s) (apiKeyMissing s)
  | setIsLoading v =>
      mkApp (currentStep s) (userInputs s) (bookTitle s) (bookStructure s)
            (chapterTasks s) (appError s) v (isAutoGeneratingChapters s)
            (activelyGeneratingChapterId s) (apiKeyMissing s)
  | setIsAutoGeneratingChapters v =>
      mkApp (currentStep s) (userInputs s) (bookTitle s) (bookStructure s)
            (chapterTasks s) (appError s) (isLoading s) v
            (activelyGeneratingChapterId s) (apiKeyMissing s)
  | setActivelyGeneratingChapterId v =>
      mkApp (currentStep s) (userInputs s) (bookTitle s) (bookStructure s)
            (chapterTasks s) (appError s) (isLoading s)
            (isAutoGeneratingChapters s) v (apiKeyMissing s)
  | setApiKeyMissing v =>
      mkApp (currentStep s) (userInputs s) (bookTitle s) (bookStructure s)
            (chapterTasks s) (appError s) (isLoading s)
            (isAutoGeneratingChapters s) (activelyGeneratingChapterId s) v
  end.

Definition apply_queue (ref : jsstring) (q : list Update) (s : AppState)
  : AppState :=
  fold_left (apply_update ref) q s.

(** The arguments of one call of [geminiService.generateChapterContentStream]. *)
Record Request := mkRequest {
  req_inputs : UserInputs;
  req_chapterTitle : jsstring;
  req_chapterOutlineJson : jsstring;
  req_fullBookStructureJson : jsstring;
  req_previouslyGeneratedChaptersContent : jsstring;
}.

(** An invocation of [handleGenerateChapterContent] suspended at an
    [await]: its argument and the [chapterTasks] of its closure. *)
Record Call := mkCall {
  call_taskId : jsstring;
  call_chapterTasks : list ChapterTask;
}.

(** The component between two events of the JavaScript event loop. *)
Record Machine := mkMachine {
  rendered : AppState;
    (* the state of the last render: what the closures of the handlers
       and of the effects read *)
  queue : list Update;
    (* the updates enqueued since *)
  generatingChapterContentRef : jsstring;
    (* the [useRef] cell; an assignment to [.current] is immediate *)
  inflight : list Call;
  requests : list (jsstring * Request);
    (* every request sent so far, with the id of its task *)
}.

Definition enqueue (us : list Update) (m : Machine) : Machine :=
  mkMachine (rendered m) (queue m ++ us) (generatingChapterContentRef m)
            (inflight m) (requests m).

Definition set_ref (r : jsstring) (m : Machine) : Machine :=
  mkMachine (rendered m) (queue m) r (inflight m) (requests m).

(** [setChapterTasks(prev => ...)].  React runs the function when it
    renders.  It may run it at the call instead ([eager]), which it can
    do only when no update of the component is waiting. *)
Definition dispatch (eager : bool) (f : TasksUpdater) (m : Machine) : Machine :=
  match eager, queue m with
  | true, [] =>
      enqueue [setChapterTasksWith f (Some (generatingChapterContentRef m))] m
  | _, _ => enqueue [setChapterTasksWith f None] m
  end.

(** The state the next render will show if nothing else happens. *)
Definition next_state (m : Machine) : AppState :=
  apply_queue (generatingChapterContentRef m) (queue m) (rendered m).

(** ** [App.tsx]: handlers and effects *)

(** Lines 136-140: one block per earlier task that is done and has
    content. *)
Definition previous_chapter_block (t : ChapterTask) : jsstring :=
  lit "Chapter: " ++ title t ++ [10] ++ default [] (content t)
  ++ [10; 10] ++ lit "---END OF PREVIOUS CHAPTER---" ++ [10; 10].

Definition previouslyGeneratedContent (chapterTasks : list ChapterTask)
    (taskIndex : nat) : jsstring :=
  join (previous_chapter_block
          <$> filter (λ t, status t = done ∧ truthy_str (content t))
                     (take taskIndex chapterTasks)).

(** [handleGenerateChapterContent] from its call to its first [await]
    (lines 125-150).  The handler is a [useCallback] closure: it reads the
    state of the last render. *)
Definition handleGenerateChapterContent (taskId : jsstring) (m : Machine)
  : Machine :=
  let s := rendered m in
  match userInputs s, bookStructure s with
  | Some inputs, Some structure =>
      if truthy structure && isAutoGeneratingChapters s && negb (apiKeyMissing s)
      then
        match list_find (λ t, id t = taskId) (chapterTasks s) with
        | Some (taskIndex, taskToGenerate) =>
            if decide (status taskToGenerate = pending) then
              mkMachine
                (rendered m)
                (queue m ++ [setActivelyGeneratingChapterId (Some taskId);
                             setChapterTasksWith (mark_generating taskId) None])
                []
                (inflight m ++ [mkCall taskId (chapterTasks s)])
                (requests m ++
                   [(taskId,
                     mkRequest inputs (title taskToGenerate)
                       (description taskToGenerate)
                       (JSON_stringify structure)
                       (previouslyGeneratedContent (chapterTasks s) taskIndex))])
            else m
        | None => m
        end
      else m
  | _, _ => m
  end.

Definition remove_call (i : nat) (m : Machine) : Machine :=
  mkMachine (rendered m) (queue m) (generatingChapterContentRef m)
            (delete i (inflight m)) (requests m).

(** One turn of the [for await] loop (lines 152-158): [text] is
    [chunk.text], [None] when it is not a string. *)
Definition on_chunk (taskId : jsstring) (text : option jsstring) (eager : bool)
    (m : Machine) : Machine :=
  match text with
  | Some textChunk =>
      dispatch eager (show_buffer taskId)
        (set_ref (generatingChapterContentRef m ++ textChunk) m)
  | None => m
  end.

(** The stream is exhausted: lines 160-161, then the [finally] block. *)
Definition on_end (taskId : jsstring) (m : Machine) : Machine :=
  let finalContent := trim (or_else (generatingChapterContentRef m) []) in
  set_ref []
    (enqueue [setActivelyGeneratingChapterId None]
       (dispatch false (commit_done taskId finalContent) m)).

(** What a [throw] carries, as far as line 164 looks at it. *)
Inductive Thrown := ThrownError (message : jsstring) | ThrownOther.

Definition message_of (err : Thrown) : jsstring :=
  match err with
  | ThrownError message => message
  | ThrownOther => lit "Failed to generate chapter content."
  end.

(** The [catch] block (lines 163-168), then the [finally] block. *)
Definition on_fail (c : Call) (err : Thrown) (eager : bool) (m : Machine)
  : Machine :=
  let taskId := call_taskId c in
  let errorMessage := message_of err in
  let chapter :=
    match list_find (λ t, id t = taskId) (call_chapterTasks c) with
    | Some (_, t) => or_else (title t) (lit "Unknown")
    | None => lit "Unknown"
    end in
  set_ref []
    (enqueue [setError (Some (lit "Error in chapter: " ++ chapter ++ lit ". "
                              ++ errorMessage));
              setIsAutoGeneratingChapters false;
              setActivelyGeneratingChapterId None]
       (dispatch eager (mark_error taskId errorMessage) m)).

(** The effect of lines 103-109. *)
Definition reflattenEffect (now : nat → N) (m : Machine) : Machine :=
  let s := rendered m in
  match bookStructure s with
  | Some structure =>
      if truthy structure
         && (bool_decide (currentStep s = OUTLINE_REVIEW)
             || bool_decide (currentStep s = GENERATING_CHAPTERS))
      then
        if bool_decide (length (chapterTasks s) = 0%nat)
           || (bool_decide (currentStep s = OUTLINE_REVIEW)
               && forallb (λ t, bool_decide (status t = pending)) (chapterTasks s))
        then enqueue [setChapterTasks (flattenStructureToTasks now structure)] m
        else m
      else m
  | None => m
  end.

(** The effect of lines 175-184. *)
Definition autoAdvanceEffect (m : Machine) : Machine :=
  let s := rendered m in
  if bool_decide (currentStep s = GENERATING_CHAPTERS)
     && isAutoGeneratingChapters s
     && negb (truthy_str (activelyGeneratingChapterId s))
     && negb (apiKeyMissing s)
  then
    match list_find (λ task, status task = pending) (chapterTasks s) with
    | Some (_, nextTask) => handleGenerateChapterContent (id nextTask) m
    | None => enqueue [setIsAutoGeneratingChapters false] m
    end
  else m.

(** A render: the queue is applied, in order, and becomes the state the
    closures see; then the effects run, in the order of the source. *)
Definition render (now : nat → N) (m : Machine) : Machine :=
  autoAdvanceEffect
    (reflattenEffect now
       (mkMachine (next_state m) [] (generatingChapterContentRef m)
                  (inflight m) (requests m))).

(** Lines 119-122. *)
Definition startAutomaticChapterGeneration (m : Machine) : Machine :=
  enqueue [setIsAutoGeneratingChapters true; setError None] m.

(** Lines 111-117. *)
Definition handleProceedToChapterGeneration (now : nat → N) (m : Machine)
  : Machine :=
  match bookStructure (rendered m) with
  | Some structure =>
      if truthy structure then
        enqueue [setChapterTasks (flattenStructureToTasks now structure);
                 setCurrentStep GENERATING_CHAPTERS;
                 setError None] m
      else m
  | None => m
  end.

(** [onGoBack] of the chapter pane (line 212). *)
Definition goBackToOutline (m : Machine) : Machine :=
  enqueue [setCurrentStep OUTLINE_REVIEW] m.

(** Lines 34-45. *)
Definition resetState (m : Machine) : Machine :=
  set_ref []
    (enqueue [setUserInputs None; setBookTitle None; setBookStructure None;
              setChapterTasks []; setError None; setCurrentStep USER_INPUT;
              setIsLoading false; setIsAutoGeneratingChapters false;
              setActivelyGeneratingChapterId None] m).

(** ** A run of the task driver *)

(** What can happen while the chapter pane drives the tasks: React
    renders, the user presses the start button, or the stream of a
    suspended call yields, ends or fails. *)
Inductive Event :=
| Render (now : nat → N)
| ClickStart
| Chunk (taskId : jsstring) (text : option jsstring) (eager : bool)
| StreamEnd (taskId : jsstring)
| StreamFail (taskId : jsstring) (err : Thrown) (eager : bool).

Definition find_call (taskId : jsstring) (m : Machine) : option (nat * Call) :=
  list_find (λ c, call_taskId c = taskId) (inflight m).

(** [None]: the event cannot happen (no call for that task is suspended). *)
Definition step (m : Machine) (e : Event) : option Machine :=
  match e with
  | Render now => Some (render now m)
  | ClickStart => Some (startAutomaticChapterGeneration m)
  | Chunk taskId text eager =>
      match find_call taskId m with
      | Some _ => Some (on_chunk taskId text eager m)
      | None => None
      end
  | StreamEnd taskId =>
      match find_call taskId m with
      | Some (i, _) => Some (remove_call i (on_end taskId m))
      | None => None
      end
  | StreamFail taskId err eager =>
      match find_call taskId m with
      | Some (i, c) => Some (remove_call i (on_fail c err eager m))
      | None => None
      end
  end.

Fixpoint run (m : Machine) (evs : list Event) : option Machine :=
  match evs with
  | [] => Some m
  | e :: evs' =>
      match step m e with
      | Some m' => run m' evs'
      | None => None
      end
  end.

(** The fragments delivered for a task in a run, concatenated in
    delivery order. *)
Fixpoint delivered (taskId : jsstring) (evs : list Event) : jsstring :=
  match evs with
  | [] => []
  | Chunk i (Some text) _ :: evs' =>
      if decide (i = taskId) then text ++ delivered taskId evs'
      else delivered taskId evs'
  | _ :: evs' => delivered taskId evs'
  end.

(** The component as it enters the chapter phase: the outline has been
    accepted and flattened, nothing runs yet. *)
Definition entered (inputs : UserInputs) (structure : JSON) (now : nat → N)
  : Machine :=
  mkMachine
    (mkApp GENERATING_CHAPTERS (Some inputs) None (Some structure)
           (flattenStructureToTasks now structure) None false false None false)
    [] [] [] [].

(** ** [geminiService.ts]: [parseJsonFromText] *)

(** The pieces of the pattern of line 24.  The pattern has the flag [s]
    only: it works on code units, [.] matches every one of them, and [^]
    and [$] are the two ends of the string.  The code reads nothing but
    group 2, so the parentheses of group 1, which is optional and holds
    only [\w*], are left out. *)
Inductive Piece :=
| Literal (c : N)
| Many (greedy : bool) (p : N → bool)
| Maybe (p : N → bool)
| Open
| Close
| AtEnd.

(** A backtracking matcher, the alternatives tried in the order of
    ECMAScript: a greedy repetition takes as much as it can and gives
    back one code unit at a time, a lazy one takes as little as it can.
    [opened] is the input where group 2 began, [group] what it captured;
    the result is the capture of the first match found. *)
Fixpoint matches (pieces : list Piece) (s opened group : jsstring)
    {struct pieces} : option jsstring :=
  match pieces with
  | [] => Some group
  | Literal c :: ps =>
      match s with
      | c' :: s' => if c' =? c then matches ps s' opened group else None
      | [] => None
      end
  | Many true p :: ps =>
      (fix greedy (s : jsstring) : option jsstring :=
         match s with
         | c :: s' =>
             if p c then
               match greedy s' with
               | Some r => Some r
               | None => matches ps s opened group
               end
             else matches ps s opened group
         | [] => matches ps s opened group
         end) s
  | Many false p :: ps =>
      (fix lazy (s : jsstring) : option jsstring :=
         match matches ps s opened group with
         | Some r => Some r
         | None =>
             match s with
             | c :: s' => if p c then lazy s' else None
             | [] => None
             end
         end) s
  | Maybe p :: ps =>
      match s with
      | c :: s' =>
          if p c then
            match matches ps s' opened group with
            | Some r => Some r
            | None => matches ps s opened group
            end
          else matches ps s opened group
      | [] => matches ps s opened group
      end
  | Open :: ps => matches ps s s group
  | Close :: ps =>
      matches ps s opened (take (length opened - length s) opened)
  | AtEnd :: ps =>
      match s with
      | [] => matches ps s opened group
      | _ :: _ => None
      end
  end.

Definition any_unit (c : N) : bool := true.
Definition is_newline (c : N) : bool := c =? 10.

(** The closing part of the pattern, from the end of group 2. *)
Definition fenceClose : list Piece :=
  [Close; Maybe is_newline; Many true is_space;
   Literal 96; Literal 96; Literal 96; AtEnd].

(** The pattern of line 24: three backticks, word characters, white
    space, an optional line feed, then group 2, any code units and as few
    as possible, then the closing part. *)
Definition fenceRegex : list Piece :=
  [Literal 96; Literal 96; Literal 96;
   Many true is_word; Many true is_space; Maybe is_newline;
   Open; Many false any_unit] ++ fenceClose.

(** [jsonStr.match(fenceRegex)]: [None] for no match, otherwise group 2.
    The pattern begins with [^], so a match can only start at the
    beginning. *)
Definition match_fence (jsonStr : jsstring) : option jsstring :=
  matches fenceRegex jsonStr jsonStr [].

Inductive Outcome (A : Type) :=
| Returns (a : A)
| Throws (err : Thrown).
Arguments Returns {A} a.
Arguments Throws {A} err.

Definition invalid_json_message : jsstring :=
  lit "Invalid JSON response from AI. The AI returned content that was not valid JSON.".

(** Lines 22-35. *)
Definition parseJsonFromText (text : jsstring) : Outcome JSON :=
  let jsonStr := trim text in
  let jsonStr :=
    match match_fence jsonStr with
    | Some group2 => if nonempty group2 then trim group2 else jsonStr
    | None => jsonStr
    end in
  match JSON_parse jsonStr with
  | Some v => Returns v
  | None => Throws (ThrownError invalid_json_message)
  end.

(** ** [App.tsx]: [handleUserInputSubmit] *)

(** [accumulatedStructure] after the loop of lines 63-65: [chunk.text] is
    appended as it is, and a text that is not there appends
    "undefined". *)
Definition accumulatedStructure (chunks : list (option jsstring)) : jsstring :=
  concat (default (lit "undefined") <$> chunks).

(** The [catch] block of lines 72-75. *)
Definition outline_catch (err : Thrown) : list Update :=
  [setError (Some match err with
                  | ThrownError message => message
                  | ThrownOther => lit "Failed to generate outline or title."
                  end);
   setCurrentStep USER_INPUT].

(** Lines 52-58: the handler up to its first [await]. *)
Definition submit_begin (inputs : UserInputs) (m : Machine) : Machine :=
  if apiKeyMissing (rendered m) then
    enqueue [setError (Some (lit "Application is not configured correctly. API Key is missing."))] m
  else
    enqueue [setUserInputs (Some inputs); setCurrentStep GENERATING_OUTLINE;
             setIsLoading true; setError None; setBookStructure None;
             setBookTitle None; setChapterTasks []] m.

(** Lines 60-78 once the awaited calls have settled: [chunks] are the
    texts the outline stream yielded, [streamEnd] tells whether it ended
    or threw, [title] how [generateBookTitle] settled. *)
Definition submit_settle (chunks : list (option jsstring))
    (streamEnd : Outcome unit) (title : Outcome jsstring) (m : Machine)
  : Machine :=
  enqueue
    (match streamEnd with
     | Throws err => outline_catch err
     | Returns _ =>
         match parseJsonFromText (accumulatedStructure chunks) with
         | Throws err => outline_catch err
         | Returns structure =>
             setBookStructure (Some structure)
             :: match title with
                | Returns t => [setBookTitle (Some t);
                                setCurrentStep OUTLINE_REVIEW]
                | Throws err => outline_catch err
                end
         end
     end ++ [setIsLoading false])
    m.

(** ** [String.prototype.replace] with a global pattern of literal characters *)

(** [GetSubstitution] for a match without capture groups: [matched] was
    found at [position] of [str].  In the replacement text [$$] stands
    for a dollar sign, [$&] for the match, [$`] for what precedes the
    match and [$'] for what follows it; a dollar sign before anything
    else, a digit or [<] included, is kept with what follows. *)
Fixpoint GetSubstitution (matched str : jsstring) (position : nat)
    (replacementTemplate : jsstring) : jsstring :=
  match replacementTemplate with
  | [] => []
  | c :: t =>
      if c =? 36 then
        match t with
        | c' :: t' =>
            if c' =? 36 then 36 :: GetSubstitution matched str position t'
            else if c' =? 96 then
              take position str ++ GetSubstitution matched str position t'
            else if c' =? 38 then
              matched ++ GetSubstitution matched str position t'
            else if c' =? 39 then
              drop (position + length matched) str
              ++ GetSubstitution matched str position t'
            else 36 :: GetSubstitution matched str position t
        | [] => [36]
        end
      else c :: GetSubstitution matched str position t
  end.

(** The scan of [str.replace(/pattern/g, replacement)] for a pattern
    that is a non-empty sequence of literal characters: the matches are
    the occurrences met from left to right, each one starting after the
    end of the previous one.  [rest] is [str] from [position] on, and
    [skip] counts the characters of a match still to pass. *)
Fixpoint replace_scan (pattern replacement str : jsstring)
    (skip position : nat) (rest : jsstring) : jsstring :=
  match rest with
  | [] => []
  | c :: rest' =>
      match skip with
      | S skip' =>
          replace_scan pattern replacement str skip' (S position) rest'
      | O =>
          match strip_prefix pattern rest with
          | Some _ =>
              GetSubstitution pattern str position replacement
              ++ replace_scan pattern replacement str (length pattern - 1)
                   (S position) rest'
          | None =>
              c :: replace_scan pattern replacement str 0 (S position) rest'
          end
      end
  end.

Definition replace_all (pattern replacement str : jsstring) : jsstring :=
  replace_scan pattern replacement str 0 0 str.

(** The pattern [/\$\{name\}/g]. *)
Definition placeholder (name : jsstring) : jsstring :=
  [36; 123] ++ name ++ [125].

(** ** [geminiService.ts]: the prompts *)

(** The two model names of [constants.ts]. *)
Inductive ModelId := GEMINI_FLASH_MODEL_NORMAL | GEMINI_PRO_MODEL_ADVANCED.

Definition getModelId (mode : GenerationMode) : ModelId :=
  match mode with
  | advanced => GEMINI_PRO_MODEL_ADVANCED
  | normal => GEMINI_FLASH_MODEL_NORMAL
  end.

(** The argument of [ai.models.generateContentStream] and of
    [ai.models.generateContent]. *)
Record GenerateContentParameters := mkParameters {
  model : ModelId;
  contents : jsstring;
}.

(** One link of a chain of [.replace] calls, the receiver last. *)
Definition replace (name replacement str : jsstring) : jsstring :=
  replace_all (placeholder name) replacement str.

(** Lines 37-48.  The template is a constant of [constants.ts]. *)
Definition generateBookStructureStream (STRUCTURE_PROMPT_TEMPLATE : jsstring)
    (inputs : UserInputs) : GenerateContentParameters :=
  let prompt :=
    replace (lit "numberOfChapters") (Number_toString (numberOfChapters inputs))
      (replace (lit "additionalInfo")
         (or_else (additionalInfo inputs) (lit "None"))
         (replace (lit "subject") (subject inputs)
            (replace (lit "language") (language inputs)
               STRUCTURE_PROMPT_TEMPLATE))) in
  mkParameters (getModelId (generationMode inputs)) prompt.

(** Lines 50-60, up to the call of the model. *)
Definition generateBookTitle (TITLE_PROMPT_TEMPLATE : jsstring)
    (inputs : UserInputs) (bookStructure : JSON) : GenerateContentParameters :=
  let prompt :=
    replace (lit "bookStructure") (JSON_stringify bookStructure)
      (replace (lit "additionalInfo")
         (or_else (additionalInfo inputs) (lit "None"))
         (replace (lit "subject") (subject inputs)
            (replace (lit "language") (language inputs)
               TITLE_PROMPT_TEMPLATE))) in
  mkParameters (getModelId (generationMode inputs)) prompt.

(** Lines 64-86. *)
Definition generateChapterContentStream (CONTENT_PROMPT_TEMPLATE : jsstring)
    (inputs : UserInputs)
    (chapterTitle chapterOutlineJson fullBookStructureJson
       previouslyGeneratedChaptersContent : jsstring)
  : GenerateContentParameters :=
  let prompt :=
    replace (lit "readingLevel") (Number_toString (readingLevel inputs))
      (replace (lit "contentLength") (Number_toString (contentLength inputs))
         (replace (lit "previouslyGeneratedChaptersContent")
            (or_else previouslyGeneratedChaptersContent
               (lit "No chapters written yet."))
            (replace (lit "fullBookStructureJson") fullBookStructureJson
               (replace (lit "chapterOutlineJson") chapterOutlineJson
                  (replace (lit "chapterTitle") chapterTitle
                     (replace (lit "additionalInfo")
                        (or_else (additionalInfo inputs) (lit "None"))
                        (replace (lit "overallBookSubject") (subject inputs)
                           (replace (lit "language") (language inputs)
                              CONTENT_PROMPT_TEMPLATE)))))))) in
  mkParameters (getModelId (generationMode inputs)) prompt.

(** The call of line 144, with the arguments of a recorded request. *)
Definition request_parameters (CONTENT_PROMPT_TEMPLATE : jsstring)
    (r : Request) : GenerateContentParameters :=
  generateChapterContentStream CONTENT_PROMPT_TEMPLATE (req_inputs r)
    (req_chapterTitle r) (req_chapterOutlineJson r)
    (req_fullBookStructureJson r) (req_previouslyGeneratedChaptersContent r).

(** ** [SectionItem.tsx] and [ChapterGenerationPane.tsx]: what the chapter pane shows *)

(** [isCurrentlyGeneratingThis], as [ChapterGenerationPane] passes it:
    [task.id === activelyGeneratingChapterId]. *)
Definition isCurrentlyGeneratingThis
    (activelyGeneratingChapterId : option jsstring) (task : ChapterTask)
  : bool :=
  bool_decide (activelyGeneratingChapterId = Some (id task)).

(** The block with [task.content] is rendered. *)
Definition shows_content (task : ChapterTask) (isCurrent : bool) : bool :=
  (bool_decide (status task = done) || bool_decide (status task = generating)
   || isCurrent)
  && truthy_str (content task).

(** The line with [task.errorMessage] is rendered. *)
Definition shows_errorMessage (task : ChapterTask) : bool :=
  bool_decide (status task = error) && truthy_str (errorMessage task).

Definition completedTasks (tasks : list ChapterTask) : nat :=
  length (filter (λ task, status task = done) tasks).

Definition allTasksProcessed (tasks : list ChapterTask) : bool :=
  forallb (λ task, bool_decide (status task = done)
                   || bool_decide (status task = error)) tasks.

(** What [ChapterGenerationPane] renders, as far as the state decides it.
    Without tasks it renders a notice and the back button alone. *)
Record ChapterPane := mkPane {
  start_button : bool;
    (* "Start Automatic Chapter Generation" is there *)
  progress_label : option jsstring;
    (* the text over the progress bar, when the bar is there *)
  preparing_next : bool;
    (* "Preparing next chapter..." is there *)
  back_enabled : bool;
  view_book_enabled : bool;
}.

Definition ChapterGenerationPane (tasks : list ChapterTask)
    (isAutoGenerating : bool) (activelyGeneratingChapterId : option jsstring)
  : ChapterPane :=
  match tasks with
  | [] => mkPane false None false true false
  | _ =>
      let active := truthy_str activelyGeneratingChapterId in
      let processed := allTasksProcessed tasks in
      mkPane
        (negb isAutoGenerating && negb processed)
        (if isAutoGenerating || bool_decide (0 < completedTasks tasks)%nat
            || existsb (λ t, bool_decide (status t = error)) tasks
         then
           Some
             (if isAutoGenerating && active then
                lit "Writing: "
                ++ or_else
                     (match list_find
                              (λ t, Some (id t) = activelyGeneratingChapterId)
                              tasks with
                      | Some (_, t) => title t
                      | None => []
                      end)
                     (lit "Chapter")
                ++ lit "..."
              else if processed
                      && bool_decide (completedTasks tasks < length tasks)%nat
              then lit "Generation Halted (Errors)"
              else if processed then lit "All Chapters Processed"
              else lit "Progress")
         else None)
        (isAutoGenerating && negb active && negb processed)
        (negb (isAutoGenerating && active))
        (negb (isAutoGenerating || negb processed))
  end.

(** The pane of line 212 in a state of [App]. *)
Definition chapter_pane (s : AppState) : ChapterPane :=
  ChapterGenerationPane (chapterTasks s) (isAutoGeneratingChapters s)
    (activelyGeneratingChapterId s).

(** ** [OutlineReviewPane.tsx] and the handlers [App] gives to the panes *)

(** "Proceed to Write Chapters" is enabled: [!(!title || !structure)]. *)
Definition proceed_enabled (s : AppState) : bool :=
  truthy_str (bookTitle s) && has_structure (bookStructure s).

(** [onGoBack] of the outline pane (line 210). *)
Definition goBackToInputs (m : Machine) : Machine :=
  enqueue [setCurrentStep USER_INPUT] (resetState m).

(** [onComplete] of the chapter pane (line 212). *)
Definition viewBook (m : Machine) : Machine :=
  enqueue [setCurrentStep VIEW_BOOK] m.

(** ** [UserInputPane.tsx]: presets and labels *)

Record ValueMapItem := mkItem {
  value : N;
  label : jsstring;
}.

Definition CONTENT_LENGTH_PRESETS : list (jsstring * N) :=
  [(lit "short", 500); (lit "medium", 7000); (lit "long", 15000)].

Definition READING_LEVEL_DESCRIPTIVE_MAP : list ValueMapItem :=
  [mkItem 2 (lit "Kindergarten"); mkItem 4 (lit "Middle School");
   mkItem 5 (lit "Standard"); mkItem 7 (lit "High School");
   mkItem 8 (lit "College"); mkItem 10 (lit "Graduate School")].

(** [READING_LEVEL_DESCRIPTIVE_MAP.find(rl => rl.label === name)!.value];
    every name the source looks up is in the map. *)
Definition level_named (name : jsstring) : N :=
  match list_find (λ rl, label rl = name) READING_LEVEL_DESCRIPTIVE_MAP with
  | Some (_, rl) => value rl
  | None => 0
  end.

Definition READING_LEVEL_PRESETS : list (jsstring * N) :=
  [(lit "kindergarten", level_named (lit "Kindergarten"));
   (lit "middle", level_named (lit "Middle School"));
   (lit "standard", level_named (lit "Standard"));
   (lit "high", level_named (lit "High School"));
   (lit "college", level_named (lit "College"));
   (lit "graduate", level_named (lit "Graduate School"))].

Inductive ModalType := type_length | type_level.

(** Lines 124-137: the first preset whose value is the current one,
    ["custom"] when there is none. *)
Definition getDropdownValue (type : ModalType) (currentValue : N) : jsstring :=
  let presets := match type with
                 | type_length => CONTENT_LENGTH_PRESETS
                 | type_level => READING_LEVEL_PRESETS
                 end in
  match list_find (λ entry, entry.2 = currentValue) presets with
  | Some (_, (key, _)) => key
  | None => lit "custom"
  end.

(** [Math.abs(a - b)] on two non-negative integers. *)
Definition distance (a b : N) : N := Z.abs_N (Z.of_N a - Z.of_N b).

(** One turn of the loop of lines 145-152 (and of lines 98-106): its two
    [if] statements, the second reading what the first has assigned. *)
Definition closer (val : N) (closest item : ValueMapItem) : ValueMapItem :=
  let closest :=
    if distance (value item) val <? distance (value closest) val
    then item else closest in
  if (distance (value item) val =? distance (value closest) val)
     && (value item <=? val)
  then item else closest.

Definition approximate_label (closest : ValueMapItem) (val : N) : jsstring :=
  lit "~" ++ label closest ++ lit " (Level " ++ Number_toString val
  ++ lit "/10)".

(** Lines 139-156. *)
Definition getReadingLevelLabel (val : N) : jsstring :=
  match list_find (λ item, value item = val) READING_LEVEL_DESCRIPTIVE_MAP with
  | Some (_, found) => label found
  | None =>
      match READING_LEVEL_DESCRIPTIVE_MAP with
      | first :: _ =>
          approximate_label
            (fold_left (closer val) READING_LEVEL_DESCRIPTIVE_MAP first) val
      | [] => lit "Level " ++ Number_toString val ++ lit "/10"
      end
  end.

(** The [valueLabelFormatter] of the reading-level modal (lines 95-109),
    its second argument given.  [None]: the call throws a [TypeError],
    reading [label] of the [undefined] that [vMap[0]] is on an empty
    map. *)
Definition valueLabelFormatter (val : N) (vMap : list ValueMapItem)
  : option jsstring :=
  let closest := fold_left (closer val) vMap <$> head vMap in
  match list_find (λ item, value item = val) vMap with
  | Some (_, exactMatch) => Some (label exactMatch)
  | None => (λ c, approximate_label c val) <$> closest
  end.

(** ** A session: the driver and the buttons of the panes *)

(** [handleSubmit] of the input pane (lines 65-70) calls [onNext] for a
    subject that is not blank and twelve chapters or more. *)
Definition submittable (inputs : UserInputs) : bool :=
  nonempty (trim (subject inputs)) && (12 <=? numberOfChapters inputs).

(** What can happen to the component: an event of the driver, a button
    of a pane, or the settling of the calls that
    [handleUserInputSubmit] awaits. *)
Inductive Action :=
| Driver (e : Event)
| GoBackToOutline
| GoBackToInputs
| Submit (inputs : UserInputs)
| Settle (chunks : list (option jsstring)) (streamEnd : Outcome unit)
         (title : Outcome jsstring)
| Proceed (now : nat → N).

(** The page of the last render decides which buttons there are
    (lines 186 and 203-219) and which of them are enabled.  [None]: the
    action cannot happen. *)
Definition act (m : Machine) (a : Action) : option Machine :=
  let s := rendered m in
  let shown (step : AppStep) :=
    negb (apiKeyMissing s) && bool_decide (currentStep s = step) in
  match a with
  | Driver ClickStart =>
      if shown GENERATING_CHAPTERS && start_button (chapter_pane s)
      then step m ClickStart else None
  | Driver e => step m e
  | GoBackToOutline =>
      if shown GENERATING_CHAPTERS && back_enabled (chapter_pane s)
      then Some (goBackToOutline m) else None
  | GoBackToInputs =>
      if shown OUTLINE_REVIEW && negb (isLoading s)
      then Some (goBackToInputs m) else None
  | Submit inputs =>
      if shown USER_INPUT && negb (isLoading s) && submittable inputs
      then Some (submit_begin inputs m) else None
  | Settle chunks streamEnd title =>
      if bool_decide (currentStep s = GENERATING_OUTLINE)
      then Some (submit_settle chunks streamEnd title m) else None
  | Proceed now =>
      if shown OUTLINE_REVIEW && negb (isLoading s) && proceed_enabled s
      then Some (handleProceedToChapterGeneration now m) else None
  end.

Fixpoint session (m : Machine) (actions : list Action) : option Machine :=
  match actions with
  | [] => Some m
  | a :: actions' =>
      match act m a with
      | Some m' => session m' actions'
      | None => None
      end
  end.


(** * Properties of the program *)

(** ** A sample run *)

(** Closed goals about concrete runs are settled by evaluation, one
    conjunct at a time. *)
Ltac by_evaluation :=
  intros;
  lazymatch goal with
  | |- _ ∧ _ => split; [by_evaluation | by_evaluation]
  | |- _ => vm_compute; first [reflexivity | discriminate]
  end.

(** The scenario of the specification: two chapters, the first stream
    yields two fragments, the second fails at once. *)
Definition sample_inputs : UserInputs :=
  mkInputs (lit "Rocq") (lit "en") [] normal 7000 5 12.

Definition sample_outline : JSON :=
  JObject [(lit "Ch1", JString (lit "desc1"));
           (lit "Ch2", JObject [(lit "A", JString (lit "a"));
                                (lit "B", JString (lit "b"))])].

Definition sample_clock : nat → N := λ _, 1700000000000.

Definition sample_run : list Event :=
  [ClickStart; Render sample_clock;
   Chunk (lit "Ch1-1700000000000-0") (Some (lit "Hello ")) false;
   Render sample_clock;
   Chunk (lit "Ch1-1700000000000-0") (Some (lit "world")) false;
   StreamEnd (lit "Ch1-1700000000000-0"); Render sample_clock;
   StreamFail (lit "Ch2-1700000000000-1") (ThrownError (lit "quota")) false;
   Render sample_clock].

Example sample_run_result :
  (λ m, ((λ t, (status t, content t)) <$> chapterTasks (rendered m),
         isAutoGeneratingChapters (rendered m)))
    <$> run (entered sample_inputs sample_outline sample_clock) sample_run
  = Some ([(done, Some (lit "Hello world")); (error, Some [])], false).
Proof. vm_compute. reflexivity. Qed.

(** ** [flattenStructureToTasks]: positions and identifiers *)

(** The part of a string after its last hyphen (the whole string when it
    has none). *)
Fixpoint last_field (s : jsstring) : jsstring :=
  match s with
  | [] => []
  | c :: s' =>
      if bool_decide (45 ∈ s') then last_field s'
      else if c =? 45 then s' else s
  end.

Lemma last_field_app (p d : jsstring) :
  45 ∉ d → last_field (p ++ 45 :: d) = d.
Proof.
  intros Hd. induction p as [|c p IH]; simpl.
  - rewrite bool_decide_eq_false_2 by done. done.
  - rewrite bool_decide_eq_true_2; [done|].
    apply elem_of_app. right. apply elem_of_cons. by left.
Qed.

Lemma digits_no_hyphen (d : Decimal.uint) : 45 ∉ digits d.
Proof.
  induction d; simpl; [apply not_elem_of_nil|..];
    (apply not_elem_of_cons; split; [lia|done]).
Qed.

Lemma digits_inj (d d' : Decimal.uint) : digits d = digits d' → d = d'.
Proof.
  revert d'. induction d; intros []; simpl; intros H;
    try discriminate; try done;
    injection H as H; f_equal; auto.
Qed.

Lemma Number_toString_inj (n m : N) :
  Number_toString n = Number_toString m → n = m.
Proof.
  unfold Number_toString. intros H%digits_inj.
  by apply DecimalN.Unsigned.to_uint_inj.
Qed.

Lemma task_id_last_field (key : jsstring) (now : N) (order : nat) :
  last_field (task_id key now order) = Number_toString (N.of_nat order).
Proof.
  unfold task_id.
  replace (or_else (sanitizedKey key) (lit "chapter") ++ [45]
           ++ Number_toString now ++ [45] ++ Number_toString (N.of_nat order))
    with ((or_else (sanitizedKey key) (lit "chapter") ++ [45]
           ++ Number_toString now) ++ 45 :: Number_toString (N.of_nat order))
    by (by rewrite <- !app_assoc).
  apply last_field_app, digits_no_hyphen.
Qed.

Lemma flatten_loop_lookup now order entries i key value :
  entries !! i = Some (key, value) →
  flatten_loop now order entries !! i
  = Some {| id := task_id key (now (order + i)%nat) (order + i);
            title := key;
            description := chapterOutlineJson value;
            path := [key];
            status := pending;
            content := Some [];
            errorMessage := None |}.
Proof.
  revert order i. induction entries as [|[k v] rest IH]; intros order i.
  - by rewrite lookup_nil.
  - destruct i as [|i]; simpl.
    + intros [= -> ->]. by rewrite Nat.add_0_r.
    + intros H. rewrite (IH (S order) i H).
      by replace (S order + i)%nat with (order + S i)%nat by lia.
Qed.

Lemma flatten_loop_length now order entries :
  length (flatten_loop now order entries) = length entries.
Proof.
  revert order. induction entries as [|[k v] rest IH]; intros order; simpl;
    [done|by rewrite IH].
Qed.

Lemma flatten_loop_order now order entries t :
  t ∈ flatten_loop now order entries →
  ∃ j, (order ≤ j)%nat ∧ last_field (id t) = Number_toString (N.of_nat j).
Proof.
  revert order. induction entries as [|[k v] rest IH]; intros order; simpl.
  - intros H. by apply elem_of_nil in H.
  - intros [->|H]%elem_of_cons.
    + exists order. split; [lia|]. apply task_id_last_field.
    + destruct (IH _ H) as (j & Hj & Hl). exists j. split; [lia|done].
Qed.

Lemma flatten_loop_NoDup now order entries :
  NoDup (id <$> flatten_loop now order entries).
Proof.
  revert order. induction entries as [|[k v] rest IH]; intros order; simpl.
  - constructor.
  - constructor; [|apply IH].
    intros (t & Hid & Ht)%list_elem_of_fmap.
    destruct (flatten_loop_order _ _ _ _ Ht) as (j & Hj & Hl).
    simpl in Hid. rewrite <- Hid, task_id_last_field in Hl.
    apply Number_toString_inj in Hl. lia.
Qed.

Lemma flatten_loop_pending now order entries t :
  t ∈ flatten_loop now order entries → status t = pending.
Proof.
  revert order. induction entries as [|[k v] rest IH]; intros order; simpl.
  - intros H. by apply elem_of_nil in H.
  - intros [->|H]%elem_of_cons; [done|by eapply IH].
Qed.

Lemma flatten_loop_id_nonempty now order entries t :
  t ∈ flatten_loop now order entries → id t ≠ [].
Proof.
  revert order. induction entries as [|[k v] rest IH]; intros order; simpl.
  - intros H. by apply elem_of_nil in H.
  - intros [->|H]%elem_of_cons; [|by eapply IH].
    simpl. unfold task_id. intros H. apply (f_equal length) in H.
    rewrite !length_app in H. simpl in H. lia.
Qed.

(** C2.  Flattening an outline with N top-level entries gives N tasks; the
    task at position i comes from the i-th entry in iteration order and
    is pending with empty content; and the identifiers of the pass are
    pairwise distinct, whatever the names and whatever the clock reads. *)
Theorem C2_flatten_positions_and_distinct_ids
    (now : nat → N) (structure : JSON) :
  let tasks := flattenStructureToTasks now structure in
  let entries := Object_entries structure in
  length tasks = length entries
  ∧ (∀ i key value, entries !! i = Some (key, value) →
       ∃ t, tasks !! i = Some t ∧ title t = key ∧ path t = [key]
            ∧ status t = pending ∧ content t = Some []
            ∧ errorMessage t = None)
  ∧ (∀ t, t ∈ tasks → status t = pending)
  ∧ NoDup (id <$> tasks).
Proof.
  simpl. unfold flattenStructureToTasks. split_and!.
  - apply flatten_loop_length.
  - intros i key value H. eexists. split.
    + by apply flatten_loop_lookup.
    + done.
  - intros t. apply flatten_loop_pending.
  - apply flatten_loop_NoDup.
Qed.

(** Two entries of the same name get two identifiers. *)
Example flatten_repeated_name :
  id <$> flattenStructureToTasks (λ _, 1700000000000)
           (JObject [(lit "Intro", JString (lit "a"));
                     (lit "Intro", JString (lit "b"))])
  = [lit "Intro-1700000000000-0"; lit "Intro-1700000000000-1"].
Proof. vm_compute. reflexivity. Qed.

(** ** Reasoning about the update queue *)

Lemma or_else_nil (s : jsstring) : or_else s [] = s.
Proof. by destruct s. Qed.

Lemma apply_queue_app ρ q q' s :
  apply_queue ρ (q ++ q') s = apply_queue ρ q' (apply_queue ρ q s).
Proof. apply fold_left_app. Qed.

(** What one queued update does to one task, and a whole queue to one
    task: every functional update is a [map]. *)
Definition flush_update (ρ : jsstring) (t : ChapterTask) (u : Update)
  : ChapterTask :=
  match u with
  | setChapterTasksWith f None => update_task f ρ t
  | setChapterTasksWith f (Some r) => update_task f r t
  | _ => t
  end.

Definition flush_task (ρ : jsstring) (q : list Update) (t : ChapterTask)
  : ChapterTask :=
  fold_left (flush_update ρ) q t.

Lemma update_task_id f ρ t : id (update_task f ρ t) = id t.
Proof. unfold update_task. case_decide; [|done]. by destruct f. Qed.

Lemma flush_update_id ρ t u : id (flush_update ρ t u) = id t.
Proof. destruct u as [| | | | |f [r|]| | | | |]; simpl; auto using update_task_id. Qed.

Lemma flush_task_id ρ q t : id (flush_task ρ q t) = id t.
Proof.
  revert t. induction q as [|u q IH]; intros t; [done|].
  unfold flush_task in *. simpl. by rewrite IH, flush_update_id.
Qed.

Lemma flush_task_app ρ q q' t :
  flush_task ρ (q ++ q') t = flush_task ρ q' (flush_task ρ q t).
Proof. apply fold_left_app. Qed.

(** The only whole-list replacement a driver run enqueues is the empty
    list over the empty list (the re-flatten effect on an outline without
    entries). *)
Definition replaces_nothing (l : list ChapterTask) (u : Update) : Prop :=
  match u with
  | setChapterTasks v => v = [] ∧ l = []
  | _ => True
  end.

Lemma tasks_apply_queue ρ q s :
  Forall (replaces_nothing (chapterTasks s)) q →
  chapterTasks (apply_queue ρ q s) = flush_task ρ q <$> chapterTasks s.
Proof.
  revert s. induction q as [|u q IH]; intros s Hq.
  - simpl. by rewrite list_fmap_id.
  - apply Forall_cons_1 in Hq as [Hu Hq]. unfold apply_queue, flush_task in *.
    simpl. rewrite IH.
    + destruct u as [| | | |v|f [r|]| | | | |]; simpl; try done.
      * destruct Hu as [-> ->]. done.
      * unfold apply_updater. rewrite <- list_fmap_compose. done.
      * unfold apply_updater. rewrite <- list_fmap_compose. done.
    + eapply Forall_impl; [exact Hq|]. intros u' Hu'.
      destruct u' as [| | | |v'| | | | | |]; simpl in *; try done.
      destruct Hu' as [-> Hnil]. split; [done|].
      destruct u as [| | | |v|f [r|]| | | | |]; simpl; try done.
      * by destruct Hu as [-> _].
      * unfold apply_updater. by rewrite Hnil.
      * unfold apply_updater. by rewrite Hnil.
Qed.

(** The updates a driver run enqueues. *)
Definition driver_update (u : Update) : Prop :=
  match u with
  | setIsAutoGeneratingChapters _ | setError _
  | setActivelyGeneratingChapterId _ | setChapterTasksWith _ _
  | setChapterTasks _ => True
  | _ => False
  end.

Lemma driver_queue_frame ρ q s :
  Forall driver_update q →
  currentStep (apply_queue ρ q s) = currentStep s
  ∧ bookStructure (apply_queue ρ q s) = bookStructure s
  ∧ userInputs (apply_queue ρ q s) = userInputs s
  ∧ apiKeyMissing (apply_queue ρ q s) = apiKeyMissing s.
Proof.
  revert s. induction q as [|u q IH]; intros s Hq; [done|].
  apply Forall_cons_1 in Hq as [Hu Hq]. unfold apply_queue in *. simpl.
  destruct (IH (apply_update ρ s u) Hq) as (-> & -> & -> & ->).
  by destruct u as [| | | |v|f [r|]| | | | |].
Qed.

(** Updates that leave the tasks and the active id alone. *)
Definition quiet_update (l : list ChapterTask) (u : Update) : Prop :=
  match u with
  | setIsAutoGeneratingChapters _ | setError _ => True
  | setChapterTasks v => v = [] ∧ l = []
  | _ => False
  end.

Lemma quiet_queue_frame ρ q s :
  Forall (quiet_update (chapterTasks s)) q →
  chapterTasks (apply_queue ρ q s) = chapterTasks s
  ∧ activelyGeneratingChapterId (apply_queue ρ q s)
    = activelyGeneratingChapterId s.
Proof.
  revert s. induction q as [|u q IH]; intros s Hq; [done|].
  apply Forall_cons_1 in Hq as [Hu Hq]. unfold apply_queue in *. simpl.
  assert (chapterTasks (apply_update ρ s u) = chapterTasks s
          ∧ activelyGeneratingChapterId (apply_update ρ s u)
            = activelyGeneratingChapterId s) as [Ht Ha].
  { destruct u as [| | | |v|f [r|]| | | | |]; simpl in *; try done.
    destruct Hu as [-> ->]. done. }
  destruct (IH (apply_update ρ s u)) as [-> ->]; [by rewrite Ht|done].
Qed.

(** Updates of a batch whose functional updates all aim at one task. *)
Definition aims_at (id0 : jsstring) (u : Update) : Prop :=
  match u with
  | setIsAutoGeneratingChapters _ | setError _
  | setActivelyGeneratingChapterId _ => True
  | setChapterTasksWith f _ => target f = id0
  | _ => False
  end.

Lemma aims_at_driver id0 q : Forall (aims_at id0) q → Forall driver_update q.
Proof. intros H. eapply Forall_impl; [exact H|]. by intros [| | | | | | | | | |]. Qed.

Lemma aims_at_replaces_nothing id0 l q :
  Forall (aims_at id0) q → Forall (replaces_nothing l) q.
Proof. intros H. eapply Forall_impl; [exact H|]. by intros [| | | | | | | | | |]. Qed.

Lemma quiet_driver l q : Forall (quiet_update l) q → Forall driver_update q.
Proof. intros H. eapply Forall_impl; [exact H|]. by intros [| | | | | | | | | |]. Qed.

Lemma flush_task_other ρ q id0 t :
  Forall (aims_at id0) q → id t ≠ id0 → flush_task ρ q t = t.
Proof.
  intros Hq Hne. induction Hq as [|u q Hu Hq IH]; [done|].
  unfold flush_task in *. simpl.
  replace (flush_update ρ t u) with t; [done|].
  destruct u as [| | | | |f [r|]| | | | |]; simpl in *; try done;
    unfold update_task; by rewrite decide_False by congruence.
Qed.

(** ** The invariant of a driver run *)

Lemma delivered_app taskId evs evs' :
  delivered taskId (evs ++ evs') = delivered taskId evs ++ delivered taskId evs'.
Proof.
  induction evs as [|e evs IH]; [done|].
  destruct e as [| |i [text|] eager| |]; simpl; try done.
  case_decide; [|done]. by rewrite IH, app_assoc.
Qed.

Lemma delivered_snoc_other taskId evs e :
  (∀ i text eager, e = Chunk i (Some text) eager → i ≠ taskId) →
  delivered taskId (evs ++ [e]) = delivered taskId evs.
Proof.
  intros He. rewrite delivered_app.
  destruct e as [| |i [text|] eager| |]; simpl; try by rewrite app_nil_r.
  rewrite decide_False; [by rewrite app_nil_r|]. by eapply He.
Qed.

Section DriverInvariant.
Context (structure : JSON).

(** What never changes during a run. *)
Record Static (s : AppState) : Prop := {
  st_step : currentStep s = GENERATING_CHAPTERS;
  st_structure : bookStructure s = Some structure;
  st_length : length (chapterTasks s) = length (Object_entries structure);
  st_nodup : NoDup (id <$> chapterTasks s);
  st_ids : ∀ t, t ∈ chapterTasks s → id t ≠ [];
}.

(** A task of the rendered list, when [focus] is the task the current
    batch of updates works on (if any). *)
Definition settled (focus : option jsstring) (evs : list Event)
    (t : ChapterTask) : Prop :=
  (status t = generating → focus = Some (id t))
  ∧ (status t = pending → focus ≠ Some (id t) → delivered (id t) evs = [])
  ∧ (status t = done → content t = Some (trim (delivered (id t) evs))).

(** No call is suspended and the queue holds no task update. *)
Definition Quiet (m : Machine) (evs : list Event) : Prop :=
  inflight m = [] ∧ generatingChapterContentRef m = []
  ∧ Forall (quiet_update (chapterTasks (rendered m))) (queue m)
  ∧ truthy_str (activelyGeneratingChapterId (rendered m)) = false
  ∧ Forall (settled None evs) (chapterTasks (rendered m)).

(** The call for the focus task is suspended. *)
Definition Busy (id0 : jsstring) (t0 : ChapterTask) (m : Machine)
    (evs : list Event) : Prop :=
  ∃ c, inflight m = [c] ∧ call_taskId c = id0
  ∧ generatingChapterContentRef m = delivered id0 evs
  ∧ ∀ ρ,
      activelyGeneratingChapterId (apply_queue ρ (queue m) (rendered m))
      = Some id0
      ∧ status (flush_task ρ (queue m) t0) = generating
      ∧ (content (flush_task ρ (queue m) t0) = Some ρ
         ∨ content (flush_task ρ (queue m) t0)
           = Some (generatingChapterContentRef m)).

(** The call for the focus task has returned; its last updates wait in
    the queue. *)
Definition Finished (id0 : jsstring) (t0 : ChapterTask) (m : Machine)
    (evs : list Event) : Prop :=
  inflight m = [] ∧ generatingChapterContentRef m = []
  ∧ ∀ ρ,
      activelyGeneratingChapterId (apply_queue ρ (queue m) (rendered m))
      = None
      ∧ ((status (flush_task ρ (queue m) t0) = done
          ∧ content (flush_task ρ (queue m) t0)
            = Some (trim (delivered id0 evs)))
         ∨ status (flush_task ρ (queue m) t0) = error).

Definition Focused (m : Machine) (evs : list Event) : Prop :=
  ∃ id0 i t0,
    Forall (aims_at id0) (queue m)
    ∧ chapterTasks (rendered m) !! i = Some t0 ∧ id t0 = id0
    ∧ (status t0 = pending ∨ status t0 = generating)
    ∧ Forall (settled (Some id0) evs) (chapterTasks (rendered m))
    ∧ (Busy id0 t0 m evs ∨ Finished id0 t0 m evs).

Definition Inv (m : Machine) (evs : list Event) : Prop :=
  Static (rendered m) ∧ (Quiet m evs ∨ Focused m evs).

Lemma settled_snoc_other focus evs e t :
  (∀ i text eager, e = Chunk i (Some text) eager → focus = Some i) →
  (focus = Some (id t) → status t = pending ∨ status t = generating) →
  settled focus evs t → settled focus (evs ++ [e]) t.
Proof.
  intros He Hf (Hg & Hp & Hd). split_and!; [done|..].
  - intros Hs Hne. rewrite delivered_snoc_other; [by apply Hp|].
    intros i text eager -> ->. apply Hne. exact (He _ _ _ eq_refl).
  - intros Hs. rewrite delivered_snoc_other; [by apply Hd|].
    intros i text eager -> ->.
    destruct Hf as [?|?]; [exact (He _ _ _ eq_refl)|congruence..].
Qed.

Lemma settled_snoc_silent focus evs e t :
  (∀ i text eager, e ≠ Chunk i (Some text) eager) →
  settled focus evs t → settled focus (evs ++ [e]) t.
Proof.
  intros He (Hg & Hp & Hd).
  assert (∀ x, delivered x (evs ++ [e]) = delivered x evs) as Hdel.
  { intros x. apply delivered_snoc_other. intros i text eager ->.
    by destruct (He i text eager). }
  split_and!; [done|..]; rewrite Hdel; done.
Qed.

Lemma Static_nodup_lookup s i j t t' :
  Static s → chapterTasks s !! i = Some t → chapterTasks s !! j = Some t' →
  id t = id t' → i = j.
Proof.
  intros Hs Hi Hj Hid.
  eapply NoDup_lookup; [exact (st_nodup _ Hs)|..].
  - rewrite list_lookup_fmap, Hi. done.
  - rewrite list_lookup_fmap, Hj. simpl. by rewrite Hid.
Qed.

Lemma Static_fmap (g : ChapterTask → ChapterTask) s s' :
  (∀ t, id (g t) = id t) →
  currentStep s' = currentStep s → bookStructure s' = bookStructure s →
  chapterTasks s' = g <$> chapterTasks s →
  Static s → Static s'.
Proof.
  intros Hg Hstep Hbs Ht [H1 H2 H3 H4 H5]. split.
  - congruence.
  - congruence.
  - by rewrite Ht, length_fmap.
  - rewrite Ht, <- list_fmap_compose.
    erewrite list_fmap_ext; [exact H4|]. intros ? t ?. simpl. apply Hg.
  - intros t. rewrite Ht. intros (t' & -> & Hin)%list_elem_of_fmap.
    rewrite Hg. by apply H5.
Qed.
(** The started machine of [handleGenerateChapterContent]. *)
Definition started (m : Machine) (taskId : jsstring) (inputs : UserInputs)
    (bs : JSON) (k : nat) (t : ChapterTask) : Machine :=
  mkMachine
    (rendered m)
    (queue m ++ [setActivelyGeneratingChapterId (Some taskId);
                 setChapterTasksWith (mark_generating taskId) None])
    []
    (inflight m ++ [mkCall taskId (chapterTasks (rendered m))])
    (requests m ++
       [(taskId,
         mkRequest inputs (title t) (description t) (JSON_stringify bs)
           (previouslyGeneratedContent (chapterTasks (rendered m)) k))]).

Lemma handleGenerateChapterContent_cases taskId m :
  handleGenerateChapterContent taskId m = m
  ∨ ∃ inputs bs k t,
      userInputs (rendered m) = Some inputs
      ∧ bookStructure (rendered m) = Some bs
      ∧ truthy bs = true
      ∧ isAutoGeneratingChapters (rendered m) = true
      ∧ apiKeyMissing (rendered m) = false
      ∧ list_find (λ t, id t = taskId) (chapterTasks (rendered m)) = Some (k, t)
      ∧ status t = pending
      ∧ handleGenerateChapterContent taskId m = started m taskId inputs bs k t.
Proof.
  unfold handleGenerateChapterContent.
  destruct (userInputs (rendered m)) as [inputs|]; [|by left].
  destruct (bookStructure (rendered m)) as [bs|]; [|by left].
  destruct (truthy bs) eqn:Hbs; [|by left].
  destruct (isAutoGeneratingChapters (rendered m)) eqn:Hauto; [|by left].
  destruct (apiKeyMissing (rendered m)) eqn:Hkey; [by left|]. simpl.
  destruct (list_find _ _) as [[k t]|] eqn:Hfind; [|by left].
  case_decide as Hst; [|by left].
  right. by exists inputs, bs, k, t.
Qed.

Lemma flatten_nil now s :
  Static s → chapterTasks s = [] → flattenStructureToTasks now structure = [].
Proof.
  intros Hs Hnil. apply length_zero_iff_nil.
  unfold flattenStructureToTasks. rewrite flatten_loop_length.
  rewrite <- (st_length _ Hs), Hnil. done.
Qed.

Lemma reflattenEffect_cases now m :
  Static (rendered m) →
  reflattenEffect now m = m
  ∨ (chapterTasks (rendered m) = []
     ∧ reflattenEffect now m = enqueue [setChapterTasks []] m).
Proof.
  intros Hs. unfold reflattenEffect.
  rewrite (st_structure _ Hs), (st_step _ Hs).
  destruct (truthy structure); [|by left]. simpl.
  case_bool_decide as Hlen; simpl; [|by left].
  apply length_zero_iff_nil in Hlen. right. split; [done|].
  by rewrite (flatten_nil now _ Hs Hlen).
Qed.

Lemma Inv_entered inputs now :
  Inv (entered inputs structure now) [].
Proof.
  split.
  - split; simpl; try done.
    + apply flatten_loop_length.
    + apply flatten_loop_NoDup.
    + intros t. apply flatten_loop_id_nonempty.
  - left. split_and!; simpl; try done.
    apply Forall_forall. intros t Ht.
    apply flatten_loop_pending in Ht.
    split_and!; intros; [congruence|done|congruence].
Qed.

(** The two effects, run on a freshly rendered state where no call is
    suspended. *)
Lemma Inv_effects now s (rq : list (jsstring * Request)) evs :
  Static s →
  truthy_str (activelyGeneratingChapterId s) = false →
  Forall (settled None evs) (chapterTasks s) →
  Inv (autoAdvanceEffect (reflattenEffect now (mkMachine s [] [] [] rq))) evs.
Proof.
  intros Hs Hact Hset.
  set (m1 := mkMachine s [] [] [] rq).
  assert (Quiet (reflattenEffect now m1) evs
          ∧ rendered (reflattenEffect now m1) = s
          ∧ (chapterTasks s ≠ [] → reflattenEffect now m1 = m1)) as (Hq & Hr & Hne).
  { destruct (reflattenEffect_cases now m1 Hs) as [->|[Hnil ->]].
    - split; [|done]. unfold Quiet. simpl. split_and!; try done.
    - split; [|split; [done|by intros ?]]. unfold Quiet. simpl.
      split_and!; try done. repeat constructor; done. }
  set (m2 := reflattenEffect now m1) in *.
  unfold autoAdvanceEffect. rewrite Hr.
  destruct (_ && _ && _ && _); [|by split; [rewrite Hr|left]].
  destruct (list_find _ _) as [[j t1]|] eqn:Hfind.
  - destruct (handleGenerateChapterContent_cases (id t1) m2)
      as [->|(inputs & bs & k & t & _ & _ & _ & _ & _ & Hk & Hst & ->)];
      [by split; [rewrite Hr|left]|].
    rewrite Hr in Hk. apply list_find_Some in Hk as (Hk & Hid & _).
    assert (chapterTasks s ≠ []) as Hnn by (intros E; by rewrite E in Hk).
    subst m2. rewrite (Hne Hnn). unfold started. simpl.
    split; [done|]. right. exists (id t1), k, t. simpl.
    split_and!; try done.
    + repeat constructor; done.
    + by left.
    + eapply Forall_impl; [exact Hset|]. intros t' (Hg & Hp & Hd).
      split_and!; [|by auto|done].
      intros Hgen. by specialize (Hg Hgen).
    + left. eexists. split_and!; try done.
      * rewrite Forall_forall in Hset.
        destruct (Hset t) as (_ & Hp & _); [by eapply list_elem_of_lookup_2|].
        rewrite <- Hid. symmetry. by apply Hp.
      * intros ρ. unfold flush_task. simpl. unfold update_task. simpl.
        rewrite decide_True by done. simpl. auto.
  - destruct Hq as (H1 & H2 & H3 & H4 & H5).
    split; [simpl; by rewrite Hr|]. left. unfold Quiet. simpl.
    split_and!; try done.
    apply Forall_app. split; [done|]. repeat constructor; done.
Qed.
(** Effects read the rendered state and never write it. *)
Lemma rendered_handleGenerateChapterContent taskId m :
  rendered (handleGenerateChapterContent taskId m) = rendered m.
Proof.
  destruct (handleGenerateChapterContent_cases taskId m)
    as [->|(? & ? & ? & ? & _ & _ & _ & _ & _ & _ & _ & ->)]; done.
Qed.

Lemma rendered_reflattenEffect now m :
  rendered (reflattenEffect now m) = rendered m.
Proof.
  unfold reflattenEffect. destruct (bookStructure _); [|done].
  destruct (_ && _); [|done]. by destruct (_ || _).
Qed.

Lemma rendered_autoAdvanceEffect m :
  rendered (autoAdvanceEffect m) = rendered m.
Proof.
  unfold autoAdvanceEffect. destruct (_ && _ && _ && _); [|done].
  destruct (list_find _ _) as [[j t]|]; [|done].
  apply rendered_handleGenerateChapterContent.
Qed.

(** A request is only ever sent for a task that the rendered list shows
    pending. *)
Definition asks_pending (s : AppState) (x : jsstring * Request) : Prop :=
  ∃ k t, chapterTasks s !! k = Some t ∧ id t = x.1 ∧ status t = pending.

Lemma requests_handleGenerateChapterContent taskId m :
  ∃ extra,
    requests (handleGenerateChapterContent taskId m) = requests m ++ extra
    ∧ Forall (asks_pending (rendered m)) extra.
Proof.
  destruct (handleGenerateChapterContent_cases taskId m)
    as [->|(inputs & bs & k & t & _ & _ & _ & _ & _ & Hk & Hst & ->)].
  - exists []. by rewrite app_nil_r.
  - eexists. split; [done|]. constructor; [|constructor].
    apply list_find_Some in Hk as (Hk & Hid & _). by exists k, t.
Qed.

Lemma requests_reflattenEffect now m :
  requests (reflattenEffect now m) = requests m.
Proof.
  unfold reflattenEffect. destruct (bookStructure _); [|done].
  destruct (_ && _); [|done]. by destruct (_ || _).
Qed.

Lemma requests_autoAdvanceEffect m :
  ∃ extra,
    requests (autoAdvanceEffect m) = requests m ++ extra
    ∧ Forall (asks_pending (rendered m)) extra.
Proof.
  unfold autoAdvanceEffect.
  destruct (_ && _ && _ && _);
    [|exists []; by rewrite app_nil_r].
  destruct (list_find _ _) as [[j t]|];
    [|exists []; by rewrite app_nil_r].
  apply requests_handleGenerateChapterContent.
Qed.

(** While a task is active both effects do nothing. *)
Lemma effects_inert now m :
  Static (rendered m) →
  chapterTasks (rendered m) ≠ [] →
  truthy_str (activelyGeneratingChapterId (rendered m)) = true →
  autoAdvanceEffect (reflattenEffect now m) = m.
Proof.
  intros Hs Hne Hact.
  destruct (reflattenEffect_cases now m Hs) as [->|[Hnil _]]; [|done].
  unfold autoAdvanceEffect. rewrite Hact.
  by rewrite andb_false_r.
Qed.
Definition terminal (t : ChapterTask) : Prop :=
  status t = done ∨ status t = error.

(** What a step leaves as it was: the tasks already done or failed, and
    the requests already sent; a new request is for a pending task. *)
Definition step_frame (m m' : Machine) : Prop :=
  (∀ i t, chapterTasks (rendered m) !! i = Some t → terminal t →
          chapterTasks (rendered m') !! i = Some t)
  ∧ ∃ extra, requests m' = requests m ++ extra
             ∧ Forall (asks_pending (rendered m')) extra.

Lemma Static_same s s' :
  currentStep s' = currentStep s → bookStructure s' = bookStructure s →
  chapterTasks s' = chapterTasks s → Static s → Static s'.
Proof.
  intros H1 H2 H3. apply (Static_fmap (λ t, t)); try done.
  by rewrite list_fmap_id.
Qed.

Lemma focus_cases ρ q id0 s i t0 j t :
  Static s → Forall (aims_at id0) q →
  chapterTasks s !! i = Some t0 → id t0 = id0 →
  chapterTasks s !! j = Some t →
  (j = i ∧ t = t0) ∨ (id t ≠ id0 ∧ flush_task ρ q t = t).
Proof.
  intros Hs Hq Hi Hid Hj.
  destruct (decide (id t = id0)) as [E|E].
  - left. assert (j = i) as ->.
    { eapply Static_nodup_lookup; eauto. congruence. }
    split; [done|]. congruence.
  - right. split; [done|]. by eapply flush_task_other.
Qed.

Lemma settled_weaken id0 evs t :
  id t ≠ id0 → settled (Some id0) evs t → settled None evs t.
Proof.
  intros Hne (Hg & Hp & Hd). split_and!; [|intros; apply Hp|]; try done.
  - intros Hgen. specialize (Hg Hgen). congruence.
  - congruence.
Qed.

Lemma effects_frame now s (rq : list (jsstring * Request)) :
  let m1 := mkMachine s [] [] [] rq in
  rendered (autoAdvanceEffect (reflattenEffect now m1)) = s
  ∧ ∃ extra,
      requests (autoAdvanceEffect (reflattenEffect now m1)) = rq ++ extra
      ∧ Forall (asks_pending s) extra.
Proof.
  intros m1. split.
  - by rewrite rendered_autoAdvanceEffect, rendered_reflattenEffect.
  - destruct (requests_autoAdvanceEffect (reflattenEffect now m1))
      as (extra & He & Hf).
    exists extra. rewrite He, requests_reflattenEffect.
    by rewrite rendered_reflattenEffect in Hf.
Qed.

Lemma render_quiet now m evs :
  Static (rendered m) → Quiet m evs →
  Inv (render now m) (evs ++ [Render now])
  ∧ (∀ t, t ∈ chapterTasks (rendered (render now m)) →
          status t = generating → content t = Some (delivered (id t) evs))
  ∧ step_frame m (render now m).
Proof.
  intros Hs (H1 & H2 & H3 & H4 & H5).
  destruct (quiet_queue_frame (generatingChapterContentRef m) _ _ H3)
    as [Ht Ha].
  destruct (driver_queue_frame (generatingChapterContentRef m) _ (rendered m)
              (quiet_driver _ _ H3)) as (F1 & F2 & _ & _).
  fold (next_state m) in Ht, Ha, F1, F2.
  assert (Static (next_state m)) as Hs' by by eapply Static_same.
  unfold render. rewrite H1, H2.
  destruct (effects_frame now (next_state m) (requests m))
    as (Hr & extra & He & Hx).
  split_and!.
  - apply Inv_effects; [done|by rewrite Ha|]. rewrite Ht.
    eapply Forall_impl; [exact H5|]. intros t Hst.
    by apply settled_snoc_silent.
  - intros t. rewrite Hr, Ht. intros Hin Hgen.
    rewrite Forall_forall in H5. destruct (H5 t Hin) as (Hg & _).
    by specialize (Hg Hgen).
  - split.
    + intros i t Hi _. by rewrite Hr, Ht.
    + exists extra. by rewrite Hr.
Qed.
Lemma render_busy now m evs id0 i t0 :
  Static (rendered m) →
  Forall (aims_at id0) (queue m) →
  chapterTasks (rendered m) !! i = Some t0 → id t0 = id0 →
  status t0 = pending ∨ status t0 = generating →
  Forall (settled (Some id0) evs) (chapterTasks (rendered m)) →
  Busy id0 t0 m evs →
  Inv (render now m) (evs ++ [Render now])
  ∧ (∀ t, t ∈ chapterTasks (rendered (render now m)) →
          status t = generating → content t = Some (delivered (id t) evs))
  ∧ step_frame m (render now m).
Proof.
  intros Hs Haim Hi Hid Hst Hset (c & Hin & Hc & Href & Hρ).
  unfold render, next_state.
  set (ρ := generatingChapterContentRef m) in *.
  set (s' := apply_queue ρ (queue m) (rendered m)) in *.
  destruct (Hρ ρ) as (Hact & Hgen & Hcont). fold s' in Hact.
  assert (content (flush_task ρ (queue m) t0) = Some ρ) as Hcont'
    by by destruct Hcont.
  pose proof (tasks_apply_queue ρ _ (rendered m)
                (aims_at_replaces_nothing _ _ _ Haim)) as Ht.
  destruct (driver_queue_frame ρ _ (rendered m) (aims_at_driver _ _ Haim))
    as (F1 & F2 & _ & _).
  fold s' in Ht, F1, F2.
  assert (Static s') as Hs'.
  { eapply (Static_fmap (flush_task ρ (queue m))); eauto using flush_task_id. }
  assert (chapterTasks s' !! i = Some (flush_task ρ (queue m) t0))
    as Hi' by by rewrite Ht, list_lookup_fmap, Hi.
  assert (autoAdvanceEffect
            (reflattenEffect now
               (mkMachine s' [] ρ (inflight m) (requests m)))
          = mkMachine s' [] ρ (inflight m) (requests m)) as ->.
  { apply effects_inert; simpl.
    - done.
    - intros E. by rewrite E in Hi'.
    - rewrite Hact. simpl. destruct id0 eqn:E; [|done].
      exfalso. eapply (st_ids _ Hs t0); [by eapply list_elem_of_lookup_2|].
      congruence. }
  assert (∀ j t', chapterTasks s' !! j = Some t' →
            (j = i ∧ t' = flush_task ρ (queue m) t0)
            ∨ (chapterTasks (rendered m) !! j = Some t' ∧ id t' ≠ id0))
    as Hcases.
  { intros j t'. rewrite Ht, list_lookup_fmap.
    destruct (chapterTasks (rendered m) !! j) as [t|] eqn:Hj; [|done].
    simpl. intros [= <-].
    destruct (focus_cases ρ (queue m) id0 _ i t0 j t Hs Haim Hi Hid Hj)
      as [[-> ->]|[Hne Heq]]; [by left|right]. by rewrite Heq. }
  simpl. split_and!.
  - split; [done|]. right. exists id0, i, (flush_task ρ (queue m) t0).
    simpl. split_and!; try done.
    + by rewrite flush_task_id.
    + by right.
    + apply Forall_lookup. intros j t' Hj.
      destruct (Hcases j t' Hj) as [[-> ->]|[Hj' Hne]].
      * split_and!; intros; [by rewrite flush_task_id, Hid|congruence..].
      * rewrite Forall_lookup in Hset.
        apply settled_snoc_silent; [done|by eapply Hset].
    + left. exists c. simpl. split_and!; try done.
      * by rewrite delivered_snoc_other.
      * intros ρ'. split_and!; auto.
  - intros t' (j & Hj)%list_elem_of_lookup Hg.
    destruct (Hcases j t' Hj) as [[-> ->]|[Hj' Hne]].
    + rewrite flush_task_id, Hid, Hcont'. by rewrite <- Href.
    + rewrite Forall_lookup in Hset. destruct (Hset j t' Hj') as (Hg' & _).
      specialize (Hg' Hg). congruence.
  - split.
    + intros j t Hj Hterm.
      destruct (focus_cases ρ (queue m) id0 _ i t0 j t Hs Haim Hi Hid Hj)
        as [[-> ->]|[Hne Heq]].
      * destruct Hterm, Hst; congruence.
      * simpl. rewrite Ht, list_lookup_fmap, Hj. simpl. by rewrite Heq.
    + exists []. simpl. by rewrite app_nil_r.
Qed.
Lemma render_finished now m evs id0 i t0 :
  Static (rendered m) →
  Forall (aims_at id0) (queue m) →
  chapterTasks (rendered m) !! i = Some t0 → id t0 = id0 →
  status t0 = pending ∨ status t0 = generating →
  Forall (settled (Some id0) evs) (chapterTasks (rendered m)) →
  Finished id0 t0 m evs →
  Inv (render now m) (evs ++ [Render now])
  ∧ (∀ t, t ∈ chapterTasks (rendered (render now m)) →
          status t = generating → content t = Some (delivered (id t) evs))
  ∧ step_frame m (render now m).
Proof.
  intros Hs Haim Hi Hid Hst Hset (Hin & Href & Hρ).
  unfold render, next_state. rewrite Hin, Href.
  set (s' := apply_queue [] (queue m) (rendered m)) in *.
  destruct (Hρ []) as (Hact & Hend). fold s' in Hact.
  pose proof (tasks_apply_queue [] _ (rendered m)
                (aims_at_replaces_nothing _ _ _ Haim)) as Ht.
  destruct (driver_queue_frame [] _ (rendered m) (aims_at_driver _ _ Haim))
    as (F1 & F2 & _ & _).
  fold s' in Ht, F1, F2.
  assert (Static s') as Hs'.
  { eapply (Static_fmap (flush_task [] (queue m))); eauto using flush_task_id. }
  assert (∀ j t', chapterTasks s' !! j = Some t' →
            (j = i ∧ t' = flush_task [] (queue m) t0)
            ∨ (chapterTasks (rendered m) !! j = Some t' ∧ id t' ≠ id0))
    as Hcases.
  { intros j t'. rewrite Ht, list_lookup_fmap.
    destruct (chapterTasks (rendered m) !! j) as [t|] eqn:Hj; [|done].
    simpl. intros [= <-].
    destruct (focus_cases [] (queue m) id0 _ i t0 j t Hs Haim Hi Hid Hj)
      as [[-> ->]|[Hne Heq]]; [by left|right]. by rewrite Heq. }
  assert (Forall (settled None evs) (chapterTasks s')) as Hset'.
  { apply Forall_lookup. intros j t' Hj.
    destruct (Hcases j t' Hj) as [[-> ->]|[Hj' Hne]].
    - destruct Hend as [[Hd Hc]|He].
      + split_and!; intros; [congruence..|by rewrite flush_task_id, Hid].
      + split_and!; intros; congruence.
    - rewrite Forall_lookup in Hset.
      eapply settled_weaken; [done|by eapply Hset]. }
  destruct (effects_frame now s' (requests m)) as (Hr & extra & He & Hx).
  split_and!.
  - apply Inv_effects; [done|by rewrite Hact|].
    eapply Forall_impl; [exact Hset'|]. intros t Hsett.
    by apply settled_snoc_silent.
  - intros t. rewrite Hr. intros Hin' Hgen.
    rewrite Forall_forall in Hset'. destruct (Hset' t Hin') as (Hg & _).
    by specialize (Hg Hgen).
  - split.
    + intros j t Hj Hterm. rewrite Hr.
      destruct (focus_cases [] (queue m) id0 _ i t0 j t Hs Haim Hi Hid Hj)
        as [[-> ->]|[Hne Heq]].
      * destruct Hterm, Hst; congruence.
      * rewrite Ht, list_lookup_fmap, Hj. simpl. by rewrite Heq.
    + exists extra. by rewrite Hr.
Qed.

Lemma render_spec now m evs :
  Inv m evs →
  Inv (render now m) (evs ++ [Render now])
  ∧ (∀ t, t ∈ chapterTasks (rendered (render now m)) →
          status t = generating → content t = Some (delivered (id t) evs))
  ∧ step_frame m (render now m).
Proof.
  intros [Hs [Hq|(id0 & i & t0 & Haim & Hi & Hid & Hst & Hset & [Hb|Hf])]].
  - by apply render_quiet.
  - by eapply render_busy.
  - by eapply render_finished.
Qed.
Lemma step_frame_same m m' :
  rendered m' = rendered m → requests m' = requests m → step_frame m m'.
Proof.
  intros Hr Hq. split.
  - intros i t Hi _. by rewrite Hr.
  - exists []. by rewrite Hq, app_nil_r.
Qed.

Lemma find_call_single taskId m c i c' :
  inflight m = [c] → find_call taskId m = Some (i, c') →
  i = 0%nat ∧ c' = c ∧ call_taskId c = taskId.
Proof.
  unfold find_call. intros -> (Hi & Hid & _)%list_find_Some.
  destruct i as [|i]; simpl in Hi; [|by rewrite lookup_nil in Hi].
  by injection Hi as <-.
Qed.

Lemma find_call_none taskId m :
  inflight m = [] → find_call taskId m = None.
Proof. unfold find_call. by intros ->. Qed.

Lemma focus_unique s i t0 t :
  Static s → chapterTasks s !! i = Some t0 → t ∈ chapterTasks s →
  id t = id t0 → t = t0.
Proof.
  intros Hs Hi (j & Hj)%list_elem_of_lookup Hid.
  assert (j = i) as -> by by eapply Static_nodup_lookup.
  congruence.
Qed.

Lemma Inv_click m evs :
  Inv m evs →
  Inv (startAutomaticChapterGeneration m) (evs ++ [ClickStart]).
Proof.
  intros [Hs [(H1 & H2 & H3 & H4 & H5)
             |(id0 & i & t0 & Haim & Hi & Hid & Hst & Hset & Hph)]];
    (split; [done|]).
  - left. unfold Quiet. simpl. split_and!; try done.
    + apply Forall_app. split; [done|]. repeat constructor; done.
    + eapply Forall_impl; [exact H5|]. intros t ?.
      by apply settled_snoc_silent.
  - right. exists id0, i, t0. simpl. split_and!; try done.
    + apply Forall_app. split; [done|]. repeat constructor; done.
    + eapply Forall_impl; [exact Hset|]. intros t ?.
      by apply settled_snoc_silent.
    + destruct Hph as [(c & Hin & Hc & Href & Hρ)|(Hin & Href & Hρ)].
      * left. exists c. simpl. split_and!; try done.
        { by rewrite delivered_snoc_other. }
        intros ρ. rewrite apply_queue_app, flush_task_app. simpl.
        apply Hρ.
      * right. split_and!; simpl; try done.
        intros ρ. rewrite apply_queue_app, flush_task_app. simpl.
        rewrite delivered_snoc_other by done. apply Hρ.
Qed.

Lemma dispatch_cases eager f m :
  ∃ a, dispatch eager f m = enqueue [setChapterTasksWith f a] m
       ∧ (a = None ∨ (a = Some (generatingChapterContentRef m)
                      ∧ queue m = [])).
Proof.
  unfold dispatch. destruct eager, (queue m) eqn:E; eauto.
Qed.

Lemma dispatch_frame eager f m :
  rendered (dispatch eager f m) = rendered m
  ∧ requests (dispatch eager f m) = requests m.
Proof. by destruct (dispatch_cases eager f m) as (a & -> & _). Qed.

Lemma Inv_chunk m evs taskId text eager :
  Inv m evs → find_call taskId m ≠ None →
  Inv (on_chunk taskId text eager m) (evs ++ [Chunk taskId text eager]).
Proof.
  intros [Hs [(H1 & _)
             |(id0 & i & t0 & Haim & Hi & Hid & Hst & Hset & Hph)]] Hfind.
  { by rewrite find_call_none in Hfind. }
  destruct Hph as [(c & Hin & Hc & Href & Hρ)|(Hin & _)];
    [|by rewrite find_call_none in Hfind].
  destruct (find_call taskId m) as [[k c']|] eqn:Hk; [|done].
  destruct (find_call_single _ _ _ _ _ Hin Hk) as (_ & _ & Hcid).
  assert (taskId = id0) as -> by congruence.
  destruct text as [tx|]; simpl.
  - (* a string: the buffer grows and an update is enqueued *)
    assert (delivered id0 (evs ++ [Chunk id0 (Some tx) eager])
            = generatingChapterContentRef m ++ tx) as Hdel.
    { rewrite delivered_app. simpl. rewrite decide_True by done.
      by rewrite app_nil_r, Href. }
    assert (Forall (settled (Some id0) (evs ++ [Chunk id0 (Some tx) eager]))
              (chapterTasks (rendered m))) as Hset'.
    { rewrite Forall_forall in Hset |- *. intros t Ht.
      apply settled_snoc_other; [by intros ? ? ? [= -> _ _]| |by apply Hset].
      intros [= Hidt]. rewrite (focus_unique _ i t0 t Hs Hi Ht); [done|].
      congruence. }
    destruct (dispatch_cases eager (show_buffer id0)
                (set_ref (generatingChapterContentRef m ++ tx) m))
      as (a & -> & Ha).
    split; [done|]. right. exists id0, i, t0. simpl.
    split_and!; try done.
    { apply Forall_app. split; [done|]. repeat constructor; done. }
    left. exists c. simpl. split_and!; try done. intros ρ.
    destruct (Hρ ρ) as (Hact & Hgen & Hcont).
    rewrite apply_queue_app, flush_task_app.
    split; [by destruct a|].
    destruct Ha as [->|[-> _]]; simpl; unfold update_task; simpl;
      (rewrite decide_True by by rewrite flush_task_id); simpl; auto.
  - (* not a string: nothing happens *)
    split; [done|]. right. exists id0, i, t0. split_and!; try done.
    + eapply Forall_impl; [exact Hset|]. intros t ?.
      by apply settled_snoc_silent.
    + left. exists c. split_and!; try done.
      by rewrite delivered_snoc_other.
Qed.
Lemma Inv_end m evs taskId k c :
  Inv m evs → find_call taskId m = Some (k, c) →
  Inv (remove_call k (on_end taskId m)) (evs ++ [StreamEnd taskId]).
Proof.
  intros [Hs [(H1 & _)
             |(id0 & i & t0 & Haim & Hi & Hid & Hst & Hset & Hph)]] Hk.
  { by rewrite find_call_none in Hk. }
  destruct Hph as [(c0 & Hin & Hc & Href & Hρ)|(Hin & _)];
    [|by rewrite find_call_none in Hk].
  destruct (find_call_single _ _ _ _ _ Hin Hk) as (-> & -> & Hcid).
  assert (taskId = id0) as -> by congruence.
  split; [done|]. right. exists id0, i, t0. simpl.
  split_and!; try done.
  { rewrite <- app_assoc. apply Forall_app. split; [done|].
    repeat constructor; done. }
  { eapply Forall_impl; [exact Hset|]. intros t ?.
    by apply settled_snoc_silent. }
  right. split_and!; simpl; try done.
  { by rewrite Hin. }
  intros ρ. destruct (Hρ ρ) as (Hact & Hgen & Hcont).
  rewrite !apply_queue_app, !flush_task_app. simpl.
  split; [done|]. left. unfold update_task. simpl.
  rewrite decide_True by by rewrite flush_task_id. simpl.
  split; [done|].
  by rewrite or_else_nil, Href, delivered_snoc_other.
Qed.

Lemma Inv_fail m evs taskId err eager k c :
  Inv m evs → find_call taskId m = Some (k, c) →
  Inv (remove_call k (on_fail c err eager m))
      (evs ++ [StreamFail taskId err eager]).
Proof.
  intros [Hs [(H1 & _)
             |(id0 & i & t0 & Haim & Hi & Hid & Hst & Hset & Hph)]] Hk.
  { by rewrite find_call_none in Hk. }
  destruct Hph as [(c0 & Hin & Hc & Href & Hρ)|(Hin & _)];
    [|by rewrite find_call_none in Hk].
  destruct (find_call_single _ _ _ _ _ Hin Hk) as (-> & -> & Hcid).
  assert (taskId = id0) as -> by congruence.
  unfold on_fail. rewrite Hc.
  destruct (dispatch_cases eager (mark_error id0 (message_of err)) m)
    as (a & -> & Ha).
  split; [done|]. right. exists id0, i, t0. simpl.
  split_and!; try done.
  { rewrite <- app_assoc. apply Forall_app. split; [done|].
    repeat constructor; done. }
  { eapply Forall_impl; [exact Hset|]. intros t ?.
    by apply settled_snoc_silent. }
  right. split_and!; simpl; try done.
  { by rewrite Hin. }
  intros ρ. destruct (Hρ ρ) as (Hact & Hgen & Hcont).
  rewrite !apply_queue_app, !flush_task_app.
  split; [done|]. right.
  destruct a as [r|]; simpl; unfold update_task; simpl;
    (rewrite decide_True by by rewrite flush_task_id); done.
Qed.

(** Every step keeps the invariant, the finished tasks and the requests
    already sent. *)
Lemma Inv_step m evs e m' :
  Inv m evs → step m e = Some m' →
  Inv m' (evs ++ [e]) ∧ step_frame m m'.
Proof.
  intros HI. destruct e as [now| |taskId text eager|taskId|taskId err eager];
    simpl.
  - intros [= <-]. destruct (render_spec now m evs HI) as (? & _ & ?). done.
  - intros [= <-]. split; [by apply Inv_click|by apply step_frame_same].
  - destruct (find_call taskId m) as [[k c]|] eqn:Hk; [|done].
    intros [= <-]. split.
    + apply Inv_chunk; [done|]. by rewrite Hk.
    + destruct text as [tx|]; [|by apply step_frame_same].
      simpl.
      destruct (dispatch_frame eager (show_buffer taskId)
                  (set_ref (generatingChapterContentRef m ++ tx) m)).
      by apply step_frame_same.
  - destruct (find_call taskId m) as [[k c]|] eqn:Hk; [|done].
    intros [= <-]. split; [by eapply Inv_end|by apply step_frame_same].
  - destruct (find_call taskId m) as [[k c]|] eqn:Hk; [|done].
    intros [= <-]. split; [by eapply Inv_fail|].
    destruct (dispatch_frame eager
                (mark_error (call_taskId c) (message_of err)) m).
    by apply step_frame_same.
Qed.

Lemma Inv_run m evs0 evs m' :
  Inv m evs0 → run m evs = Some m' → Inv m' (evs0 ++ evs).
Proof.
  revert m evs0. induction evs as [|e evs IH]; intros m evs0 HI; simpl.
  - intros [= <-]. by rewrite app_nil_r.
  - destruct (step m e) as [m1|] eqn:Hstep; [|done]. intros Hrun.
    destruct (Inv_step _ _ _ _ HI Hstep) as [HI1 _].
    replace (evs0 ++ e :: evs) with ((evs0 ++ [e]) ++ evs)
      by by rewrite <- app_assoc.
    by eapply IH.
Qed.

End DriverInvariant.

(** ** The driver: one task at a time, finished tasks stay finished *)

Lemma run_app m evs evs' :
  run m (evs ++ evs') = run m evs ≫= λ m1, run m1 evs'.
Proof.
  revert m. induction evs as [|e evs IH]; intros m; simpl; [done|].
  destruct (step m e); simpl; [apply IH|done].
Qed.



(** A second book while a call of the first is still suspended.  The
    render that starts the first chapter leaves the back button enabled
    until the next render; the user presses it then, goes on to the
    inputs (which resets the state but cancels nothing), submits them
    again, accepts the new outline and starts the generation.  The calls
    of both books are now suspended, and they share the content ref. *)
Definition later_clock : nat → N := λ _, 1700000009999.

Definition second_book : list Action :=
  [Driver ClickStart; Driver (Render sample_clock);
   GoBackToOutline; Driver (Render sample_clock);
   GoBackToInputs; Driver (Render sample_clock);
   Submit sample_inputs; Driver (Render sample_clock);
   Settle [Some (JSON_stringify sample_outline)] (Returns ())
          (Returns (lit "A title"));
   Driver (Render later_clock); Driver (Render later_clock);
   Proceed later_clock; Driver (Render later_clock);
   Driver ClickStart; Driver (Render later_clock);
   Driver (Render later_clock)].

Example second_book_state :
  (λ m, (status <$> chapterTasks (rendered m),
         activelyGeneratingChapterId (rendered m),
         call_taskId <$> inflight m))
    <$> session (entered sample_inputs sample_outline sample_clock) second_book
  = Some ([generating; pending], Some (lit "Ch1-1700000009999-0"),
          [lit "Ch1-1700000000000-0"; lit "Ch1-1700000009999-0"]).
Proof. vm_compute. reflexivity. Qed.




(** ** The accumulator: what a finished stream commits *)






(** ** A failing stream *)

(** The render after a failure whose update React runs at that render:
    the task is failed, its content is empty whatever had been delivered,
    and auto-run is off.  The [finally] block has emptied the reference
    before the arrow function of line 166 reads it. *)
Lemma fail_then_render structure now m evs taskId err k c :
  Inv structure m evs → find_call taskId m = Some (k, c) →
  let m' := render now (remove_call k (on_fail c err false m)) in
  isAutoGeneratingChapters (rendered m') = false
  ∧ ∃ i t,
      chapterTasks (rendered m') !! i = Some t
      ∧ id t = taskId ∧ status t = error ∧ content t = Some []
      ∧ errorMessage t = Some (message_of err).
Proof.
  intros [Hs [(H1 & _)
             |(id0 & i & t0 & Haim & Hi & Hid & Hst & Hset & Hph)]] Hk.
  { by rewrite find_call_none in Hk. }
  destruct Hph as [(c0 & Hin & Hc & Href & Hρ)|(Hin & _)];
    [|by rewrite find_call_none in Hk].
  destruct (find_call_single _ _ _ _ _ Hin Hk) as (-> & -> & Hcid).
  assert (taskId = id0) as -> by congruence.
  unfold render. rewrite rendered_autoAdvanceEffect, rendered_reflattenEffect.
  unfold on_fail, dispatch. simpl. unfold next_state. simpl.
  match goal with
  | |- context [apply_queue [] ?q _] => set (q' := q)
  end.
  assert (Forall (aims_at id0) q') as Haim'.
  { unfold q'. rewrite <- app_assoc. apply Forall_app. split; [done|].
    rewrite Hc. repeat constructor; done. }
  split.
  - unfold q'. by rewrite !apply_queue_app.
  - exists i, (flush_task [] q' t0).
    rewrite (tasks_apply_queue [] q' (rendered m)
               (aims_at_replaces_nothing _ _ _ Haim')).
    rewrite list_lookup_fmap, Hi. simpl. split; [done|].
    split; [by rewrite flush_task_id|].
    unfold q'. rewrite !flush_task_app. simpl. unfold update_task. simpl.
    rewrite decide_True by by rewrite flush_task_id, Hc. done.
Qed.

(** C1 (the code departs from the claim).  The first task receives the
    fragment "Hello " and then its stream fails.  The render that follows
    shows the task failed with empty content, although the trim of what
    was delivered is "Hello"; the second task is still pending and
    auto-run is off.  This is so when the failure comes before React has
    rendered the fragment, whether or not React would run an update at
    the call (the update of the fragment is waiting, so it cannot), and
    when it comes after that render and React runs the update of line 166
    at the next one. *)
Theorem C1_failure_drops_partial_content :
  let taskId := lit "Ch1-1700000000000-0" in
  let shown (evs : list Event) :=
    (λ m, ((λ t, (status t, content t)) <$> chapterTasks (rendered m),
           isAutoGeneratingChapters (rendered m)))
      <$> run (entered sample_inputs sample_outline sample_clock) evs in
  let failure eager := StreamFail taskId (ThrownError (lit "quota")) eager in
  trim (delivered taskId [Chunk taskId (Some (lit "Hello ")) false])
  = lit "Hello"
  ∧ (∀ eager eager',
       shown [ClickStart; Render sample_clock;
              Chunk taskId (Some (lit "Hello ")) eager;
              failure eager'; Render sample_clock]
       = Some ([(error, Some []); (pending, Some [])], false))
  ∧ shown [ClickStart; Render sample_clock;
           Chunk taskId (Some (lit "Hello ")) false; Render sample_clock;
           failure false; Render sample_clock]
    = Some ([(error, Some []); (pending, Some [])], false).
Proof.
  intros taskId shown failure. split; [by vm_compute|]. split.
  - intros [|] [|]; vm_compute; reflexivity.
  - vm_compute. reflexivity.
Qed.

(** ** The guard of the generation routine *)

(** C10.  Called with an id that no task has, or whose task is not
    pending, or while auto-run is off, [handleGenerateChapterContent]
    changes nothing at all: no update is enqueued, so every task keeps its
    status, content and error message. *)
Theorem C10_guarded_call_is_noop (taskId : jsstring) (m : Machine) :
  (∀ t, t ∈ chapterTasks (rendered m) → id t ≠ taskId)
  ∨ (∃ i t, list_find (λ t, id t = taskId) (chapterTasks (rendered m))
            = Some (i, t) ∧ status t ≠ pending)
  ∨ isAutoGeneratingChapters (rendered m) = false →
  handleGenerateChapterContent taskId m = m.
Proof.
  intros H.
  destruct (handleGenerateChapterContent_cases taskId m)
    as [->|(inputs & bs & k & t & _ & _ & _ & Hauto & _ & Hk & Hst & _)];
    [done|].
  destruct H as [H|[(i & t' & Hf & Hne)|H]].
  - apply list_find_Some in Hk as (Hk & Hid & _).
    destruct (H t); [by eapply list_elem_of_lookup_2|done].
  - congruence.
  - congruence.
Qed.

Lemma C10_witness :
  let m := entered sample_inputs sample_outline sample_clock in
  ((∀ t, t ∈ chapterTasks (rendered m) → id t ≠ lit "no-such-task")
   ∨ (∃ i t, list_find (λ t, id t = lit "no-such-task")
               (chapterTasks (rendered m)) = Some (i, t)
             ∧ status t ≠ pending)
   ∨ isAutoGeneratingChapters (rendered m) = false)
  ∧ handleGenerateChapterContent (lit "no-such-task") m = m.
Proof.
  assert (∀ A B : Prop, A → (A → B) → A ∧ B) as cut by tauto.
  apply cut.
  - right. right. reflexivity.
  - apply C10_guarded_call_is_noop.
Defined.

(** ** The request of a started task *)

(** The preceding content as the claim words it: the contents of the
    earlier done tasks, one after the other. *)
Definition preceding_content_as_claimed (chapterTasks : list ChapterTask)
    (taskIndex : nat) : jsstring :=
  join ((λ t, default [] (content t))
          <$> filter (λ t, status t = done) (take taskIndex chapterTasks)).

(** What one earlier task adds to the preceding content of the code. *)
Definition contribution (t : ChapterTask) : jsstring :=
  if decide (status t = done ∧ truthy_str (content t))
  then previous_chapter_block t else [].

Lemma join_blocks (l : list ChapterTask) :
  join (previous_chapter_block
          <$> filter (λ t, status t = done ∧ truthy_str (content t)) l)
  = join (contribution <$> l).
Proof.
  unfold join. induction l as [|t l IH]; [done|].
  rewrite filter_cons, fmap_cons. unfold contribution at 1.
  destruct (decide _); rewrite ?fmap_cons, ?concat_cons, IH; done.
Qed.

(** The request sent for the second chapter of the sample run wraps the
    first chapter in a header and a trailer. *)
Lemma C6_counterexample :
  ∃ m r,
    run (entered sample_inputs sample_outline sample_clock) (take 7 sample_run)
    = Some m
    ∧ requests m !! 1%nat = Some (lit "Ch2-1700000000000-1", r)
    ∧ preceding_content_as_claimed (chapterTasks (rendered m)) 1
      = lit "Hello world"
    ∧ req_previouslyGeneratedChaptersContent r
      = lit "Chapter: Ch1" ++ [10] ++ lit "Hello world" ++ [10; 10]
        ++ lit "---END OF PREVIOUS CHAPTER---" ++ [10; 10]
    ∧ req_previouslyGeneratedChaptersContent r
      ≠ preceding_content_as_claimed (chapterTasks (rendered m)) 1.
Proof. eexists _, _. by_evaluation. Qed.

(** C6 (amended).  When [handleGenerateChapterContent] starts the task at
    index k, the preceding content of its request is the concatenation,
    in list order, of what each task before index k contributes: a task
    that is done with non-empty content contributes the block
    "Chapter: <title>", a line feed, its content and the end-of-chapter
    trailer; any other task before k contributes nothing; the tasks from
    index k on do not appear. *)
Theorem C6_preceding_content_of_request
    (taskId : jsstring) (m : Machine) (inputs : UserInputs) (bs : JSON)
    (k : nat) (t : ChapterTask) :
  userInputs (rendered m) = Some inputs →
  bookStructure (rendered m) = Some bs → truthy bs = true →
  isAutoGeneratingChapters (rendered m) = true →
  apiKeyMissing (rendered m) = false →
  list_find (λ t, id t = taskId) (chapterTasks (rendered m)) = Some (k, t) →
  status t = pending →
  ∃ r,
    requests (handleGenerateChapterContent taskId m)
    = requests m ++ [(taskId, r)]
    ∧ req_chapterTitle r = title t
    ∧ req_chapterOutlineJson r = description t
    ∧ req_fullBookStructureJson r = JSON_stringify bs
    ∧ req_previouslyGeneratedChaptersContent r
      = join (contribution <$> take k (chapterTasks (rendered m))).
Proof.
  intros Hin Hbs Htr Hauto Hkey Hk Hst.
  unfold handleGenerateChapterContent.
  rewrite Hin, Hbs, Htr, Hauto, Hkey, Hk. simpl.
  rewrite decide_True by done. simpl. eexists. split; [done|].
  split_and!; try done. apply join_blocks.
Qed.

(** The sample run at the moment the second chapter is started. *)
Definition sample_second_task : ChapterTask :=
  mkTask (lit "Ch2-1700000000000-1") (lit "Ch2")
    (chapterOutlineJson (JObject [(lit "A", JString (lit "a"));
                                  (lit "B", JString (lit "b"))]))
    [lit "Ch2"] pending (Some []) None.

Definition sample_midway : Machine :=
  mkMachine
    (mkApp GENERATING_CHAPTERS (Some sample_inputs) None (Some sample_outline)
       [mkTask (lit "Ch1-1700000000000-0") (lit "Ch1") (lit "desc1")
          [lit "Ch1"] done (Some (lit "Hello world")) None;
        sample_second_task]
       None false true None false)
    [] [] [] [].

Lemma C6_witness :
  list_find (λ t, id t = lit "Ch2-1700000000000-1")
    (chapterTasks (rendered sample_midway)) = Some (1%nat, sample_second_task)
  ∧ ∃ r,
      requests (handleGenerateChapterContent (lit "Ch2-1700000000000-1")
                  sample_midway)
      = requests sample_midway ++ [(lit "Ch2-1700000000000-1", r)]
      ∧ req_chapterTitle r = title sample_second_task
      ∧ req_chapterOutlineJson r = description sample_second_task
      ∧ req_fullBookStructureJson r = JSON_stringify sample_outline
      ∧ req_previouslyGeneratedChaptersContent r
        = join (contribution
                  <$> take 1 (chapterTasks (rendered sample_midway))).
Proof.
  split; [vm_compute; reflexivity|].
  apply (C6_preceding_content_of_request (lit "Ch2-1700000000000-1")
           sample_midway sample_inputs sample_outline 1 sample_second_task);
    vm_compute; reflexivity.
Defined.

(** ** The auto-advance effect *)

Lemma fmap_update_one (g : ChapterTask → ChapterTask) (taskId : jsstring)
    (l : list ChapterTask) (k : nat) (t : ChapterTask) :
  NoDup (id <$> l) → l !! k = Some t → id t = taskId →
  (λ t', if decide (id t' = taskId) then g t' else t') <$> l = <[k := g t]> l.
Proof.
  intros Hnd Hk Hid. apply list_eq. intros j.
  rewrite list_lookup_fmap.
  destruct (decide (j = k)) as [->|Hne].
  - rewrite list_lookup_insert_eq by by eapply lookup_lt_Some.
    rewrite Hk. simpl. by rewrite decide_True.
  - rewrite list_lookup_insert_ne by done.
    destruct (l !! j) as [t'|] eqn:Hj; [|done]. simpl.
    rewrite decide_False; [done|]. intros Heq. apply Hne.
    eapply NoDup_lookup; [exact Hnd|..].
    + by rewrite list_lookup_fmap, Hj.
    + rewrite list_lookup_fmap, Hk. simpl. congruence.
Qed.

(** Auto-run is on and no task is active, yet the effect neither selects
    the pending task nor turns auto-run off: the user went back to the
    outline while the first chapter was being written, so the component
    is not in the chapter phase.  Every further render leaves this state
    as it is. *)
Lemma C4_counterexample :
  ∃ m1 m,
    run (entered sample_inputs sample_outline sample_clock)
        [ClickStart; Render sample_clock] = Some m1
    ∧ run (goBackToOutline m1)
          [Render sample_clock; StreamEnd (lit "Ch1-1700000000000-0");
           Render sample_clock] = Some m
    ∧ isAutoGeneratingChapters (rendered m) = true
    ∧ activelyGeneratingChapterId (rendered m) = None
    ∧ status <$> chapterTasks (rendered m) = [done; pending]
    ∧ currentStep (rendered m) = OUTLINE_REVIEW
    ∧ autoAdvanceEffect m = m
    ∧ ∀ now, render now m = m.
Proof. eexists _, _. by_evaluation. Qed.

(** C4 (amended).  In the chapter phase, with the API key present,
    auto-run on and no active task, the effect looks for the first
    pending task of the rendered list.  If there is one, no task before
    it is pending and, the inputs and the outline being set and the ids
    distinct, the effect starts it: the request goes out, the call is
    suspended, and the next render shows that task generating and active,
    the other tasks as they were.  If there is none, the effect only
    enqueues the update that turns auto-run off: the tasks of the next
    render are those it would have shown anyway.  Outside the chapter
    phase the effect does nothing, whatever the auto-run flag, the
    active id and the tasks are. *)
Theorem C4_auto_advance_selects_first_pending (m : Machine) :
  (currentStep (rendered m) = GENERATING_CHAPTERS →
   apiKeyMissing (rendered m) = false →
   isAutoGeneratingChapters (rendered m) = true →
   truthy_str (activelyGeneratingChapterId (rendered m)) = false →
   match list_find (λ t, status t = pending) (chapterTasks (rendered m)) with
   | Some (k, t) =>
       (∀ j t', (j < k)%nat → chapterTasks (rendered m) !! j = Some t' →
                status t' ≠ pending)
       ∧ ∀ inputs bs,
           userInputs (rendered m) = Some inputs →
           bookStructure (rendered m) = Some bs → truthy bs = true →
           NoDup (id <$> chapterTasks (rendered m)) →
           autoAdvanceEffect m = started m (id t) inputs bs k t
           ∧ (queue m = [] →
              chapterTasks (next_state (autoAdvanceEffect m))
              = <[k := rewrite_task (mark_generating (id t)) [] t]>
                  (chapterTasks (rendered m))
              ∧ activelyGeneratingChapterId (next_state (autoAdvanceEffect m))
                = Some (id t))
   | None =>
       autoAdvanceEffect m = enqueue [setIsAutoGeneratingChapters false] m
       ∧ chapterTasks (next_state (autoAdvanceEffect m))
         = chapterTasks (next_state m)
       ∧ isAutoGeneratingChapters (next_state (autoAdvanceEffect m)) = false
   end)
  ∧ (currentStep (rendered m) ≠ GENERATING_CHAPTERS →
     autoAdvanceEffect m = m
     ∧ requests (autoAdvanceEffect m) = requests m
     ∧ chapterTasks (next_state (autoAdvanceEffect m))
       = chapterTasks (next_state m)
     ∧ isAutoGeneratingChapters (next_state (autoAdvanceEffect m))
       = isAutoGeneratingChapters (next_state m)).
Proof.
  split.
  2: { intros Hstep.
       assert (autoAdvanceEffect m = m) as ->; [|done].
       unfold autoAdvanceEffect. by rewrite bool_decide_false. }
  intros Hstep Hkey Hauto Hact.
  unfold autoAdvanceEffect. rewrite Hstep, Hkey, Hauto, Hact. simpl.
  destruct (list_find _ _) as [[k t]|] eqn:Hfind.
  - apply list_find_Some in Hfind as (Hk & Hst & Hfirst). split.
    { intros j t' Hj Hjt. by eapply Hfirst. }
    intros inputs bs Hin Hbs Htr Hnd.
    assert (list_find (λ t', id t' = id t) (chapterTasks (rendered m))
            = Some (k, t)) as Hfid.
    { apply list_find_Some. split_and!; [done..|].
      intros j t' Hj Hlt Heq.
      assert (j = k); [|lia].
      eapply NoDup_lookup; [exact Hnd|..].
      - by rewrite list_lookup_fmap, Hj.
      - rewrite list_lookup_fmap, Hk. simpl. congruence. }
    assert (handleGenerateChapterContent (id t) m
            = started m (id t) inputs bs k t) as ->.
    { unfold handleGenerateChapterContent.
      rewrite Hin, Hbs, Htr, Hauto, Hkey, Hfid. simpl.
      by rewrite decide_True. }
    split; [done|]. intros Hq. unfold started, next_state. simpl.
    rewrite Hq. simpl. split; [|done].
    unfold apply_updater, update_task. simpl.
    by apply (fmap_update_one (rewrite_task (mark_generating (id t)) [])).
  - split; [done|]. unfold next_state. simpl.
    by rewrite apply_queue_app.
Qed.

Lemma C4_witness :
  (list_find (λ t, status t = pending) (chapterTasks (rendered sample_midway))
   = Some (1%nat, sample_second_task)
   ∧ autoAdvanceEffect sample_midway
     = started sample_midway (lit "Ch2-1700000000000-1") sample_inputs
         sample_outline 1 sample_second_task
   ∧ status <$> chapterTasks (next_state (autoAdvanceEffect sample_midway))
     = [done; generating])
  ∧ let m := render sample_clock (goBackToOutline sample_midway) in
    currentStep (rendered m) = OUTLINE_REVIEW
    ∧ isAutoGeneratingChapters (rendered m) = true
    ∧ activelyGeneratingChapterId (rendered m) = None
    ∧ status <$> chapterTasks (rendered m) = [done; pending]
    ∧ autoAdvanceEffect m = m.
Proof.
  split.
  - pose proof (proj1 (C4_auto_advance_selects_first_pending sample_midway)
                  eq_refl eq_refl eq_refl eq_refl) as H.
    assert (list_find (λ t, status t = pending)
              (chapterTasks (rendered sample_midway))
            = Some (1%nat, sample_second_task)) as Hf
      by (vm_compute; reflexivity).
    rewrite Hf in H. destruct H as [_ H].
    destruct (H sample_inputs sample_outline eq_refl eq_refl eq_refl)
      as [Hs Hn].
    { apply (bool_decide_unpack _). vm_compute. exact I. }
    split; [exact Hf|]. split; [exact Hs|].
    destruct (Hn eq_refl) as [-> _]. vm_compute. reflexivity.
  - intros m. split; [reflexivity|]. split; [reflexivity|].
    split; [reflexivity|]. split; [reflexivity|].
    apply (proj2 (C4_auto_advance_selects_first_pending m)).
    vm_compute. discriminate.
Defined.

(** ** Entering the chapter phase *)

(** The sample run has finished one chapter and failed the other.  Going
    back to the outline and forward again gives two new pending tasks:
    the finished chapter is gone. *)
Lemma C7_counterexample :
  ∃ m,
    run (entered sample_inputs sample_outline sample_clock) sample_run = Some m
    ∧ (λ t, (status t, content t)) <$> chapterTasks (rendered m)
      = [(done, Some (lit "Hello world")); (error, Some [])]
    ∧ let back := render later_clock (goBackToOutline m) in
      let forth :=
        render later_clock (handleProceedToChapterGeneration later_clock back) in
      chapterTasks (rendered back) = chapterTasks (rendered m)
      ∧ currentStep (rendered forth) = GENERATING_CHAPTERS
      ∧ (λ t, (id t, status t, content t)) <$> chapterTasks (rendered forth)
        = [(lit "Ch1-1700000009999-0", pending, Some []);
           (lit "Ch2-1700000009999-1", pending, Some [])].
Proof. eexists. by_evaluation. Qed.

Lemma forallb_pending_false (l : list ChapterTask) (t : ChapterTask) :
  t ∈ l → status t ≠ pending →
  forallb (λ t, bool_decide (status t = pending)) l = false.
Proof.
  intros Hin Hne. induction Hin as [t l|t t' l Hin IH]; simpl.
  - by rewrite bool_decide_eq_false_2.
  - by rewrite IH, andb_false_r.
Qed.

(** C7 (amended).  The forward transition replaces the task list by a
    freshly flattened one whenever an outline is set, whatever the list
    held.  Going back to the outline keeps a list in which some task is
    not pending, at the transition and at the render that follows.  The
    re-flatten effect leaves alone a list that is not empty unless the
    component is in outline review and every task is pending. *)
Theorem C7_forward_transition_always_reflattens :
  (∀ m now now' bs,
     bookStructure (rendered m) = Some bs → truthy bs = true →
     let m' := render now' (handleProceedToChapterGeneration now m) in
     chapterTasks (rendered m') = flattenStructureToTasks now bs
     ∧ currentStep (rendered m') = GENERATING_CHAPTERS)
  ∧ (∀ m now t,
       t ∈ chapterTasks (next_state m) → status t ≠ pending →
       let m' := render now (goBackToOutline m) in
       chapterTasks (rendered m') = chapterTasks (next_state m)
       ∧ currentStep (rendered m') = OUTLINE_REVIEW
       ∧ queue m' = [])
  ∧ (∀ m now,
       chapterTasks (rendered m) ≠ [] →
       currentStep (rendered m) ≠ OUTLINE_REVIEW
       ∨ (∃ t, t ∈ chapterTasks (rendered m) ∧ status t ≠ pending) →
       reflattenEffect now m = m).
Proof.
  split_and!.
  - intros m now now' bs Hbs Htr. simpl.
    unfold render. rewrite rendered_autoAdvanceEffect, rendered_reflattenEffect.
    unfold handleProceedToChapterGeneration. rewrite Hbs, Htr.
    unfold next_state. simpl. by rewrite apply_queue_app.
  - intros m now t Hin Hne. simpl.
    unfold render, goBackToOutline, next_state. simpl.
    rewrite apply_queue_app. simpl. fold (next_state m).
    set (s := next_state m) in *.
    unfold reflattenEffect. simpl.
    assert (bool_decide (length (chapterTasks s) = 0%nat) = false) as Hlen.
    { apply bool_decide_eq_false_2. intros E%length_zero_iff_nil.
      rewrite E in Hin. by apply elem_of_nil in Hin. }
    rewrite Hlen, (forallb_pending_false _ _ Hin Hne).
    destruct (bookStructure s) as [bs|]; [destruct (truthy bs)|]; done.
  - intros m now Hne Hcase. unfold reflattenEffect.
    destruct (bookStructure (rendered m)) as [bs|]; [|done].
    destruct (_ && _); [|done].
    rewrite bool_decide_eq_false_2
      by (by intros E%length_zero_iff_nil).
    destruct Hcase as [Hstep|(t & Hin & Hst)].
    + by rewrite (bool_decide_eq_false_2 _ Hstep).
    + by rewrite (forallb_pending_false _ _ Hin Hst), andb_false_r.
Qed.

Lemma C7_witness :
  bookStructure (rendered sample_midway) = Some sample_outline
  ∧ truthy sample_outline = true
  ∧ chapterTasks
      (rendered (render later_clock
                   (handleProceedToChapterGeneration later_clock sample_midway)))
    = flattenStructureToTasks later_clock sample_outline.
Proof.
  destruct C7_forward_transition_always_reflattens as (H & _ & _).
  split; [reflexivity|]. split; [reflexivity|].
  exact (proj1 (H sample_midway later_clock later_clock sample_outline
                  eq_refl eq_refl)).
Defined.

(** ** Truthiness of sample values *)

Example truthy_samples :
  truthy (JNumber (lit "0")) = false
  ∧ truthy (JNumber (lit "-0.0")) = false
  ∧ truthy (JNumber (lit "1e-400")) = false
  ∧ truthy (JNumber (lit "5e-324")) = true
  ∧ truthy (JString []) = false
  ∧ truthy (JObject []) = true
  ∧ truthy JNull = false.
Proof. by_evaluation. Qed.

(** ** [JSON.parse] on sample texts *)

Example JSON_parse_sample :
  JSON_parse (JSON_stringify sample_outline) = Some sample_outline.
Proof. vm_compute. reflexivity. Qed.

Example JSON_parse_values :
  JSON_parse (lit " [1, -2.5e+3, true, null, {}] ")
  = Some (JArray [JNumber (lit "1"); JNumber (lit "-2.5e+3"); JBool true;
                  JNull; JObject []])
  ∧ JSON_parse (lit "{") = None
  ∧ JSON_parse (lit "01") = None
  ∧ JSON_parse (lit "{} x") = None
  ∧ JSON_parse [] = None.
Proof. by_evaluation. Qed.

(** Index keys come first, in ascending order; a repeated key keeps its
    place and takes the last value. *)
Example JSON_parse_key_order :
  JSON_parse ([123] ++ QuoteJSONString (lit "b") ++ lit ":1,"
              ++ QuoteJSONString (lit "10") ++ lit ":2,"
              ++ QuoteJSONString (lit "9") ++ lit ":3,"
              ++ QuoteJSONString (lit "b") ++ lit ":4}")
  = Some (JObject [(lit "9", JNumber (lit "3")); (lit "10", JNumber (lit "2"));
                   (lit "b", JNumber (lit "4"))]).
Proof. vm_compute. reflexivity. Qed.

(** ** The fuel of the parser is enough *)

Lemma strip_prefix_Some (p s r : jsstring) :
  strip_prefix p s = Some r ↔ s = p ++ r.
Proof.
  revert s. induction p as [|a p IH]; intros s; simpl.
  - split; [by intros [= ->]|by intros ->].
  - destruct s as [|b s]; [split; [done|by intros ?]|].
    destruct (a =? b) eqn:E.
    + apply N.eqb_eq in E as ->. rewrite IH. split; [by intros ->|by intros [= ->]].
    + apply N.eqb_neq in E. split; [done|]. intros [= -> _]. done.
Qed.

Lemma skip_ws_length (s : jsstring) : (length (skip_ws s) ≤ length s)%nat.
Proof.
  unfold skip_ws. induction s as [|c s IH]; simpl; [done|].
  destruct (is_json_ws c); simpl; lia.
Qed.

Lemma skip_ws_cons_length (s r : jsstring) (c : N) :
  skip_ws s = c :: r → (length r < length s)%nat.
Proof.
  intros H. pose proof (skip_ws_length s) as Hl. rewrite H in Hl.
  simpl in Hl. lia.
Qed.

Lemma cons_char_Some c o str rest :
  cons_char c o = Some (str, rest) →
  ∃ str', o = Some (str', rest) ∧ str = c :: str'.
Proof. destruct o as [[str' rest']|]; [|done]. intros [= <- <-]. eauto. Qed.

Lemma parse_chars_length (n : nat) (s str rest : jsstring) :
  (length s ≤ n)%nat →
  parse_chars s = Some (str, rest) → (length rest < length s)%nat.
Proof.
  revert s str. induction n as [|n IH]; intros s str Hn.
  { destruct s; [done|simpl in Hn; lia]. }
  destruct s as [|c s1]; [done|]. simpl in Hn. simpl.
  destruct (c =? 34); [intros [= _ <-]; lia|].
  destruct (c =? 92).
  - destruct s1 as [|e s2]; [done|]. simpl in Hn.
    destruct (e =? 117).
    + destruct s2 as [|h1 [|h2 [|h3 [|h4 s3]]]]; try done.
      destruct (hex_value h1), (hex_value h2), (hex_value h3), (hex_value h4);
        try done.
      intros (str' & H & _)%cons_char_Some.
      apply IH in H; simpl in *; lia.
    + destruct (unescape e); [|done].
      intros (str' & H & _)%cons_char_Some.
      apply IH in H; simpl in *; lia.
  - destruct (c <? 32); [done|].
    intros (str' & H & _)%cons_char_Some.
    apply IH in H; simpl in *; lia.
Qed.

Lemma strip_prefix_length (a : N) (p s r : jsstring) :
  strip_prefix (a :: p) s = Some r → (length r < length s)%nat.
Proof.
  intros ->%strip_prefix_Some. rewrite length_app. simpl. lia.
Qed.

Lemma span_digits_length (s ds rest : jsstring) :
  span_digits s = (ds, rest) → (length rest ≤ length s)%nat.
Proof.
  revert ds rest. induction s as [|c s IH]; intros ds rest; simpl.
  - intros [= _ <-]. done.
  - destruct (is_digit c).
    + destruct (span_digits s) as [ds' rest'] eqn:E. intros [= _ <-].
      specialize (IH _ _ eq_refl). lia.
    + intros [= _ <-]. simpl. lia.
Qed.

Lemma parse_number_length (s x rest : jsstring) :
  parse_number s = Some (x, rest) → (length rest < length s)%nat.
Proof.
  unfold parse_number.
  set (split_sign := match s with
                     | c :: s' => if c =? 45 then ([45], s') else ([], s)
                     | [] => ([], s)
                     end).
  assert (length split_sign.2 ≤ length s)%nat as Hs1.
  { unfold split_sign. destruct s as [|c s']; [done|].
    destruct (c =? 45); simpl; lia. }
  destruct split_sign as [sign s1]. simpl in Hs1.
  destruct s1 as [|c s2]; [done|]. simpl in Hs1.
  set (int_part := if c =? 48 then Some ([48], s2)
                   else if is_digit c then
                          let '(ds, rest) := span_digits s2 in
                          Some (c :: ds, rest)
                        else None).
  assert (∀ i s3, int_part = Some (i, s3) → length s3 ≤ length s2)%nat as Hint.
  { unfold int_part. intros i s3. destruct (c =? 48); [by intros [= _ <-]|].
    destruct (is_digit c); [|done].
    destruct (span_digits s2) as [ds r] eqn:E. intros [= _ <-].
    by eapply span_digits_length. }
  destruct int_part as [[int s3]|]; [|done].
  specialize (Hint _ _ eq_refl).
  set (frac_part := match s3 with
                    | c3 :: s4 =>
                        if c3 =? 46 then
                          match span_digits s4 with
                          | ([], _) => None
                          | (ds, rest) => Some (46 :: ds, rest)
                          end
                        else Some ([], s3)
                    | [] => Some ([], s3)
                    end).
  assert (∀ f s5, frac_part = Some (f, s5) → length s5 ≤ length s3)%nat as Hf.
  { unfold frac_part. intros f s5. destruct s3 as [|c3 s4]; [by intros [= _ <-]|].
    destruct (c3 =? 46); [|by intros [= _ <-]].
    destruct (span_digits s4) as [[|d ds] r] eqn:E; [done|].
    intros [= _ <-]. apply span_digits_length in E. simpl. lia. }
  destruct frac_part as [[frac s5]|]; [|done].
  specialize (Hf _ _ eq_refl).
  set (exp_part := match s5 with
                   | c5 :: s6 =>
                       if (c5 =? 101) || (c5 =? 69) then
                         let '(esign, s7) :=
                           match s6 with
                           | c6 :: s6' =>
                               if (c6 =? 43) || (c6 =? 45) then ([c6], s6')
                               else ([], s6)
                           | [] => ([], s6)
                           end in
                         match span_digits s7 with
                         | ([], _) => None
                         | (ds, rest) => Some (c5 :: esign ++ ds, rest)
                         end
                       else Some ([], s5)
                   | [] => Some ([], s5)
                   end).
  assert (∀ e s8, exp_part = Some (e, s8) → length s8 ≤ length s5)%nat as He.
  { unfold exp_part. intros e s8. destruct s5 as [|c5 s6]; [by intros [= _ <-]|].
    destruct ((c5 =? 101) || (c5 =? 69)); [|by intros [= _ <-]].
    set (split_esign := match s6 with
                        | c6 :: s6' =>
                            if (c6 =? 43) || (c6 =? 45) then ([c6], s6')
                            else ([], s6)
                        | [] => ([], s6)
                        end).
    assert (length split_esign.2 ≤ length s6)%nat as H7.
    { unfold split_esign. destruct s6 as [|c6 s6']; [done|].
      destruct ((c6 =? 43) || (c6 =? 45)); simpl; lia. }
    destruct split_esign as [esign s7]. simpl in H7.
    destruct (span_digits s7) as [[|d ds] r] eqn:E; [done|].
    intros [= _ <-]. apply span_digits_length in E. simpl. lia. }
  destruct exp_part as [[exp s8]|]; [|done].
  specialize (He _ _ eq_refl). intros [= _ <-]. lia.
Qed.

(** More fuel does not change a result that was reached. *)
Lemma parse_fuel_mono (f : nat) :
  ∀ g, (f ≤ g)%nat →
    (∀ s, parse_value f s ≠ OutOfFuel → parse_value g s = parse_value f s)
    ∧ (∀ acc s, parse_members f acc s ≠ OutOfFuel →
                parse_members g acc s = parse_members f acc s)
    ∧ (∀ acc s, parse_elements f acc s ≠ OutOfFuel →
                parse_elements g acc s = parse_elements f acc s).
Proof.
  induction f as [|f IH]; intros g Hg.
  { split_and!; intros; simpl in *; done. }
  destruct g as [|g]; [lia|].
  destruct (IH g ltac:(lia)) as (IHv & IHm & IHe).
  split_and!.
  - intros s. simpl.
    destruct (skip_ws s) as [|c r]; [done|].
    destruct (c =? 123).
    { destruct (skip_ws r) as [|c' r']; [done|].
      destruct (c' =? 125); [done|]. apply IHm. }
    destruct (c =? 91); [|done].
    destruct (skip_ws r) as [|c' r']; [done|].
    destruct (c' =? 93); [done|]. apply IHe.
  - intros acc s. simpl.
    destruct (skip_ws s) as [|c r]; [done|].
    destruct (c =? 34); [|done].
    destruct (parse_chars r) as [[key r1]|]; [|done].
    destruct (skip_ws r1) as [|c1 r2]; [done|].
    destruct (c1 =? 58); [|done].
    intros H.
    rewrite (IHv r2) by (destruct (parse_value f r2); done).
    destruct (parse_value f r2) as [v r3| |]; [|done..].
    destruct (skip_ws r3) as [|c3 r4]; [done|].
    destruct (c3 =? 44); [|done]. by apply IHm.
  - intros acc s. simpl. intros H.
    rewrite (IHv s) by (destruct (parse_value f s); done).
    destruct (parse_value f s) as [v r| |]; [|done..].
    destruct (skip_ws r) as [|c r']; [done|].
    destruct (c =? 44); [|done]. by apply IHe.
Qed.

(** A value that was read takes at least one character, and as much fuel
    as it takes characters is enough to read it. *)
Lemma parse_fuel_enough (f : nat) :
  (∀ s v r, parse_value f s = Parsed v r →
     (length r < length s)%nat
     ∧ parse_value (length s - length r) s = Parsed v r)
  ∧ (∀ acc s v r, parse_members f acc s = Parsed v r →
       (length r < length s)%nat
       ∧ parse_members (length s - length r) acc s = Parsed v r)
  ∧ (∀ acc s v r, parse_elements f acc s = Parsed v r →
       (length r < length s)%nat
       ∧ parse_elements (length s - length r) acc s = Parsed v r).
Proof.
  induction f as [|f IH]; [split_and!; intros; done|].
  destruct IH as (IHv & IHm & IHe).
  assert (∀ g s v r, parse_value f s = Parsed v r →
            (length s - length r ≤ g)%nat → parse_value g s = Parsed v r)
    as Hv.
  { intros g s v r H Hg. destruct (IHv _ _ _ H) as [_ H'].
    destruct (parse_fuel_mono _ g Hg) as (M & _ & _).
    rewrite M; rewrite H'; done. }
  assert (∀ g acc s v r, parse_members f acc s = Parsed v r →
            (length s - length r ≤ g)%nat →
            parse_members g acc s = Parsed v r) as Hm.
  { intros g acc s v r H Hg. destruct (IHm _ _ _ _ H) as [_ H'].
    destruct (parse_fuel_mono _ g Hg) as (_ & M & _).
    rewrite M; rewrite H'; done. }
  assert (∀ g acc s v r, parse_elements f acc s = Parsed v r →
            (length s - length r ≤ g)%nat →
            parse_elements g acc s = Parsed v r) as He.
  { intros g acc s v r H Hg. destruct (IHe _ _ _ _ H) as [_ H'].
    destruct (parse_fuel_mono _ g Hg) as (_ & _ & M).
    rewrite M; rewrite H'; done. }
  split_and!.
  - intros s v r. cbn [parse_value parse_members parse_elements].
    destruct (skip_ws s) as [|c r0] eqn:Es; [done|].
    pose proof (skip_ws_cons_length _ _ _ Es) as Ls.
    destruct (c =? 123) eqn:E1.
    { destruct (skip_ws r0) as [|c' r'] eqn:Er; [done|].
      pose proof (skip_ws_cons_length _ _ _ Er) as Lr.
      destruct (c' =? 125) eqn:E2.
      - intros [= <- <-]. split; [lia|].
        destruct (length s - length r')%nat as [|g] eqn:Eg; [lia|].
        cbn [parse_value parse_members parse_elements]. by rewrite Es, E1, Er, E2.
      - intros H. destruct (IHm _ _ _ _ H) as [L _]. split; [lia|].
        destruct (length s - length r)%nat as [|g] eqn:Eg; [lia|].
        cbn [parse_value parse_members parse_elements]. rewrite Es, E1, Er, E2. apply Hm; [done|lia]. }
    destruct (c =? 91) eqn:E3.
    { destruct (skip_ws r0) as [|c' r'] eqn:Er; [done|].
      pose proof (skip_ws_cons_length _ _ _ Er) as Lr.
      destruct (c' =? 93) eqn:E2.
      - intros [= <- <-]. split; [lia|].
        destruct (length s - length r')%nat as [|g] eqn:Eg; [lia|].
        cbn [parse_value parse_members parse_elements]. by rewrite Es, E1, E3, Er, E2.
      - intros H. destruct (IHe _ _ _ _ H) as [L _]. split; [lia|].
        destruct (length s - length r)%nat as [|g] eqn:Eg; [lia|].
        cbn [parse_value parse_members parse_elements]. rewrite Es, E1, E3, Er, E2. apply He; [done|lia]. }
    destruct (c =? 34) eqn:E4.
    { destruct (parse_chars r0) as [[str r']|] eqn:Ec; [|done].
      pose proof (parse_chars_length _ _ _ _ (le_n _) Ec) as Lc.
      intros [= <- <-]. split; [lia|].
      destruct (length s - length r')%nat as [|g] eqn:Eg; [lia|].
      cbn [parse_value parse_members parse_elements]. by rewrite Es, E1, E3, E4, Ec. }
    intros H.
    assert (length r < length s)%nat as L.
    { revert H.
      destruct (strip_prefix (lit "true") (c :: r0)) as [r1|] eqn:P1.
      { intros [= _ <-]. apply strip_prefix_length in P1.
        cbn [length] in P1. lia. }
      destruct (strip_prefix (lit "false") (c :: r0)) as [r2|] eqn:P2.
      { intros [= _ <-]. apply strip_prefix_length in P2.
        cbn [length] in P2. lia. }
      destruct (strip_prefix (lit "null") (c :: r0)) as [r3|] eqn:P3.
      { intros [= _ <-]. apply strip_prefix_length in P3.
        cbn [length] in P3. lia. }
      destruct (parse_number (c :: r0)) as [[x r4]|] eqn:P4; [|done].
      intros [= _ <-]. apply parse_number_length in P4. cbn [length] in P4. lia. }
    split; [done|].
    destruct (length s - length r)%nat as [|g] eqn:Eg; [lia|].
    cbn [parse_value parse_members parse_elements]. by rewrite Es, E1, E3, E4.
  - intros acc s v r. cbn [parse_value parse_members parse_elements].
    destruct (skip_ws s) as [|c r0] eqn:Es; [done|].
    pose proof (skip_ws_cons_length _ _ _ Es) as Ls.
    destruct (c =? 34) eqn:E1; [|done].
    destruct (parse_chars r0) as [[key r1]|] eqn:Ec; [|done].
    pose proof (parse_chars_length _ _ _ _ (le_n _) Ec) as Lc.
    destruct (skip_ws r1) as [|c1 r2] eqn:E2; [done|].
    pose proof (skip_ws_cons_length _ _ _ E2) as L2.
    destruct (c1 =? 58) eqn:E3; [|done].
    destruct (parse_value f r2) as [v1 r3| |] eqn:E4; [|done..].
    destruct (IHv _ _ _ E4) as [L4 _].
    destruct (skip_ws r3) as [|c3 r4] eqn:E5; [done|].
    pose proof (skip_ws_cons_length _ _ _ E5) as L5.
    destruct (c3 =? 44) eqn:E6.
    + intros H. destruct (IHm _ _ _ _ H) as [L _]. split; [lia|].
      destruct (length s - length r)%nat as [|g] eqn:Eg; [lia|].
      cbn [parse_value parse_members parse_elements]. rewrite Es, E1, Ec, E2, E3.
      rewrite (Hv g _ _ _ E4) by lia. rewrite E5, E6.
      apply Hm; [done|lia].
    + destruct (c3 =? 125) eqn:E7; [|done].
      intros [= <- <-]. split; [lia|].
      destruct (length s - length r4)%nat as [|g] eqn:Eg; [lia|].
      cbn [parse_value parse_members parse_elements]. rewrite Es, E1, Ec, E2, E3.
      rewrite (Hv g _ _ _ E4) by lia. by rewrite E5, E6, E7.
  - intros acc s v r. cbn [parse_value parse_members parse_elements].
    destruct (parse_value f s) as [v1 r1| |] eqn:E1; [|done..].
    destruct (IHv _ _ _ E1) as [L1 _].
    destruct (skip_ws r1) as [|c r2] eqn:E2; [done|].
    pose proof (skip_ws_cons_length _ _ _ E2) as L2.
    destruct (c =? 44) eqn:E3.
    + intros H. destruct (IHe _ _ _ _ H) as [L _]. split; [lia|].
      destruct (length s - length r)%nat as [|g] eqn:Eg; [lia|].
      cbn [parse_value parse_members parse_elements]. rewrite (Hv g _ _ _ E1) by lia. rewrite E2, E3.
      apply He; [done|lia].
    + destruct (c =? 93) eqn:E4; [|done].
      intros [= <- <-]. split; [lia|].
      destruct (length s - length r2)%nat as [|g] eqn:Eg; [lia|].
      cbn [parse_value parse_members parse_elements]. rewrite (Hv g _ _ _ E1) by lia. by rewrite E2, E3, E4.
Qed.

Lemma parse_value_fuel (text : jsstring) (f : nat) (v : JSON) (rest : jsstring) :
  parse_value f text = Parsed v rest →
  parse_value (S (length text)) text = Parsed v rest.
Proof.
  intros H. destruct (parse_fuel_enough f) as (E & _ & _).
  destruct (E _ _ _ H) as [L H'].
  destruct (parse_fuel_mono (length text - length rest) (S (length text))
              ltac:(lia)) as (M & _ & _).
  rewrite M; rewrite H'; done.
Qed.

(** [JSON_parse] does not depend on its fuel: it returns a value exactly
    when some fuel reads that value and only white space follows it. *)
Lemma JSON_parse_Some (text : jsstring) (v : JSON) :
  JSON_parse text = Some v
  ↔ ∃ f rest, parse_value f text = Parsed v rest ∧ skip_ws rest = [].
Proof.
  unfold JSON_parse. split.
  - destruct (parse_value (S (length text)) text) as [v' rest| |] eqn:E;
      [|done..].
    destruct (skip_ws rest) eqn:Er; [|done].
    intros [= <-]. eauto.
  - intros (f & rest & H & Hr).
    by rewrite (parse_value_fuel _ _ _ _ H), Hr.
Qed.

(** A [SyntaxError] of [JSON_parse] is one at every fuel. *)
Lemma JSON_parse_None (text : jsstring) :
  JSON_parse text = None
  ↔ ∀ f v rest, parse_value f text = Parsed v rest → skip_ws rest ≠ [].
Proof.
  split.
  - intros HN f v rest H Hr.
    assert (JSON_parse text = Some v) as HS
      by (apply JSON_parse_Some; eauto).
    congruence.
  - intros H. destruct (JSON_parse text) as [v|] eqn:E; [|done].
    apply JSON_parse_Some in E as (f & rest & Hp & Hr).
    by destruct (H _ _ _ Hp).
Qed.

(** ** [JSON.parse] undoes [JSON.stringify] on outlines *)

Lemma hex_value_digit (d : N) : d < 16 → hex_value (hex_digit d) = Some d.
Proof.
  intros Hd. unfold hex_value, hex_digit, is_digit.
  destruct (d <? 10) eqn:E.
  - apply N.ltb_lt in E.
    rewrite (proj2 (N.leb_le _ _)), (proj2 (N.leb_le _ _)) by lia.
    simpl. f_equal. lia.
  - apply N.ltb_ge in E.
    replace ((48 <=? 87 + d) && (87 + d <=? 57)) with false
      by (symmetry; apply andb_false_iff; right; apply N.leb_gt; lia).
    rewrite (proj2 (N.leb_le _ _)), (proj2 (N.leb_le _ _)) by lia.
    simpl. f_equal. lia.
Qed.

Lemma parse_chars_escape (c : N) (s : jsstring) :
  c < 65536 →
  parse_chars (UnicodeEscape c ++ s) = cons_char c (parse_chars s).
Proof.
  intros Hc. unfold UnicodeEscape. simpl.
  rewrite !hex_value_digit by (apply N.mod_lt; lia).
  f_equal.
  assert (c / 4096 < 16) by (apply N.Div0.div_lt_upper_bound; lia).
  rewrite (N.mod_small (c / 4096)) by done.
  pose proof (N.div_mod c 16 ltac:(lia)).
  pose proof (N.div_mod (c / 16) 16 ltac:(lia)).
  pose proof (N.div_mod (c / 16 / 16) 16 ltac:(lia)).
  rewrite !N.Div0.div_div in *.
  change (16 * 16) with 256 in *. change (256 * 16) with 4096 in *.
  pose proof (N.mod_small (c / 4096) 16 ltac:(lia)). lia.
Qed.

Lemma parse_chars_unit (c : N) (s : jsstring) :
  is_high_surrogate c = false → is_low_surrogate c = false →
  parse_chars (quote_unit c ++ s) = cons_char c (parse_chars s).
Proof.
  intros _ _. unfold quote_unit.
  destruct (c =? 8) eqn:E8; [apply N.eqb_eq in E8; by subst c|].
  destruct (c =? 9) eqn:E9; [apply N.eqb_eq in E9; by subst c|].
  destruct (c =? 10) eqn:E10; [apply N.eqb_eq in E10; by subst c|].
  destruct (c =? 12) eqn:E12; [apply N.eqb_eq in E12; by subst c|].
  destruct (c =? 13) eqn:E13; [apply N.eqb_eq in E13; by subst c|].
  destruct (c =? 34) eqn:E34; [apply N.eqb_eq in E34; by subst c|].
  destruct (c =? 92) eqn:E92; [apply N.eqb_eq in E92; by subst c|].
  destruct (c <? 32) eqn:E.
  - apply N.ltb_lt in E. apply parse_chars_escape. lia.
  - simpl. by rewrite E34, E92, E.
Qed.

Lemma parse_chars_raw (c : N) (s : jsstring) :
  55296 <= c →
  parse_chars (c :: s) = cons_char c (parse_chars s).
Proof.
  intros Hc. simpl.
  rewrite (proj2 (N.eqb_neq c 34)), (proj2 (N.eqb_neq c 92)) by lia.
  by rewrite (proj2 (N.ltb_ge c 32)) by lia.
Qed.

Lemma quote_units_cons (c : N) (s : jsstring) :
  quote_units (c :: s)
  = if is_high_surrogate c then
      match s with
      | d :: s'' =>
          if is_low_surrogate d then c :: d :: quote_units s''
          else UnicodeEscape c ++ quote_units s
      | [] => UnicodeEscape c
      end
    else if is_low_surrogate c then UnicodeEscape c ++ quote_units s
    else quote_unit c ++ quote_units s.
Proof. reflexivity. Qed.

Lemma parse_chars_quote_units (n : nat) (s rest : jsstring) :
  (length s ≤ n)%nat →
  parse_chars (quote_units s ++ 34 :: rest) = Some (s, rest).
Proof.
  revert s. induction n as [|n IH]; intros s Hlen.
  { destruct s; [done|simpl in Hlen; lia]. }
  destruct s as [|c s]; [done|]. simpl in Hlen. rewrite quote_units_cons.
  destruct (is_high_surrogate c) eqn:Hh.
  - assert (55296 <= c ∧ c < 65536) as [Hc1 Hc2].
    { unfold is_high_surrogate in Hh. apply andb_true_iff in Hh as [H1 H2].
      apply N.leb_le in H1, H2. lia. }
    destruct s as [|d s].
    + by rewrite parse_chars_escape by done.
    + destruct (is_low_surrogate d) eqn:Hl.
      * assert (55296 <= d).
        { unfold is_low_surrogate in Hl. apply andb_true_iff in Hl as [H1 H2].
          apply N.leb_le in H1. lia. }
        rewrite <- !app_comm_cons, !parse_chars_raw by done.
        rewrite IH by (simpl in Hlen; lia). done.
      * rewrite <- app_assoc, parse_chars_escape by done.
        rewrite IH by lia. done.
  - destruct (is_low_surrogate c) eqn:Hl.
    + assert (c < 65536).
      { unfold is_low_surrogate in Hl. apply andb_true_iff in Hl as [H1 H2].
        apply N.leb_le in H2. lia. }
      rewrite <- app_assoc, parse_chars_escape by done.
      rewrite IH by lia. done.
    + rewrite <- app_assoc, parse_chars_unit by done.
      rewrite IH by lia. done.
Qed.

(** [JSON.parse] reads back the string that [QuoteJSONString] wrote,
    whatever its code units. *)
Lemma parse_chars_QuoteJSONString (s rest : jsstring) :
  ∃ body, QuoteJSONString s ++ rest = 34 :: body
          ∧ parse_chars body = Some (s, rest).
Proof.
  exists (quote_units s ++ 34 :: rest). split.
  - unfold QuoteJSONString. simpl. by rewrite <- app_assoc.
  - by apply (parse_chars_quote_units (length s)).
Qed.

(** *** Objects whose properties are in their own order *)

(** [k] is a key that [CreateDataProperty] puts after the keys [seen]: it
    is new, and it is not an array index or it is a larger index than
    every key seen. *)
Definition goes_last (seen : list jsstring) (k : jsstring) : bool :=
  negb (bool_decide (k ∈ seen))
  && match array_index k with
     | None => true
     | Some n =>
         forallb (λ k', match array_index k' with
                        | Some n' => n' <? n
                        | None => false
                        end) seen
     end.

(** The keys [ks] are in the order in which an object that already has
    the keys [seen] lists them. *)
Fixpoint in_own_order (seen ks : list jsstring) : bool :=
  match ks with
  | [] => true
  | k :: ks' => goes_last seen k && in_own_order (seen ++ [k]) ks'
  end.

(** An outline: a leaf string, or a node whose entries are outlines.  The
    entries of a node are those of a JavaScript object: distinct keys,
    array indices first and ascending. *)
Fixpoint is_outline (v : JSON) : bool :=
  match v with
  | JString _ => true
  | JObject ps =>
      in_own_order [] (ps.*1)
      && forallb (λ p, let '(_, x) := p in is_outline x) ps
  | _ => false
  end.

Lemma replace_value_new (k : jsstring) (v : JSON) (ps : list (jsstring * JSON)) :
  k ∉ ps.*1 → replace_value k v ps = None.
Proof.
  induction ps as [|[k' v'] ps IH]; [done|]. simpl.
  intros [Hne Hin]%not_elem_of_cons.
  rewrite decide_False by done. by rewrite IH.
Qed.

Lemma insert_index_last (n : N) (k : jsstring) (v : JSON)
    (ps : list (jsstring * JSON)) :
  forallb (λ k', match array_index k' with
                 | Some n' => n' <? n
                 | None => false
                 end) (ps.*1) = true →
  insert_index n k v ps = ps ++ [(k, v)].
Proof.
  induction ps as [|[k' v'] ps IH]; [done|]. simpl.
  intros [H1 H2]%andb_true_iff.
  destruct (array_index k') as [n'|]; [|done].
  by rewrite H1, IH.
Qed.

Lemma CreateDataProperty_last (acc : list (jsstring * JSON)) (k : jsstring)
    (v : JSON) :
  goes_last (acc.*1) k = true → CreateDataProperty acc k v = acc ++ [(k, v)].
Proof.
  unfold goes_last, CreateDataProperty.
  intros [Hnew Hord]%andb_true_iff.
  apply negb_true_iff, bool_decide_eq_false in Hnew.
  rewrite replace_value_new by done.
  destruct (array_index k) as [n|]; [|done].
  by apply insert_index_last.
Qed.

(** *** The text of a node *)

Definition member (indent : nat) (p : jsstring * JSON) : jsstring :=
  let '(k, x) := p in
  QuoteJSONString k ++ [58; 32] ++ SerializeJSONProperty indent x.

Definition members_text (indent : nat) (ps : list (jsstring * JSON)) : jsstring :=
  join_with ([44; 10] ++ spaces indent) (map (member indent) ps).

Lemma SerializeJSONProperty_node (indent : nat) (p : jsstring * JSON)
    (ps : list (jsstring * JSON)) :
  SerializeJSONProperty indent (JObject (p :: ps))
  = [123; 10] ++ spaces (indent + 2) ++ members_text (indent + 2) (p :: ps)
    ++ [10] ++ spaces indent ++ [125].
Proof. reflexivity. Qed.

Lemma members_text_cons (indent : nat) (p q : jsstring * JSON)
    (ps : list (jsstring * JSON)) :
  members_text indent (p :: q :: ps)
  = member indent p ++ ([44; 10] ++ spaces indent)
    ++ members_text indent (q :: ps).
Proof. reflexivity. Qed.

Lemma members_text_one (indent : nat) (p : jsstring * JSON) :
  members_text indent [p] = member indent p.
Proof. reflexivity. Qed.

(** *** White space *)

Definition all_ws (w : jsstring) : Prop := Forall (λ c, is_json_ws c = true) w.

Lemma skip_ws_app (w s : jsstring) : all_ws w → skip_ws (w ++ s) = skip_ws s.
Proof.
  unfold skip_ws. induction 1 as [|c w Hc Hw IH]; [done|].
  simpl. by rewrite Hc.
Qed.

Lemma all_ws_spaces (n : nat) : all_ws (spaces n).
Proof. induction n; constructor; done. Qed.

Lemma all_ws_newline_spaces (n : nat) : all_ws (10 :: spaces n).
Proof. constructor; [done|apply all_ws_spaces]. Qed.

Lemma skip_ws_newline_spaces (n : nat) (s : jsstring) :
  skip_ws ([10] ++ spaces n ++ s) = skip_ws s.
Proof.
  change ([10] ++ spaces n ++ s) with ((10 :: spaces n) ++ s).
  apply skip_ws_app, all_ws_newline_spaces.
Qed.

Lemma parse_value_ws (fuel : nat) (w s : jsstring) :
  all_ws w → parse_value fuel (w ++ s) = parse_value fuel s.
Proof. intros Hw. destruct fuel; simpl; [done|]. by rewrite skip_ws_app. Qed.

Lemma parse_members_ws (fuel : nat) (acc : list (jsstring * JSON))
    (w s : jsstring) :
  all_ws w → parse_members fuel acc (w ++ s) = parse_members fuel acc s.
Proof. intros Hw. destruct fuel; simpl; [done|]. by rewrite skip_ws_app. Qed.

(** *** Induction over a value and the values inside it *)

Lemma JSON_nested_ind (P : JSON → Prop) :
  P JNull → (∀ b, P (JBool b)) → (∀ x, P (JNumber x)) → (∀ s, P (JString s)) →
  (∀ l, Forall P l → P (JArray l)) →
  (∀ ps, Forall (λ p, P p.2) ps → P (JObject ps)) →
  ∀ v, P v.
Proof.
  intros Hnull Hbool Hnum Hstr Harr Hobj.
  fix IH 1. intros [|b|x|s|l|ps].
  - exact Hnull.
  - apply Hbool.
  - apply Hnum.
  - apply Hstr.
  - apply Harr. induction l as [|v l IHl]; constructor; [apply IH|exact IHl].
  - apply Hobj. induction ps as [|[k v] ps IHps]; constructor;
      [apply IH|exact IHps].
Qed.

(** *** Reading back a node *)

Definition reads_back (v : JSON) : Prop :=
  is_outline v = true →
  ∀ indent fuel rest,
    (length (SerializeJSONProperty indent v) ≤ fuel)%nat →
    parse_value fuel (SerializeJSONProperty indent v ++ rest) = Parsed v rest.

Lemma parse_members_step (fuel : nat) (acc : list (jsstring * JSON))
    (k : jsstring) (x : JSON) (indent : nat) (tail : jsstring) :
  reads_back x → is_outline x = true →
  (length (SerializeJSONProperty indent x) ≤ fuel)%nat →
  parse_members (S fuel) acc (member indent (k, x) ++ tail)
  = match skip_ws tail with
    | [] => SyntaxError
    | c :: r =>
        if c =? 44 then parse_members fuel (CreateDataProperty acc k x) r
        else if c =? 125 then Parsed (JObject (CreateDataProperty acc k x)) r
        else SyntaxError
    end.
Proof.
  intros Hx Hout Hlen. unfold member.
  destruct (parse_chars_QuoteJSONString k
              ([58; 32] ++ SerializeJSONProperty indent x ++ tail))
    as (body & Heq & Hbody).
  rewrite <- !app_assoc, Heq.
  change (parse_members (S fuel) acc (34 :: body))
    with (match parse_chars body with
          | None => SyntaxError
          | Some (key, r1) =>
              match skip_ws r1 with
              | [] => SyntaxError
              | c1 :: r2 =>
                  if c1 =? 58 then
                    match parse_value fuel r2 with
                    | Parsed v r3 =>
                        let acc' := CreateDataProperty acc key v in
                        match skip_ws r3 with
                        | [] => SyntaxError
                        | c3 :: r4 =>
                            if c3 =? 44 then parse_members fuel acc' r4
                            else if c3 =? 125 then Parsed (JObject acc') r4
                            else SyntaxError
                        end
                    | SyntaxError => SyntaxError
                    | OutOfFuel => OutOfFuel
                    end
                  else SyntaxError
              end
          end).
  rewrite Hbody.
  change (skip_ws ([58; 32] ++ SerializeJSONProperty indent x ++ tail))
    with (58 :: [32] ++ SerializeJSONProperty indent x ++ tail).
  change (58 =? 58) with true. cbv iota.
  rewrite parse_value_ws by (repeat constructor).
  by rewrite (Hx Hout indent fuel tail Hlen).
Qed.

Lemma length_member (indent : nat) (k : jsstring) (x : JSON) :
  (length (SerializeJSONProperty indent x) + 4 ≤ length (member indent (k, x)))%nat.
Proof.
  unfold member, QuoteJSONString. simpl. rewrite !length_app. simpl. lia.
Qed.

Lemma parse_members_text (ps : list (jsstring * JSON)) :
  ps ≠ [] →
  Forall (λ p, reads_back p.2) ps →
  forallb (λ p, let '(_, x) := p in is_outline x) ps = true →
  ∀ acc indent outer fuel rest w,
    all_ws w →
    in_own_order (acc.*1) (ps.*1) = true →
    (length (members_text indent ps) < fuel)%nat →
    parse_members fuel acc
      (w ++ members_text indent ps ++ [10] ++ spaces outer ++ [125] ++ rest)
    = Parsed (JObject (acc ++ ps)) rest.
Proof.
  induction ps as [|[k x] ps IH]; [done|]. intros _ Hrb Hout.
  apply Forall_cons_1 in Hrb as [Hx Hrb]. simpl in Hx.
  simpl in Hout. apply andb_true_iff in Hout as [Houtx Hout].
  intros acc indent outer fuel rest w Hw Hord Hlen.
  simpl in Hord. apply andb_true_iff in Hord as [Hlast Hord].
  rewrite parse_members_ws by done.
  destruct fuel as [|fuel]; [lia|].
  pose proof (length_member indent k x) as Hm.
  destruct ps as [|q ps].
  - rewrite members_text_one in *.
    rewrite parse_members_step; [|done|done|lia].
    rewrite skip_ws_newline_spaces.
    change (skip_ws ([125] ++ rest)) with (125 :: rest).
    change (125 =? 44) with false. change (125 =? 125) with true. cbv iota.
    by rewrite CreateDataProperty_last.
  - rewrite members_text_cons in *. rewrite !length_app in Hlen.
    rewrite <- !app_assoc.
    rewrite parse_members_step; [|done|done|lia].
    change (skip_ws ([44; 10] ++ ?s)) with (skip_ws (44 :: [10] ++ s)).
    change (skip_ws (44 :: ?s)) with (44 :: s).
    rewrite CreateDataProperty_last by done.
    change (44 =? 44) with true. cbv iota.
    change ([10] ++ spaces indent ++ ?s) with ((10 :: spaces indent) ++ s).
    rewrite (IH ltac:(done) Hrb Hout (acc ++ [(k, x)]) indent outer fuel rest
               (10 :: spaces indent));
      [by rewrite <- app_assoc|apply all_ws_newline_spaces
      |by rewrite fmap_app|simpl in *; lia].
Qed.

Lemma reads_back_all (v : JSON) : reads_back v.
Proof.
  induction v as [|b|x|s|l IH|ps IH] using JSON_nested_ind;
    intros Hout indent fuel rest Hlen; try discriminate.
  - (* a leaf *)
    destruct (parse_chars_QuoteJSONString s rest) as (body & Heq & Hbody).
    destruct fuel as [|fuel]; [simpl in Hlen; lia|].
    change (SerializeJSONProperty indent (JString s)) with (QuoteJSONString s).
    rewrite Heq.
    change (parse_value (S fuel) (34 :: body))
      with (match parse_chars body with
            | Some (str, r') => Parsed (JString str) r'
            | None => SyntaxError
            end).
    by rewrite Hbody.
  - (* a node *)
    simpl in Hout. apply andb_true_iff in Hout as [Hord Hout].
    destruct ps as [|p ps].
    + destruct fuel as [|fuel]; [simpl in Hlen; lia|]. reflexivity.
    + rewrite SerializeJSONProperty_node in *.
      rewrite !length_app in Hlen. simpl in Hlen.
      destruct fuel as [|fuel]; [lia|].
      rewrite <- !app_assoc.
      assert (∃ c body, members_text (indent + 2) (p :: ps) = c :: body
                        ∧ is_json_ws c = false ∧ (c =? 125) = false)
        as (c & body & Hc & Hws & H125).
      { destruct p as [k x]. destruct ps as [|q ps]; eexists 34, _;
          (split; [reflexivity|done]). }
      change (parse_value (S fuel) ([123; 10] ++ ?s))
        with (match skip_ws ([10] ++ s) with
              | c' :: r' =>
                  if c' =? 125 then Parsed (JObject []) r'
                  else parse_members fuel [] ([10] ++ s)
              | [] => SyntaxError
              end).
      rewrite skip_ws_newline_spaces.
      rewrite Hc at 1. rewrite <- app_comm_cons.
      unfold skip_ws at 1. simpl drop_while. rewrite Hws, H125.
      change ([10] ++ spaces (indent + 2) ++ ?s)
        with ((10 :: spaces (indent + 2)) ++ s).
      rewrite (parse_members_text (p :: ps) ltac:(done) IH Hout []
                 (indent + 2) indent fuel rest (10 :: spaces (indent + 2)));
        [done|apply all_ws_newline_spaces|done|lia].
Qed.

(** [JSON.parse(JSON.stringify(v, null, 2))] is [v] for every outline
    [v]. *)
Lemma JSON_parse_stringify (v : JSON) :
  is_outline v = true → JSON_parse (JSON_stringify v) = Some v.
Proof.
  intros Hout. unfold JSON_parse, JSON_stringify.
  pose proof (reads_back_all v Hout 0%nat
                (S (length (SerializeJSONProperty 0 v))) [] ltac:(lia)) as H.
  rewrite app_nil_r in H. by rewrite H.
Qed.

(** ** What [JSON.parse] returns lists its properties in their own order *)

Lemma decimal_value_acc (acc : N) (k : jsstring) :
  decimal_value acc k = acc * 10 ^ N.of_nat (length k) + decimal_value 0 k.
Proof.
  revert acc. induction k as [|c k IH]; intros acc.
  { simpl. lia. }
  cbn [decimal_value length]. rewrite (IH (10 * acc + _)), (IH (10 * 0 + _)).
  rewrite Nat2N.inj_succ, N.pow_succ_r'. lia.
Qed.

Lemma decimal_value_bound (k : jsstring) :
  forallb is_digit k = true → decimal_value 0 k < 10 ^ N.of_nat (length k).
Proof.
  induction k as [|c k IH]; [by intros _; simpl; lia|].
  cbn [forallb decimal_value length].
  intros [Hc Hk]%andb_true_iff.
  unfold is_digit in Hc. apply andb_true_iff in Hc as [H1 H2].
  apply N.leb_le in H1, H2.
  rewrite decimal_value_acc, Nat2N.inj_succ, N.pow_succ_r'.
  specialize (IH Hk). nia.
Qed.

Lemma decimal_value_inj_length (k k' : jsstring) :
  length k = length k' →
  forallb is_digit k = true → forallb is_digit k' = true →
  decimal_value 0 k = decimal_value 0 k' → k = k'.
Proof.
  revert k'. induction k as [|c k IH]; intros [|c' k']; try done.
  cbn [forallb decimal_value length].
  intros [= Hlen] [Hc Hk]%andb_true_iff [Hc' Hk']%andb_true_iff.
  unfold is_digit in Hc, Hc'.
  apply andb_true_iff in Hc as [H1 H2]. apply andb_true_iff in Hc' as [H1' H2'].
  apply N.leb_le in H1, H2, H1', H2'.
  rewrite (decimal_value_acc _ k), (decimal_value_acc _ k'), <- Hlen.
  pose proof (decimal_value_bound k Hk) as B.
  pose proof (decimal_value_bound k' Hk') as B'. rewrite <- Hlen in B'.
  intros Heq.
  assert (c = c') as -> by nia.
  f_equal. apply IH; [done..|lia].
Qed.

Lemma array_index_inj (k k' : jsstring) (n : N) :
  array_index k = Some n → array_index k' = Some n → k = k'.
Proof.
  assert (∀ c k n, array_index (c :: k) = Some n →
            forallb is_digit (c :: k) = true
            ∧ n = decimal_value 0 (c :: k)
            ∧ (c = 48 ∧ k = [] ∨ c ≠ 48)) as Hcases.
  { intros c x m. unfold array_index.
    lazymatch goal with
    | |- (if ?b then _ else _) = _ → _ => destruct b eqn:Hb; [|done]
    end.
    apply andb_true_iff in Hb as [Hb _]. apply andb_true_iff in Hb as [Hb _].
    apply andb_true_iff in Hb as [Hd Hz]. intros [= <-].
    split_and!; [done..|].
    destruct (c =? 48) eqn:E.
    - left. apply N.eqb_eq in E. simpl in Hz.
      rewrite orb_false_r in Hz. by apply bool_decide_eq_true in Hz.
    - right. by apply N.eqb_neq in E. }
  assert (∀ c k, forallb is_digit (c :: k) = true → c ≠ 48 →
            10 ^ N.of_nat (length k) ≤ decimal_value 0 (c :: k)) as Hlow.
  { intros c x Hd Hc. cbn [forallb] in Hd.
    apply andb_true_iff in Hd as [Hd _]. unfold is_digit in Hd.
    apply andb_true_iff in Hd as [H1 H2]. apply N.leb_le in H1, H2.
    cbn [decimal_value]. rewrite decimal_value_acc. nia. }
  destruct k as [|c x]; [done|]. destruct k' as [|c' x']; [done|].
  intros (Hd & -> & Hz)%Hcases (Hd' & Heq & Hz')%Hcases.
  destruct (decide (length x = length x')) as [Hl|Hl].
  { apply decimal_value_inj_length; [by simpl; f_equal|done..]. }
  exfalso.
  pose proof (decimal_value_bound _ Hd) as B.
  pose proof (decimal_value_bound _ Hd') as B'.
  cbn [length] in B, B'. rewrite Nat2N.inj_succ in B, B'.
  destruct Hz as [[-> ->]|Hz], Hz' as [[-> ->]|Hz']; [done|..].
  - specialize (Hlow _ _ Hd' Hz'). rewrite <- Heq in Hlow.
    change (decimal_value 0 [48]) with 0 in Hlow.
    pose proof (N.pow_nonzero 10 (N.of_nat (length x')) ltac:(lia)). lia.
  - specialize (Hlow _ _ Hd Hz). rewrite Heq in Hlow.
    change (decimal_value 0 [48]) with 0 in Hlow.
    pose proof (N.pow_nonzero 10 (N.of_nat (length x)) ltac:(lia)). lia.
  - pose proof (Hlow _ _ Hd Hz) as L. pose proof (Hlow _ _ Hd' Hz') as L'.
    rewrite <- Heq in B', L'.
    destruct (decide (length x < length x')%nat).
    + assert (10 ^ N.succ (N.of_nat (length x)) ≤ 10 ^ N.of_nat (length x'))
        by (apply N.pow_le_mono_r; lia). lia.
    + assert (10 ^ N.succ (N.of_nat (length x')) ≤ 10 ^ N.of_nat (length x))
        by (apply N.pow_le_mono_r; lia). lia.
Qed.

(** [k] is listed before [k']: a smaller index before a larger one, an
    index before a key that is none, and among the other keys any two
    that differ. *)
Definition listed_before (k k' : jsstring) : Prop :=
  match array_index k, array_index k' with
  | Some n, Some n' => n < n'
  | Some _, None => True
  | None, Some _ => False
  | None, None => k ≠ k'
  end.

Fixpoint each_before_later (ks : list jsstring) : Prop :=
  match ks with
  | [] => True
  | k :: ks' => Forall (listed_before k) ks' ∧ each_before_later ks'
  end.

Lemma goes_last_before (seen : list jsstring) (k : jsstring) :
  goes_last seen k = true ↔ Forall (λ k', listed_before k' k) seen.
Proof.
  unfold goes_last, listed_before. rewrite andb_true_iff, negb_true_iff,
    bool_decide_eq_false, Forall_forall.
  destruct (array_index k) as [n|] eqn:Ek.
  - rewrite forallb_forall. split.
    + intros [_ H] k' Hin. apply list_elem_of_In, H in Hin.
      destruct (array_index k'); [by apply N.ltb_lt|done].
    + intros H. split.
      * intros Hin. specialize (H _ Hin). rewrite Ek in H. lia.
      * intros k' Hin%list_elem_of_In. specialize (H _ Hin).
        destruct (array_index k'); [by apply N.ltb_lt|done].
  - split.
    + intros [Hnew _] k' Hin. destruct (array_index k'); [done|].
      by intros ->.
    + intros H. split; [|done]. intros Hin. specialize (H _ Hin).
      by rewrite Ek in H.
Qed.

Lemma in_own_order_before (seen ks : list jsstring) :
  in_own_order seen ks = true
  ↔ Forall (λ k, Forall (λ k', listed_before k' k) seen) ks
    ∧ each_before_later ks.
Proof.
  revert seen. induction ks as [|k ks IH]; intros seen.
  { simpl. split; [by intros _; split|done]. }
  cbn [in_own_order each_before_later].
  rewrite andb_true_iff, goes_last_before, IH, Forall_cons.
  split.
  - intros (Hk & Hall & Hks). split_and!; [done| | |done].
    + eapply Forall_impl; [exact Hall|]. intros k'.
      by intros [H _]%Forall_app.
    + rewrite Forall_forall in Hall |- *. intros k' Hin.
      specialize (Hall _ Hin). apply Forall_app in Hall as [_ H].
      by apply (Forall_singleton (λ k0, listed_before k0 k')) in H.
  - intros ((Hk & Hall) & Hbefore & Hks). split_and!; [done| |done].
    rewrite Forall_forall in Hall, Hbefore |- *. intros k' Hin.
    apply Forall_app. split; [by apply Hall|].
    apply (Forall_singleton (λ k0, listed_before k0 k')). by apply Hbefore.
Qed.

Lemma in_own_order_nil (ks : list jsstring) :
  in_own_order [] ks = true ↔ each_before_later ks.
Proof.
  rewrite in_own_order_before. split; [by intros [_ H]|].
  intros H. split; [|done]. apply Forall_forall. by intros.
Qed.

Lemma replace_value_keys (k : jsstring) (v : JSON)
    (ps ps' : list (jsstring * JSON)) :
  replace_value k v ps = Some ps' →
  ps'.*1 = ps.*1 ∧ ∀ p, p ∈ ps' → p ∈ ps ∨ p = (k, v).
Proof.
  revert ps'. induction ps as [|[k' v'] ps IH]; intros ps'; [done|].
  simpl. destruct (decide (k' = k)) as [->|Hne].
  - intros [= <-]. split; [done|].
    intros p [->|Hin]%elem_of_cons; [by right|].
    left. by apply elem_of_cons; right.
  - destruct (replace_value k v ps) as [ps''|]; [|done].
    intros [= <-]. destruct (IH _ eq_refl) as [Hk Hin]. split.
    + by rewrite !fmap_cons, Hk.
    + intros p [->|H]%elem_of_cons; [left; by apply elem_of_cons; left|].
      destruct (Hin _ H) as [?| ->]; [left; by apply elem_of_cons; right|].
      by right.
Qed.

Lemma replace_value_None (k : jsstring) (v : JSON) (ps : list (jsstring * JSON)) :
  replace_value k v ps = None → k ∉ ps.*1.
Proof.
  induction ps as [|[k' v'] ps IH]; simpl.
  { intros _ H. by apply elem_of_nil in H. }
  destruct (decide (k' = k)); [done|].
  destruct (replace_value k v ps); [done|].
  intros _ [->|H]%elem_of_cons; [done|]. by apply IH.
Qed.

Lemma insert_index_elem (n : N) (k : jsstring) (v : JSON)
    (ps : list (jsstring * JSON)) (p : jsstring * JSON) :
  p ∈ insert_index n k v ps ↔ p = (k, v) ∨ p ∈ ps.
Proof.
  induction ps as [|[k' v'] ps IH]; simpl.
  { rewrite list_elem_of_singleton. split; [by left|].
    intros [?|H]; [done|]. by apply elem_of_nil in H. }
  destruct (array_index k') as [n'|]; [|by rewrite elem_of_cons].
  destruct (n' <? n); [|by rewrite elem_of_cons].
  rewrite !elem_of_cons, IH. tauto.
Qed.

Lemma insert_index_before (n : N) (k : jsstring) (v : JSON)
    (ps : list (jsstring * JSON)) :
  array_index k = Some n → k ∉ ps.*1 →
  each_before_later (ps.*1) →
  each_before_later ((insert_index n k v ps).*1).
Proof.
  intros Hk. induction ps as [|[k' v'] ps IH]; [done|].
  cbn [fmap list_fmap fst each_before_later insert_index].
  intros [Hne Hnew]%not_elem_of_cons [Hk' Hps].
  destruct (array_index k') as [n'|] eqn:Ek'.
  - destruct (n' <? n) eqn:Elt.
    + apply N.ltb_lt in Elt. rewrite fmap_cons. split; [|by apply IH].
      apply Forall_forall. intros k0 ([k1 v1] & -> & Hin)%list_elem_of_fmap.
      cbn [fst]. apply insert_index_elem in Hin as [[= -> ->]|Hin].
      * unfold listed_before. by rewrite Ek', Hk.
      * rewrite Forall_forall in Hk'. apply Hk'.
        apply list_elem_of_fmap. by exists (k1, v1).
    + apply N.ltb_ge in Elt.
      assert (n ≠ n') as Hnn.
      { intros <-. apply Hne. by eapply array_index_inj. }
      rewrite !fmap_cons. cbn [fst]. split; [|done].
      apply Forall_cons. split.
      * unfold listed_before. rewrite Hk, Ek'. lia.
      * eapply Forall_impl; [exact Hk'|]. intros k0. unfold listed_before.
        rewrite Hk, Ek'. destruct (array_index k0); [lia|done].
  - rewrite !fmap_cons. cbn [fst]. split; [|done].
    apply Forall_cons. split.
    + unfold listed_before. by rewrite Hk, Ek'.
    + eapply Forall_impl; [exact Hk'|]. intros k0. unfold listed_before.
      rewrite Hk, Ek'. by destruct (array_index k0).
Qed.

Lemma each_before_later_snoc (ks : list jsstring) (k : jsstring) :
  each_before_later ks → Forall (λ k', listed_before k' k) ks →
  each_before_later (ks ++ [k]).
Proof.
  induction ks as [|k' ks IH]; [done|]. cbn [each_before_later app].
  intros [Hk' Hks] [Hb Hall]%Forall_cons. split; [|by apply IH].
  apply Forall_app. split; [done|]. by apply Forall_singleton.
Qed.

(** [CreateDataProperty] keeps the properties in their own order. *)
Lemma CreateDataProperty_own_order (ps : list (jsstring * JSON))
    (k : jsstring) (v : JSON) :
  in_own_order [] (ps.*1) = true →
  in_own_order [] ((CreateDataProperty ps k v).*1) = true
  ∧ ∀ p, p ∈ CreateDataProperty ps k v → p ∈ ps ∨ p = (k, v).
Proof.
  rewrite !in_own_order_nil. unfold CreateDataProperty. intros Hps.
  destruct (replace_value k v ps) as [ps'|] eqn:Er.
  { apply replace_value_keys in Er as [-> Hin]. done. }
  apply replace_value_None in Er.
  destruct (array_index k) as [n|] eqn:Ek.
  - split; [by apply insert_index_before|].
    intros p [->|Hin]%insert_index_elem; [by right|by left].
  - split.
    + rewrite fmap_app. change ([(k, v)].*1) with [k].
      apply each_before_later_snoc; [done|].
      apply Forall_forall. intros k' Hin. unfold listed_before.
      rewrite Ek. destruct (array_index k'); [done|]. by intros ->.
    + intros p [Hin|Hin]%elem_of_app; [by left|].
      apply list_elem_of_singleton in Hin. by right.
Qed.

(** Every object inside [v] lists its properties in their own order. *)
Fixpoint own_order_inside (v : JSON) : bool :=
  match v with
  | JObject ps =>
      in_own_order [] (ps.*1)
      && forallb (λ p, let '(_, x) := p in own_order_inside x) ps
  | JArray xs => forallb own_order_inside xs
  | _ => true
  end.

(** Strings at the leaves, objects above them. *)
Fixpoint string_leaves (v : JSON) : bool :=
  match v with
  | JString _ => true
  | JObject ps => forallb (λ p, let '(_, x) := p in string_leaves x) ps
  | _ => false
  end.

Lemma parse_own_order (f : nat) :
  (∀ s v r, parse_value f s = Parsed v r → own_order_inside v = true)
  ∧ (∀ acc s v r, parse_members f acc s = Parsed v r →
       own_order_inside (JObject acc) = true → own_order_inside v = true)
  ∧ (∀ acc s v r, parse_elements f acc s = Parsed v r →
       own_order_inside (JArray acc) = true → own_order_inside v = true).
Proof.
  induction f as [|f IH]; [split_and!; intros; done|].
  destruct IH as (IHv & IHm & IHe).
  split_and!.
  - intros s v r. cbn [parse_value parse_members parse_elements].
    destruct (skip_ws s) as [|c r0]; [done|].
    destruct (c =? 123).
    { destruct (skip_ws r0) as [|c' r']; [done|].
      destruct (c' =? 125); [by intros [= <- _]|].
      intros H. by eapply IHm. }
    destruct (c =? 91).
    { destruct (skip_ws r0) as [|c' r']; [done|].
      destruct (c' =? 93); [by intros [= <- _]|].
      intros H. by eapply IHe. }
    destruct (c =? 34).
    { destruct (parse_chars r0) as [[str r']|]; [|done]. by intros [= <- _]. }
    destruct (strip_prefix (lit "true") (c :: r0)); [by intros [= <- _]|].
    destruct (strip_prefix (lit "false") (c :: r0)); [by intros [= <- _]|].
    destruct (strip_prefix (lit "null") (c :: r0)); [by intros [= <- _]|].
    destruct (parse_number (c :: r0)) as [[x r4]|]; [|done].
    by intros [= <- _].
  - intros acc s v r. cbn [parse_value parse_members parse_elements].
    destruct (skip_ws s) as [|c r0]; [done|].
    destruct (c =? 34); [|done].
    destruct (parse_chars r0) as [[key r1]|]; [|done].
    destruct (skip_ws r1) as [|c1 r2]; [done|].
    destruct (c1 =? 58); [|done].
    destruct (parse_value f r2) as [v1 r3| |] eqn:E4; [|done..].
    apply IHv in E4.
    destruct (skip_ws r3) as [|c3 r4]; [done|].
    intros H Hacc.
    assert (own_order_inside (JObject (CreateDataProperty acc key v1)) = true)
      as Hacc'.
    { cbn [own_order_inside] in Hacc |- *.
      apply andb_true_iff in Hacc as [Hord Hin].
      destruct (CreateDataProperty_own_order acc key v1 Hord) as [Hord' Hel].
      rewrite Hord'. simpl. apply forallb_forall.
      intros [k x] Hp%list_elem_of_In.
      destruct (Hel _ Hp) as [Hold|[= -> ->]]; [|done].
      rewrite forallb_forall in Hin.
      by apply (Hin (k, x)), list_elem_of_In. }
    destruct (c3 =? 44); [by eapply IHm|].
    destruct (c3 =? 125); [|done]. by injection H as <- _.
  - intros acc s v r. cbn [parse_value parse_members parse_elements].
    destruct (parse_value f s) as [v1 r1| |] eqn:E1; [|done..].
    apply IHv in E1.
    destruct (skip_ws r1) as [|c r2]; [done|].
    intros H Hacc.
    assert (own_order_inside (JArray (acc ++ [v1])) = true) as Hacc'.
    { cbn [own_order_inside] in Hacc |- *.
      rewrite forallb_app, Hacc. simpl. by rewrite E1. }
    destruct (c =? 44); [by eapply IHe|].
    destruct (c =? 93); [|done]. by injection H as <- _.
Qed.

Lemma JSON_parse_own_order (text : jsstring) (v : JSON) :
  JSON_parse text = Some v → own_order_inside v = true.
Proof.
  intros (f & rest & H & _)%JSON_parse_Some.
  destruct (parse_own_order f) as (Hv & _ & _). by eapply Hv.
Qed.

Lemma is_outline_leaves (v : JSON) :
  is_outline v = own_order_inside v && string_leaves v.
Proof.
  induction v as [|b|x|s|l _|ps IH] using JSON_nested_ind; [done..| |].
  { cbn [is_outline own_order_inside string_leaves]. by rewrite andb_false_r. }
  cbn [is_outline own_order_inside string_leaves].
  rewrite <- andb_assoc. f_equal.
  induction IH as [|[k x] ps Hx _ IHps]; [done|].
  cbn [forallb]. simpl in Hx. rewrite Hx, IHps.
  destruct (own_order_inside x), (string_leaves x); simpl; try done.
  by rewrite andb_false_r.
Qed.

(** The entries of an outline that [JSON.parse] returned, when their
    leaves are strings, are outlines. *)
Lemma parsed_entry_is_outline (text : jsstring) (structure : JSON)
    (key : jsstring) (value : JSON) :
  JSON_parse text = Some structure →
  (key, value) ∈ Object_entries structure →
  string_leaves value = true → is_outline value = true.
Proof.
  intros Hparse%JSON_parse_own_order Hin Hleaves.
  rewrite is_outline_leaves, Hleaves, andb_true_r.
  destruct structure as [|b|x|s|l|ps]; try by apply elem_of_nil in Hin.
  - apply elem_of_lookup_imap in Hin as (i & c & [= _ ->] & _). done.
  - apply elem_of_lookup_imap in Hin as (i & x & [= _ ->] & Hx).
    cbn [own_order_inside] in Hparse. rewrite forallb_forall in Hparse.
    by eapply Hparse, list_elem_of_In, list_elem_of_lookup_2.
  - cbn [own_order_inside] in Hparse.
    apply andb_true_iff in Hparse as [_ Hall].
    rewrite forallb_forall in Hall.
    by apply (Hall (key, value)), list_elem_of_In.
Qed.

(** ** The outline fragment of a task *)

(** C8.  The task of the i-th entry carries a description that depends
    on the entry's value alone.  For a leaf it is the string itself; for
    a node that is an outline it is [JSON.stringify(value, null, 2)], and
    [JSON.parse] of it gives the node back.  The nodes of a structure
    that [JSON.parse] returned are outlines as soon as their leaves are
    strings ([parsed_entry_is_outline]). *)
Theorem C8_outline_fragment_verbatim_or_lossless
    (now : nat → N) (structure : JSON) (i : nat) (key : jsstring)
    (value : JSON) :
  Object_entries structure !! i = Some (key, value) →
  ∃ t, flattenStructureToTasks now structure !! i = Some t
       ∧ description t = chapterOutlineJson value
       ∧ (∀ s, value = JString s → description t = s)
       ∧ (∀ ps, value = JObject ps → is_outline value = true →
            description t = JSON_stringify value
            ∧ JSON_parse (description t) = Some value).
Proof.
  intros Hi. eexists. split.
  { unfold flattenStructureToTasks. by apply flatten_loop_lookup. }
  simpl. split_and!; [done|by intros s ->|].
  intros ps -> Hout. split; [done|].
  by apply JSON_parse_stringify.
Qed.

Lemma C8_witness :
  Object_entries sample_outline !! 1%nat
  = Some (lit "Ch2", JObject [(lit "A", JString (lit "a"));
                              (lit "B", JString (lit "b"))])
  ∧ ∃ t, flattenStructureToTasks sample_clock sample_outline !! 1%nat = Some t
         ∧ description t
           = JSON_stringify (JObject [(lit "A", JString (lit "a"));
                                      (lit "B", JString (lit "b"))])
         ∧ JSON_parse (description t)
           = Some (JObject [(lit "A", JString (lit "a"));
                            (lit "B", JString (lit "b"))]).
Proof.
  split; [reflexivity|].
  destruct (C8_outline_fragment_verbatim_or_lossless sample_clock
              sample_outline 1 (lit "Ch2")
              (JObject [(lit "A", JString (lit "a"));
                        (lit "B", JString (lit "b"))]) eq_refl)
    as (t & Ht & _ & _ & Hnode).
  exists t. split; [exact Ht|].
  exact (Hnode _ eq_refl eq_refl).
Defined.

(** The text that the second sample task carries. *)
Example sample_fragment :
  description sample_second_task
  = [123; 10] ++ lit "  " ++ QuoteJSONString (lit "A") ++ lit ": "
    ++ QuoteJSONString (lit "a") ++ [44; 10] ++ lit "  "
    ++ QuoteJSONString (lit "B") ++ lit ": " ++ QuoteJSONString (lit "b")
    ++ [10; 125].
Proof. vm_compute. reflexivity. Qed.

(** ** [parseJsonFromText] on sample texts *)

Example parseJsonFromText_fenced :
  parseJsonFromText
    (lit "  ```json" ++ [10] ++ JSON_stringify sample_outline ++ [10]
     ++ lit "```" ++ [10])
  = Returns sample_outline.
Proof. vm_compute. reflexivity. Qed.

Example parseJsonFromText_plain :
  parseJsonFromText (JSON_stringify sample_outline) = Returns sample_outline
  ∧ parseJsonFromText (lit "Here is your outline: {}")
    = Throws (ThrownError invalid_json_message)
  ∧ match_fence (lit "```json```") = Some []
  ∧ match_fence (lit "```{} ``` y```") = Some (lit "{} ``` y")
  ∧ match_fence (lit "```true```") = Some []
  ∧ match_fence (lit "`````") = None.
Proof. by_evaluation. Qed.

(** The parse is that of [JSON.parse]: any JSON value is returned, an
    object or not. *)
Example parseJsonFromText_any_value :
  parseJsonFromText (lit "42") = Returns (JNumber (lit "42"))
  ∧ parseJsonFromText (lit "null") = Returns JNull
  ∧ parseJsonFromText (lit "[]") = Returns (JArray []).
Proof. by_evaluation. Qed.

(** ** The fence pattern in closed form *)

Definition fence : jsstring := [96; 96; 96].

(** The text between an opening and a closing fence, when [s] has both. *)
Definition between_fences (s : jsstring) : option jsstring :=
  match strip_prefix fence s with
  | Some r =>
      match strip_prefix fence (reverse r) with
      | Some m => Some (reverse m)
      | None => None
      end
  | None => None
  end.

(** The text to parse: without its fences and the word after the opening
    one, trimmed, when that leaves something; the text itself
    otherwise. *)
Definition unfenced (s : jsstring) : jsstring :=
  match between_fences s with
  | Some mid => or_else (trim (drop_while is_word mid)) s
  | None => s
  end.

Definition all_space (w : jsstring) : Prop := Forall (λ c, is_space c = true) w.

Definition ends_nonspace (g : jsstring) : Prop :=
  match last g with
  | Some c => is_space c = false
  | None => True
  end.

Lemma between_fences_Some (s mid : jsstring) :
  between_fences s = Some mid ↔ s = fence ++ mid ++ fence.
Proof.
  unfold between_fences. split.
  - destruct (strip_prefix fence s) as [r|] eqn:Hr; [|done].
    apply strip_prefix_Some in Hr as ->.
    destruct (strip_prefix fence (reverse r)) as [m|] eqn:Hm; [|done].
    apply strip_prefix_Some in Hm. intros [= <-].
    apply (f_equal reverse) in Hm. rewrite reverse_involutive in Hm.
    by rewrite Hm, reverse_app.
  - intros ->.
    rewrite (proj2 (strip_prefix_Some fence _ (mid ++ fence)) eq_refl).
    rewrite reverse_app. change (reverse fence) with fence.
    rewrite (proj2 (strip_prefix_Some fence _ (reverse mid)) eq_refl).
    by rewrite reverse_involutive.
Qed.

Lemma drop_while_split (p : N → bool) (s : jsstring) :
  ∃ w, s = w ++ drop_while p s ∧ Forall (λ c, p c = true) w.
Proof.
  induction s as [|c s (w & Hs & Hw)]; [by exists []|]. simpl.
  destruct (p c) eqn:E.
  - exists (c :: w). split; [by rewrite <- app_comm_cons, <- Hs|by constructor].
  - by exists [].
Qed.

Lemma drop_while_head (p : N → bool) (s s' : jsstring) (c : N) :
  drop_while p s = c :: s' → p c = false.
Proof.
  induction s as [|c0 s IH]; [done|]. simpl.
  destruct (p c0) eqn:E; [done|]. by intros [= <- _].
Qed.

Lemma drop_while_all (p : N → bool) (w s : jsstring) :
  Forall (λ c, p c = true) w → drop_while p (w ++ s) = drop_while p s.
Proof. induction 1 as [|c w Hc Hw IH]; [done|]. simpl. by rewrite Hc. Qed.

Lemma drop_while_stop (p : N → bool) (c : N) (s : jsstring) :
  p c = false → drop_while p (c :: s) = c :: s.
Proof. intros H. simpl. by rewrite H. Qed.

Lemma drop_while_app_stop (p : N → bool) (a b : jsstring) (c : N) :
  p c = false → drop_while p (a ++ c :: b) = drop_while p a ++ c :: b.
Proof.
  intros Hc. induction a as [|x a IH]; simpl.
  - by rewrite Hc.
  - by destruct (p x).
Qed.

Lemma trimEnd_split (m : jsstring) :
  ∃ w, m = trimEnd m ++ w ∧ all_space w ∧ ends_nonspace (trimEnd m).
Proof.
  unfold trimEnd.
  destruct (drop_while_split is_space (reverse m)) as (w & Hm & Hw).
  exists (reverse w). split_and!.
  - apply (f_equal reverse) in Hm.
    by rewrite reverse_involutive, reverse_app in Hm.
  - unfold all_space. rewrite Forall_reverse. done.
  - unfold ends_nonspace.
    destruct (drop_while is_space (reverse m)) as [|c y] eqn:E; [done|].
    rewrite reverse_cons, last_snoc. by eapply drop_while_head.
Qed.

Lemma ends_nonspace_tail (c : N) (g : jsstring) :
  ends_nonspace (c :: g) → ends_nonspace g.
Proof. unfold ends_nonspace. destruct g as [|d g]; [done|]. by rewrite last_cons_cons. Qed.

Lemma all_space_ends (g w : jsstring) :
  g ≠ [] → ends_nonspace g → ¬ all_space (g ++ w).
Proof.
  intros Hne Hend Hall.
  destruct (last g) as [c|] eqn:Hl.
  - unfold ends_nonspace in Hend. rewrite Hl in Hend.
    apply last_Some in Hl as (g' & ->).
    unfold all_space in Hall. rewrite !Forall_app in Hall.
    destruct Hall as [[_ Hc] _]. apply Forall_cons_1 in Hc as [Hc _]. congruence.
  - apply last_None in Hl. done.
Qed.

(** *** The matcher on a fenced text *)

Lemma matches_greedy_eq p ps s opened group :
  matches (Many true p :: ps) s opened group
  = match s with
    | c :: s' =>
        if p c then
          match matches (Many true p :: ps) s' opened group with
          | Some r => Some r
          | None => matches ps s opened group
          end
        else matches ps s opened group
    | [] => matches ps s opened group
    end.
Proof. by destruct s. Qed.

Lemma matches_lazy_eq p ps s opened group :
  matches (Many false p :: ps) s opened group
  = match matches ps s opened group with
    | Some r => Some r
    | None =>
        match s with
        | c :: s' =>
            if p c then matches (Many false p :: ps) s' opened group else None
        | [] => None
        end
    end.
Proof. by destruct s. Qed.

(** A greedy repetition: when the rest of the pattern matches after the
    longest run, that is the match found. *)
Lemma matches_greedy_first p ps s opened group r :
  matches ps (drop_while p s) opened group = Some r →
  matches (Many true p :: ps) s opened group = Some r.
Proof.
  induction s as [|c s IH]; rewrite matches_greedy_eq; [done|].
  cbn [drop_while]. destruct (p c); [|done]. intros H. by rewrite (IH H).
Qed.

Definition fenceEnd : list Piece := [Literal 96; Literal 96; Literal 96; AtEnd].

Lemma matches_fenceEnd s opened group :
  matches fenceEnd s opened group
  = if decide (s = fence) then Some group else None.
Proof.
  destruct (decide (s = fence)) as [->|Hne]; [done|].
  unfold fenceEnd.
  destruct s as [|a s]; [done|]. simpl.
  destruct (a =? 96) eqn:Ea; [|done]. apply N.eqb_eq in Ea as ->.
  destruct s as [|b s]; [done|].
  destruct (b =? 96) eqn:Eb; [|done]. apply N.eqb_eq in Eb as ->.
  destruct s as [|c s]; [done|].
  destruct (c =? 96) eqn:Ec; [|done]. apply N.eqb_eq in Ec as ->.
  by destruct s.
Qed.

Lemma matches_spaces_fenceEnd s opened group :
  matches (Many true is_space :: fenceEnd) s opened group
  = if decide (drop_while is_space s = fence) then Some group else None.
Proof.
  induction s as [|c s IH]; rewrite matches_greedy_eq.
  - by rewrite matches_fenceEnd.
  - cbn [drop_while]. destruct (is_space c) eqn:E.
    + rewrite IH. destruct (decide _); [done|].
      rewrite matches_fenceEnd, decide_False; [done|].
      intros [= -> _]. done.
    + by rewrite matches_fenceEnd.
Qed.

(** The closing part matches at [t] exactly when [t] is white space
    followed by the closing fence; group 2 is then what was read since
    it opened. *)
Lemma matches_fenceClose t opened group :
  matches fenceClose t opened group
  = if decide (drop_while is_space t = fence)
    then Some (take (length opened - length t) opened) else None.
Proof.
  unfold fenceClose.
  change (matches (Close :: ?ps) t opened group)
    with (matches ps t opened (take (length opened - length t) opened)).
  set (g := take _ _).
  change (matches (Maybe is_newline :: ?ps) t opened g)
    with (match t with
          | c :: s' =>
              if is_newline c then
                match matches ps s' opened g with
                | Some r => Some r
                | None => matches ps t opened g
                end
              else matches ps t opened g
          | [] => matches ps t opened g
          end).
  fold fenceEnd. destruct t as [|c t]; [apply matches_spaces_fenceEnd|].
  destruct (is_newline c) eqn:E; [|apply matches_spaces_fenceEnd].
  rewrite !matches_spaces_fenceEnd.
  apply N.eqb_eq in E as ->. simpl. by destruct (decide _).
Qed.

(** The lazy group stops at the first place where the closing part
    matches: after the last code unit that is not white space. *)
Lemma matches_lazy_group g pre w group :
  all_space w → ends_nonspace g →
  matches (Many false any_unit :: fenceClose) (g ++ w ++ fence)
          (pre ++ g ++ w ++ fence) group
  = Some (pre ++ g).
Proof.
  intros Hw. revert pre. induction g as [|c g IH]; intros pre Hg;
    rewrite matches_lazy_eq, matches_fenceClose.
  - simpl. rewrite drop_while_all by done.
    rewrite decide_True by done. rewrite app_nil_r.
    rewrite length_app.
    replace (length pre + length (w ++ fence) - length (w ++ fence))%nat
      with (length pre) by lia.
    by rewrite take_app_length.
  - rewrite decide_False.
    + rewrite <- app_comm_cons. unfold any_unit at 1.
      replace (pre ++ c :: g ++ w ++ fence)
        with ((pre ++ [c]) ++ g ++ w ++ fence) by by rewrite <- app_assoc.
      rewrite IH by by eapply ends_nonspace_tail.
      by rewrite <- app_assoc.
    + intros Hd.
      destruct (drop_while_split is_space ((c :: g) ++ w ++ fence))
        as (w' & Heq & Hw').
      rewrite Hd in Heq. rewrite app_assoc in Heq.
      apply app_inv_tail in Heq.
      eapply (all_space_ends (c :: g) w); [done|done|].
      unfold all_space. by rewrite Heq.
Qed.

(** The whole pattern on a text with both fences. *)
Lemma match_fence_fenced (mid : jsstring) :
  match_fence (fence ++ mid ++ fence)
  = Some (trimEnd (trimStart (drop_while is_word mid))).
Proof.
  unfold match_fence, fenceRegex.
  set (s := fence ++ mid ++ fence).
  change (matches ?ps s s [])
    with (matches (Many true is_word :: Many true is_space
                   :: Maybe is_newline :: Open
                   :: Many false any_unit :: fenceClose)
                  (mid ++ fence) s []).
  apply matches_greedy_first.
  unfold fence at 1. rewrite drop_while_app_stop by done. fold fence.
  apply matches_greedy_first.
  unfold fence at 1. rewrite drop_while_app_stop by done. fold fence.
  fold (trimStart (drop_while is_word mid)).
  set (m2 := trimStart (drop_while is_word mid)).
  assert (matches (Maybe is_newline :: Open
                   :: Many false any_unit :: fenceClose) (m2 ++ fence) s []
          = matches (Many false any_unit :: fenceClose) (m2 ++ fence)
                    (m2 ++ fence) []) as ->.
  { destruct m2 as [|c m2'] eqn:E; [done|].
    assert (is_space c = false) as Hc
      by (eapply drop_while_head; exact E).
    simpl. destruct (is_newline c) eqn:En; [|done].
    apply N.eqb_eq in En as ->. done. }
  destruct (trimEnd_split m2) as (w & Hm2 & Hw & Hend).
  rewrite Hm2 at 1 2. rewrite <- !app_assoc.
  exact (matches_lazy_group (trimEnd m2) [] w [] Hw Hend).
Qed.

(** *** The matcher on any other text *)

(** A pattern that ends with the closing fence and [$] only matches a
    text that ends with the fence. *)
Lemma matches_ends_with_fence ps s opened group :
  is_Some (matches (ps ++ fenceEnd) s opened group) → ∃ pre, s = pre ++ fence.
Proof.
  revert s opened group.
  induction ps as [|[c|[|] p|p| | |] ps IH]; intros s opened group.
  - change ([] ++ fenceEnd) with fenceEnd. rewrite matches_fenceEnd.
    case_decide as E; [|by intros [? ?]]. intros _. by exists [].
  - simpl. destruct s as [|c' s]; [by intros [? ?]|].
    destruct (c' =? c); [|by intros [? ?]].
    intros (pre & ->)%IH. by exists (c' :: pre).
  - induction s as [|c s IHs];
      rewrite <- app_comm_cons, matches_greedy_eq.
    + apply IH.
    + destruct (p c); [|apply IH].
      destruct (matches (Many true p :: ps ++ fenceEnd) s opened group)
        as [r'|] eqn:E; [|apply IH].
      intros _. rewrite app_comm_cons in E.
      destruct IHs as (pre & ->); [by rewrite E|]. by exists (c :: pre).
  - induction s as [|c s IHs];
      rewrite <- app_comm_cons, matches_lazy_eq.
    + destruct (matches (ps ++ fenceEnd) [] opened group) eqn:E;
        [|by intros [? ?]].
      intros _. eapply IH. by rewrite E.
    + destruct (matches (ps ++ fenceEnd) (c :: s) opened group) eqn:E.
      { intros _. eapply IH. by rewrite E. }
      destruct (p c); [|by intros [? ?]]. rewrite app_comm_cons.
      intros (pre & ->)%IHs. by exists (c :: pre).
  - simpl. destruct s as [|c s]; [apply IH|].
    destruct (p c); [|apply IH].
    destruct (matches (ps ++ fenceEnd) s opened group) eqn:E; [|apply IH].
    intros _. destruct (IH s opened group) as (pre & ->); [by rewrite E|].
    by exists (c :: pre).
  - simpl. apply IH.
  - simpl. apply IH.
  - simpl. destruct s; [apply IH|by intros [? ?]].
Qed.

Lemma match_fence_needs_fences (s g : jsstring) :
  match_fence s = Some g → ∃ mid, s = fence ++ mid ++ fence.
Proof.
  unfold match_fence, fenceRegex, fenceClose.
  destruct s as [|a s]; [done|]. simpl.
  destruct (a =? 96) eqn:Ea; [|done]. apply N.eqb_eq in Ea as ->.
  destruct s as [|b s]; [done|].
  destruct (b =? 96) eqn:Eb; [|done]. apply N.eqb_eq in Eb as ->.
  destruct s as [|c s]; [done|].
  destruct (c =? 96) eqn:Ec; [|done]. apply N.eqb_eq in Ec as ->.
  intros H.
  destruct (matches_ends_with_fence
              [Many true is_word; Many true is_space; Maybe is_newline; Open;
               Many false any_unit; Close; Maybe is_newline;
               Many true is_space] s (96 :: 96 :: 96 :: s) [])
    as (mid & ->); [|by exists mid].
  exists g. exact H.
Qed.

(** [String.prototype.match] with the pattern of line 24: a match exists
    exactly when the text has both fences, and group 2 is what lies
    between them without the leading word, trimmed. *)
Lemma match_fence_spec (s : jsstring) :
  match_fence s
  = match between_fences s with
    | Some mid => Some (trim (drop_while is_word mid))
    | None => None
    end.
Proof.
  destruct (between_fences s) as [mid|] eqn:E.
  - apply between_fences_Some in E as ->. apply match_fence_fenced.
  - destruct (match_fence s) as [g|] eqn:Hm; [|done].
    apply match_fence_needs_fences in Hm as (mid & Hs).
    apply between_fences_Some in Hs. congruence.
Qed.

(** *** Trimming *)

Lemma trimEnd_fixed (g : jsstring) : ends_nonspace g → trimEnd g = g.
Proof.
  unfold trimEnd, ends_nonspace. intros H.
  destruct (reverse g) as [|c y] eqn:E.
  - simpl. apply (f_equal reverse) in E. by rewrite reverse_involutive in E.
  - assert (last g = Some c) as Hl.
    { apply (f_equal reverse) in E. rewrite reverse_involutive in E.
      rewrite E, reverse_cons. apply last_snoc. }
    rewrite Hl in H. rewrite drop_while_stop by done.
    rewrite <- E. apply reverse_involutive.
Qed.

Lemma trim_trim (x : jsstring) : trim (trim x) = trim x.
Proof.
  unfold trim.
  destruct (trimEnd_split (trimStart x)) as (w & Hy & Hw & Hend).
  set (g := trimEnd (trimStart x)) in *.
  assert (trimStart g = g) as ->; [|by apply trimEnd_fixed].
  destruct g as [|c g']; [done|].
  unfold trimStart in *. apply drop_while_stop.
  rewrite <- app_comm_cons in Hy. by eapply drop_while_head.
Qed.

(** [parseJsonFromText] parses the unfenced, trimmed text. *)
Lemma parseJsonFromText_unfenced (text : jsstring) :
  parseJsonFromText text
  = match JSON_parse (unfenced (trim text)) with
    | Some v => Returns v
    | None => Throws (ThrownError invalid_json_message)
    end.
Proof.
  unfold parseJsonFromText, unfenced. rewrite match_fence_spec.
  destruct (between_fences (trim text)) as [mid|]; [|done].
  unfold or_else. rewrite trim_trim. done.
Qed.

(** ** [handleUserInputSubmit]: an answer that is not an outline *)

Lemma render_outline_phase now m :
  currentStep (next_state m) = GENERATING_OUTLINE →
  render now m
  = mkMachine (next_state m) [] (generatingChapterContentRef m) (inflight m)
              (requests m).
Proof.
  intros Hstep. unfold render.
  set (m1 := mkMachine _ _ _ _ _).
  assert (reflattenEffect now m1 = m1) as ->.
  { unfold reflattenEffect. simpl. rewrite Hstep. simpl.
    destruct (bookStructure (next_state m)) as [bs|]; [|done].
    by rewrite andb_false_r. }
  unfold autoAdvanceEffect. simpl. by rewrite Hstep.
Qed.

(** C9 (amended).  [parseJsonFromText] trims the text, removes a
    wrapping code fence and trims again, then parses: a text between two
    fences, with an optional word after the opening one, is parsed
    without them, and a text without fences is parsed as it is,
    trimmed.  The parse is that of [JSON.parse] and nothing more: the
    call throws exactly when the text is not JSON, and returns the
    value otherwise, an outline or not.  When the call throws on the
    text of the outline stream, the workflow is back at the input
    stage, with the error message shown and no outline, whether or not
    React rendered while the stream was read; when it returns, and the
    title request succeeds, the workflow goes on to the outline review
    with the value as the outline and no error. *)
Theorem C9_fence_stripped_and_parse_failure_returns_to_input :
  (∀ text,
     parseJsonFromText text
     = match JSON_parse (unfenced (trim text)) with
       | Some v => Returns v
       | None => Throws (ThrownError invalid_json_message)
       end)
  ∧ (∀ tag body,
       Forall (λ c, is_word c = true) tag → body ≠ [] → trim body = body →
       unfenced (fence ++ tag ++ [10] ++ body ++ [10] ++ fence) = body)
  ∧ (∀ s, strip_prefix fence s = None → unfenced s = s)
  ∧ (∀ inputs chunks title m now now',
       apiKeyMissing (rendered m) = false →
       JSON_parse (unfenced (trim (accumulatedStructure chunks))) = None →
       let settle := submit_settle chunks (Returns ()) title in
       ∀ s, s = next_state (settle (submit_begin inputs m))
            ∨ s = rendered (render now' (settle (render now (submit_begin inputs m)))) →
         currentStep s = USER_INPUT
         ∧ appError s = Some invalid_json_message
         ∧ isLoading s = false
         ∧ bookStructure s = None
         ∧ chapterTasks s = [])
  ∧ (∀ inputs chunks title v m,
       apiKeyMissing (rendered m) = false →
       JSON_parse (unfenced (trim (accumulatedStructure chunks))) = Some v →
       let s := next_state (submit_settle chunks (Returns ()) (Returns title)
                              (submit_begin inputs m)) in
       currentStep s = OUTLINE_REVIEW
       ∧ appError s = None
       ∧ isLoading s = false
       ∧ bookStructure s = Some v
       ∧ bookTitle s = Some title).
Proof.
  split_and!.
  5: { intros inputs chunks title v m Hkey Hparse s.
       assert (parseJsonFromText (accumulatedStructure chunks) = Returns v)
         as Hret by (by rewrite parseJsonFromText_unfenced, Hparse).
       unfold s, submit_settle, submit_begin. rewrite Hkey, Hret.
       unfold next_state. simpl. by rewrite !apply_queue_app. }
  - apply parseJsonFromText_unfenced.
  - intros tag body Htag Hne Htrim. unfold unfenced.
    rewrite (proj2 (between_fences_Some _ (tag ++ [10] ++ body ++ [10]))).
    2: { by rewrite <- !app_assoc. }
    replace (drop_while is_word (tag ++ [10] ++ body ++ [10]))
      with ([10] ++ body ++ [10])
      by (symmetry; rewrite drop_while_all by done; done).
    assert (trim ([10] ++ body ++ [10]) = body) as ->.
    { rewrite <- Htrim at 2. unfold trim, trimStart, trimEnd.
      change (drop_while is_space ([10] ++ body ++ [10]))
        with (drop_while is_space (body ++ [10])).
      destruct (drop_while_split is_space body) as (w & Hb & Hw).
      destruct (drop_while is_space body) as [|c y] eqn:E.
      { rewrite <- Htrim in Hne. unfold trim, trimStart in Hne.
        by rewrite E in Hne. }
      rewrite Hb at 1. rewrite <- app_assoc, drop_while_all by done.
      rewrite <- app_comm_cons.
      rewrite drop_while_stop by (by eapply drop_while_head).
      rewrite app_comm_cons, reverse_app. done. }
    unfold or_else. by destruct body.
  - intros s Hs. unfold unfenced, between_fences. by rewrite Hs.
  - intros inputs chunks title m now now' Hkey Hparse settle s Hs.
    assert (parseJsonFromText (accumulatedStructure chunks)
            = Throws (ThrownError invalid_json_message)) as Hthrow.
    { by rewrite parseJsonFromText_unfenced, Hparse. }
    unfold settle, submit_settle, submit_begin in Hs.
    rewrite Hkey, Hthrow in Hs.
    destruct Hs as [->| ->].
    + unfold next_state. simpl. by rewrite !apply_queue_app.
    + rewrite (render_outline_phase now).
      2: { unfold next_state. simpl. by rewrite apply_queue_app. }
      unfold render.
      rewrite rendered_autoAdvanceEffect, rendered_reflattenEffect.
      unfold next_state. simpl. by rewrite !apply_queue_app.
Qed.

(** A chat answer instead of an outline: the parse fails and the
    workflow is back at the input stage. *)
Definition fresh_component : Machine :=
  mkMachine (mkApp USER_INPUT None None None [] None false false None false)
            [] [] [] [].

(** Answers that are JSON but no outline (the type [BookStructure] of
    [types.ts] is an object of strings and of objects of strings): a
    list of titles, and [null].  No error is raised, and the workflow
    goes on to the outline review. *)
Lemma C9_counterexample :
  let after chunks :=
    next_state (submit_settle chunks (Returns ()) (Returns (lit "A title"))
                  (submit_begin sample_inputs fresh_component)) in
  let titles := JArray [JString (lit "Intro"); JString (lit "End")] in
  let listed := [Some (lit "[" ++ [34] ++ lit "Intro" ++ [34; 44; 32]);
                 Some ([34] ++ lit "End" ++ [34] ++ lit "]")] in
  (parseJsonFromText (accumulatedStructure listed) = Returns titles
   ∧ is_outline titles = false
   ∧ currentStep (after listed) = OUTLINE_REVIEW
   ∧ appError (after listed) = None
   ∧ bookStructure (after listed) = Some titles)
  ∧ (parseJsonFromText (accumulatedStructure [Some (lit "null")])
     = Returns JNull
     ∧ is_outline JNull = false
     ∧ currentStep (after [Some (lit "null")]) = OUTLINE_REVIEW
     ∧ appError (after [Some (lit "null")]) = None
     ∧ bookStructure (after [Some (lit "null")]) = Some JNull).
Proof. by_evaluation. Qed.

Lemma C9_witness :
  let chunks := [Some (lit "Here is "); Some (lit "your outline.")] in
  let fenced := [Some (lit "```json" ++ [10]);
                 Some (JSON_stringify sample_outline ++ [10] ++ lit "```")] in
  apiKeyMissing (rendered fresh_component) = false
  ∧ JSON_parse (unfenced (trim (accumulatedStructure chunks))) = None
  ∧ (let s := next_state
                (submit_settle chunks (Returns ()) (Returns (lit "A title"))
                   (submit_begin sample_inputs fresh_component)) in
     currentStep s = USER_INPUT
     ∧ appError s = Some invalid_json_message
     ∧ isLoading s = false
     ∧ bookStructure s = None
     ∧ chapterTasks s = [])
  ∧ JSON_parse (unfenced (trim (accumulatedStructure fenced)))
    = Some sample_outline
  ∧ (let s := next_state
                (submit_settle fenced (Returns ()) (Returns (lit "A title"))
                   (submit_begin sample_inputs fresh_component)) in
     currentStep s = OUTLINE_REVIEW
     ∧ appError s = None
     ∧ isLoading s = false
     ∧ bookStructure s = Some sample_outline
     ∧ bookTitle s = Some (lit "A title")).
Proof.
  intros chunks fenced.
  destruct C9_fence_stripped_and_parse_failure_returns_to_input
    as (_ & _ & _ & H & H').
  assert (JSON_parse (unfenced (trim (accumulatedStructure chunks))) = None)
    as Hparse by (vm_compute; reflexivity).
  assert (JSON_parse (unfenced (trim (accumulatedStructure fenced)))
          = Some sample_outline)
    as Hfenced by (vm_compute; reflexivity).
  split; [reflexivity|]. split; [exact Hparse|].
  split.
  { exact (H sample_inputs chunks (Returns (lit "A title")) fresh_component
             sample_clock sample_clock eq_refl Hparse _ (or_introl eq_refl)). }
  split; [exact Hfenced|].
  exact (H' sample_inputs fenced (lit "A title") sample_outline
            fresh_component eq_refl Hfenced).
Defined.

(** ** Identifiers and titles of the tasks *)

Lemma digits_alnum (d : Decimal.uint) : Forall (λ c, is_alnum c = true) (digits d).
Proof.
  induction d as [|d IH|d IH|d IH|d IH|d IH|d IH|d IH|d IH|d IH|d IH]; simpl;
    [constructor|..]; (constructor; [reflexivity|exact IH]).
Qed.

Lemma replace_space_runs_no_space (key : jsstring) :
  Forall (λ c, is_space c = false) key → replace_space_runs false key = key.
Proof.
  induction 1 as [|c key Hc _ IH]; [done|]. simpl. by rewrite Hc, IH.
Qed.

Lemma keep_alnum_hyphen_none (key : jsstring) :
  Forall (λ c, is_alnum c = false ∧ c ≠ 45 ∧ is_space c = false) key →
  keep_alnum_hyphen key = [].
Proof.
  unfold keep_alnum_hyphen.
  induction 1 as [|c key (Ha & Hh & _) _ IH]; [done|].
  rewrite filter_cons_False; [done|].
  rewrite Ha. simpl. intros ?%N.eqb_eq. done.
Qed.

(** The identifier of a task is made of ASCII letters, digits and hyphens
    alone, whatever the name of its entry; and the entry of a name that
    has no ASCII letter, digit or hyphen and no white space (a title in
    Chinese, say) gets "chapter", the clock and the position. *)
Theorem task_ids_are_slugs (now : nat → N) (structure : JSON) (i : nat)
    (key : jsstring) (v : JSON) :
  Object_entries structure !! i = Some (key, v) →
  ∃ t, flattenStructureToTasks now structure !! i = Some t
       ∧ Forall (λ c, is_alnum c = true ∨ c = 45) (id t)
       ∧ (Forall (λ c, is_alnum c = false ∧ c ≠ 45 ∧ is_space c = false) key →
          id t = lit "chapter-" ++ Number_toString (now i) ++ [45]
                 ++ Number_toString (N.of_nat i)).
Proof.
  intros Hi. eexists. split.
  { unfold flattenStructureToTasks. by apply flatten_loop_lookup. }
  cbn [id]. unfold task_id. split.
  - rewrite !Forall_app. split_and!.
    + unfold or_else. destruct (nonempty (sanitizedKey key)).
      * unfold sanitizedKey, keep_alnum_hyphen. apply Forall_forall.
        intros c [Hc _]%list_elem_of_filter.
        apply orb_true_iff in Hc as [Hc|Hc]; [by left|].
        right. by apply N.eqb_eq.
      * apply (bool_decide_unpack _). vm_compute. exact I.
    + constructor; [by right|constructor].
    + eapply Forall_impl; [apply digits_alnum|]. by left.
    + constructor; [by right|constructor].
    + eapply Forall_impl; [apply digits_alnum|]. by left.
  - intros Hkey.
    assert (sanitizedKey key = []) as ->.
    { unfold sanitizedKey.
      rewrite replace_space_runs_no_space; [by apply keep_alnum_hyphen_none|].
      eapply Forall_impl; [exact Hkey|]. by intros c (_ & _ & ?). }
    done.
Qed.

Lemma task_ids_are_slugs_witness :
  Object_entries (JObject [([31532; 19968; 31456], JString (lit "x"))])
  !! 0%nat = Some ([31532; 19968; 31456], JString (lit "x"))
  ∧ ∃ t, flattenStructureToTasks sample_clock
           (JObject [([31532; 19968; 31456], JString (lit "x"))]) !! 0%nat
         = Some t
         ∧ id t = lit "chapter-1700000000000-0".
Proof.
  split; [reflexivity|].
  destruct (task_ids_are_slugs sample_clock
              (JObject [([31532; 19968; 31456], JString (lit "x"))]) 0
              [31532; 19968; 31456] (JString (lit "x")) eq_refl)
    as (t & Ht & _ & Hid).
  exists t. split; [exact Ht|].
  apply Hid. repeat constructor; done.
Defined.

Lemma flatten_loop_titles now order entries :
  title <$> flatten_loop now order entries = entries.*1.
Proof.
  revert order. induction entries as [|[k v] rest IH]; intros order; [done|].
  simpl. by rewrite IH.
Qed.

Lemma listed_before_irrefl (k : jsstring) : ¬ listed_before k k.
Proof.
  unfold listed_before. destruct (array_index k); [lia|].
  intros H. by apply H.
Qed.

Lemma each_before_later_NoDup (ks : list jsstring) :
  each_before_later ks → NoDup ks.
Proof.
  induction ks as [|k ks IH]; [constructor|].
  intros [Hk Hks]. constructor; [|by apply IH].
  intros Hin. rewrite Forall_forall in Hk.
  by apply (listed_before_irrefl k), Hk.
Qed.

Lemma index_names_NoDup {A} (l : list A) :
  NoDup (imap (λ i _, Number_toString (N.of_nat i)) l).
Proof.
  apply NoDup_alt. intros i j s.
  rewrite !list_lookup_imap.
  destruct (l !! i) as [x|] eqn:Hi; [|done].
  destruct (l !! j) as [y|] eqn:Hj; [|done]. simpl.
  intros [= <-] [= H%Number_toString_inj]. lia.
Qed.

Lemma Object_entries_keys_NoDup (structure : JSON) :
  own_order_inside structure = true → NoDup (Object_entries structure).*1.
Proof.
  destruct structure as [|b|x|s|l|ps]; simpl; try (intros _; constructor).
  - intros _. rewrite fmap_imap. apply index_names_NoDup.
  - intros _. rewrite fmap_imap. apply index_names_NoDup.
  - intros [H _]%andb_true_iff.
    by apply each_before_later_NoDup, in_own_order_nil.
Qed.

(** No two tasks of an outline that [parseJsonFromText] returned have the
    same title: of a name that the text repeats, [JSON.parse] keeps one
    entry.  And when the outline is an object, the names that are array
    indices come first, in ascending order, wherever the text had
    them. *)
Theorem parsed_outline_titles (text : jsstring) (structure : JSON)
    (now : nat → N) :
  parseJsonFromText text = Returns structure →
  NoDup (title <$> flattenStructureToTasks now structure)
  ∧ (∀ ps, structure = JObject ps →
       each_before_later (title <$> flattenStructureToTasks now structure)).
Proof.
  rewrite parseJsonFromText_unfenced.
  destruct (JSON_parse _) as [v|] eqn:Hparse; [|done].
  intros [= ->]. apply JSON_parse_own_order in Hparse.
  unfold flattenStructureToTasks. rewrite flatten_loop_titles. split.
  - by apply Object_entries_keys_NoDup.
  - intros ps ->. simpl in *.
    apply andb_true_iff in Hparse as [H _]. by apply in_own_order_nil.
Qed.

Lemma parsed_outline_titles_witness :
  let text := [123] ++ QuoteJSONString (lit "Intro") ++ lit ":"
              ++ QuoteJSONString (lit "a") ++ lit ","
              ++ QuoteJSONString (lit "2") ++ lit ":"
              ++ QuoteJSONString (lit "b") ++ lit ","
              ++ QuoteJSONString (lit "Intro") ++ lit ":"
              ++ QuoteJSONString (lit "c") ++ [125] in
  let structure := JObject [(lit "2", JString (lit "b"));
                            (lit "Intro", JString (lit "c"))] in
  parseJsonFromText text = Returns structure
  ∧ NoDup (title <$> flattenStructureToTasks sample_clock structure).
Proof.
  intros text structure.
  assert (parseJsonFromText text = Returns structure) as H
    by (vm_compute; reflexivity).
  split; [exact H|].
  exact (proj1 (parsed_outline_titles text structure sample_clock H)).
Defined.

(** ** A code block with nothing inside *)

Lemma trim_between (pre s post : jsstring) (c d : N) (s' : jsstring) :
  all_space pre → all_space post →
  s = c :: s' → is_space c = false → last s = Some d → is_space d = false →
  trim (pre ++ s ++ post) = s.
Proof.
  intros Hpre Hpost Hs Hc Hl Hd. unfold trim, trimStart, trimEnd.
  rewrite drop_while_all by done.
  assert (drop_while is_space (s ++ post) = s ++ post) as ->.
  { rewrite Hs, <- app_comm_cons. by apply drop_while_stop. }
  rewrite reverse_app, drop_while_all by (by apply Forall_reverse).
  apply trimEnd_fixed. unfold ends_nonspace. by rewrite Hl.
Qed.

Lemma space_is_no_word (c : N) : is_space c = true → is_word c = false.
Proof.
  unfold is_space, is_word, is_alnum. intros H.
  repeat (apply orb_true_iff in H as [H|H]);
    repeat match goal with
           | H : _ && _ = true |- _ => apply andb_true_iff in H as [? ?]
           | H : (_ =? _) = true |- _ => apply N.eqb_eq in H
           | H : (_ <=? _) = true |- _ => apply N.leb_le in H
           end;
    repeat (apply orb_false_iff; split);
    first [apply andb_false_iff; first [left; apply N.leb_gt; lia
                                       |right; apply N.leb_gt; lia]
          |apply N.eqb_neq; lia].
Qed.

Lemma JSON_parse_backtick (r : jsstring) : JSON_parse (96 :: r) = None.
Proof. reflexivity. Qed.

(** A reply that is a code block with nothing inside, or with white space
    alone, is not parsed without its fences: the second group of the
    pattern is empty, which line 26 takes as no match, so the text goes
    to [JSON.parse] with its fences and the call throws. *)
Theorem empty_code_block_is_invalid (pre tag ws post : jsstring) :
  all_space pre → Forall (λ c, is_word c = true) tag → all_space ws →
  all_space post →
  parseJsonFromText (pre ++ fence ++ tag ++ ws ++ fence ++ post)
  = Throws (ThrownError invalid_json_message).
Proof.
  intros Hpre Htag Hws Hpost.
  rewrite parseJsonFromText_unfenced.
  set (s := fence ++ tag ++ ws ++ fence).
  assert (trim (pre ++ fence ++ tag ++ ws ++ fence ++ post) = s) as ->.
  { replace (pre ++ fence ++ tag ++ ws ++ fence ++ post)
      with (pre ++ s ++ post) by (unfold s; by rewrite <- !app_assoc).
    apply (trim_between pre s post 96 96 ([96; 96] ++ tag ++ ws ++ fence));
      [done|done|done|done| |done].
    replace s with ((fence ++ tag ++ ws ++ [96; 96]) ++ [96])
      by (unfold s, fence; by rewrite <- !app_assoc).
    apply last_snoc. }
  assert (unfenced s = s) as ->.
  { unfold unfenced.
    rewrite (proj2 (between_fences_Some s (tag ++ ws)))
      by (unfold s; by rewrite <- !app_assoc).
    rewrite drop_while_all by done.
    assert (drop_while is_word ws = ws) as ->.
    { destruct Hws as [|c ws Hc _]; [done|].
      apply drop_while_stop. by apply space_is_no_word. }
    assert (trim ws = []) as ->; [|done].
    unfold trim, trimStart.
    rewrite <- (app_nil_r ws), drop_while_all by done. done. }
  unfold s, fence. by rewrite <- !app_comm_cons, JSON_parse_backtick.
Qed.

Lemma empty_code_block_is_invalid_witness :
  parseJsonFromText (lit " ```json" ++ [10; 10] ++ lit "``` ")
  = Throws (ThrownError invalid_json_message).
Proof.
  apply (empty_code_block_is_invalid (lit " ") (lit "json") [10; 10] (lit " "));
    repeat constructor.
Defined.

(** ** [UserInputPane.tsx]: the drop-downs and the labels *)

Definition presets_of (type : ModalType) : list (jsstring * N) :=
  match type with
  | type_length => CONTENT_LENGTH_PRESETS
  | type_level => READING_LEVEL_PRESETS
  end.

Lemma find_preset_Some (ps : list (jsstring * N)) (key : jsstring) (v : N) :
  NoDup ps.*2 → (key, v) ∈ ps →
  ∃ i, list_find (λ entry, entry.2 = v) ps = Some (i, (key, v)).
Proof.
  intros Hnd (i & Hi)%list_elem_of_lookup_1. exists i.
  apply list_find_Some. split_and!; [done|done|].
  intros j [k' v'] Hj Hlt Hv. simpl in Hv. subst v'.
  assert (i = j); [|lia].
  eapply NoDup_lookup; [exact Hnd|..]; rewrite list_lookup_fmap.
  - by rewrite Hi.
  - by rewrite Hj.
Qed.

Lemma find_preset_None (ps : list (jsstring * N)) (v : N) :
  list_find (λ entry, entry.2 = v) ps = None ↔ v ∉ ps.*2.
Proof.
  rewrite list_find_None, Forall_forall. split.
  - intros H ([k v'] & -> & Hin)%list_elem_of_fmap. by apply (H _ Hin).
  - intros H [k v'] Hin Hv. apply H. apply list_elem_of_fmap.
    exists (k, v'). split; [by rewrite <- Hv|done].
Qed.

(** The drop-down shows a preset exactly when the current value is the
    value of that preset, and "custom" for every other value: choosing a
    preset and reading the drop-down back gives the preset chosen. *)
Theorem getDropdownValue_presets (type : ModalType) :
  (∀ key v, (key, v) ∈ presets_of type → getDropdownValue type v = key)
  ∧ (∀ v, getDropdownValue type v = lit "custom" ↔ v ∉ (presets_of type).*2).
Proof.
  assert (∀ v, getDropdownValue type v
               = match list_find (λ entry, entry.2 = v) (presets_of type) with
                 | Some (_, (key, _)) => key
                 | None => lit "custom"
                 end) as Hdef by (by destruct type).
  assert (NoDup (presets_of type).*2) as Hnd
    by (destruct type; apply (bool_decide_unpack _); vm_compute; exact I).
  assert (lit "custom" ∉ (presets_of type).*1) as Hcustom
    by (destruct type; apply (bool_decide_unpack _); vm_compute; exact I).
  split.
  - intros key v Hin. rewrite Hdef.
    by destruct (find_preset_Some _ _ _ Hnd Hin) as (i & ->).
  - intros v. rewrite Hdef, <- find_preset_None.
    destruct (list_find _ _) as [[i [key v']]|] eqn:Hf; [|done].
    split; [|done]. intros ->. exfalso. apply Hcustom.
    apply list_find_Some in Hf as (Hi & _).
    apply list_elem_of_fmap. exists (lit "custom", v').
    split; [done|]. by eapply list_elem_of_lookup_2.
Qed.

Lemma getDropdownValue_presets_witness :
  (lit "medium", 7000) ∈ presets_of type_length
  ∧ getDropdownValue type_length 7000 = lit "medium"
  ∧ getDropdownValue type_length 7100 = lit "custom".
Proof.
  assert ((lit "medium", 7000) ∈ presets_of type_length) as Hin.
  { apply elem_of_cons. right. apply elem_of_cons. by left. }
  split; [exact Hin|]. split.
  - exact (proj1 (getDropdownValue_presets type_length) _ _ Hin).
  - apply (proj2 (getDropdownValue_presets type_length)).
    apply (bool_decide_unpack _). vm_compute. exact I.
Defined.

Lemma closer_cases (val : N) (closest item : ValueMapItem) :
  let c := closer val closest item in
  (c = closest ∨ c = item)
  ∧ distance (value c) val ≤ distance (value closest) val
  ∧ distance (value c) val ≤ distance (value item) val
  ∧ (distance (value item) val = distance (value c) val →
     value item ≤ val → value c ≤ val)
  ∧ (distance (value closest) val = distance (value c) val →
     value closest ≤ val → value c ≤ val).
Proof.
  unfold closer.
  destruct (distance (value item) val <? distance (value closest) val) eqn:E1.
  - apply N.ltb_lt in E1. rewrite N.eqb_refl. simpl.
    destruct (value item <=? val) eqn:E2.
    + apply N.leb_le in E2. split_and!; [by right|lia|lia|done|done].
    + apply N.leb_gt in E2. split_and!; [by right|lia|lia|done|lia].
  - apply N.ltb_ge in E1.
    destruct (distance (value item) val =? distance (value closest) val) eqn:E3;
      simpl.
    + apply N.eqb_eq in E3. destruct (value item <=? val) eqn:E2.
      * apply N.leb_le in E2. split_and!; [by right|lia|lia|done|done].
      * apply N.leb_gt in E2. split_and!; [by left|lia|lia|lia|done].
    + apply N.eqb_neq in E3. split_and!; [by left|lia|lia|lia|done].
Qed.

Lemma closest_spec (val : N) (vMap : list ValueMapItem) (c0 : ValueMapItem) :
  let c := fold_left (closer val) vMap c0 in
  (c = c0 ∨ c ∈ vMap)
  ∧ (∀ o, o = c0 ∨ o ∈ vMap →
       distance (value c) val ≤ distance (value o) val
       ∧ (distance (value o) val = distance (value c) val →
          value o ≤ val → value c ≤ val)).
Proof.
  revert c0. induction vMap as [|x l IH]; intros c0; simpl.
  { split; [by left|]. intros o [->|H]; [done|by apply elem_of_nil in H]. }
  destruct (IH (closer val c0 x)) as (Hin & Hmin).
  destruct (closer_cases val c0 x) as (Hc & Hd0 & Hdx & Htx & Ht0).
  set (c1 := closer val c0 x) in *. set (c := fold_left (closer val) l c1) in *.
  destruct (Hmin c1 (or_introl eq_refl)) as [Hd1 Ht1].
  split.
  - destruct Hin as [->|Hin].
    + destruct Hc as [->| ->]; [by left|right; by apply elem_of_cons; left].
    + right. by apply elem_of_cons; right.
  - intros o [->|[->|Ho]%elem_of_cons].
    + split; [lia|]. intros Heq Hle. apply Ht1; [lia|]. apply Ht0; [lia|done].
    + split; [lia|]. intros Heq Hle. apply Ht1; [lia|]. apply Htx; [lia|done].
    + by apply Hmin; right.
Qed.

(** The label of a level.  A level of the map has its own label, that of
    the first item with this value.  Any other level is labelled after
    an item of the map at the least distance from it and, when an item
    below and an item above are equally near, after one below.  On an
    empty map the formatter of the modal throws; and on the map of the
    source it gives the label that [getReadingLevelLabel] gives. *)
Theorem reading_level_labels (val : N) :
  valueLabelFormatter val [] = None
  ∧ (∀ vMap i item,
       list_find (λ item, value item = val) vMap = Some (i, item) →
       valueLabelFormatter val vMap = Some (label item))
  ∧ (∀ vMap, vMap ≠ [] → val ∉ (value <$> vMap) →
       ∃ c, c ∈ vMap
            ∧ valueLabelFormatter val vMap = Some (approximate_label c val)
            ∧ ∀ o, o ∈ vMap →
                distance (value c) val ≤ distance (value o) val
                ∧ (distance (value o) val = distance (value c) val →
                   value o ≤ val → value c ≤ val))
  ∧ valueLabelFormatter val READING_LEVEL_DESCRIPTIVE_MAP
    = Some (getReadingLevelLabel val).
Proof.
  split_and!.
  - done.
  - intros vMap i item Hf. unfold valueLabelFormatter. by rewrite Hf.
  - intros vMap Hne Hval. unfold valueLabelFormatter.
    assert (list_find (λ item, value item = val) vMap = None) as ->.
    { apply list_find_None, Forall_forall. intros x Hx Hv. apply Hval.
      apply list_elem_of_fmap. by exists x. }
    destruct vMap as [|c0 l]; [done|]. cbn [head fmap option_fmap option_map].
    destruct (closest_spec val (c0 :: l) c0) as (Hin & Hmin).
    exists (fold_left (closer val) (c0 :: l) c0). split_and!.
    + destruct Hin as [->|Hin]; [by apply elem_of_cons; left|done].
    + done.
    + intros o Ho. by apply Hmin; right.
  - unfold valueLabelFormatter, getReadingLevelLabel.
    by destruct (list_find _ _) as [[i found]|].
Qed.

Lemma reading_level_labels_witness :
  list_find (λ item, value item = 7) READING_LEVEL_DESCRIPTIVE_MAP
  = Some (3%nat, mkItem 7 (lit "High School"))
  ∧ valueLabelFormatter 7 READING_LEVEL_DESCRIPTIVE_MAP
    = Some (lit "High School")
  ∧ READING_LEVEL_DESCRIPTIVE_MAP ≠ []
  ∧ (6 ∉ (value <$> READING_LEVEL_DESCRIPTIVE_MAP))
  ∧ (∃ c, c ∈ READING_LEVEL_DESCRIPTIVE_MAP
          ∧ valueLabelFormatter 6 READING_LEVEL_DESCRIPTIVE_MAP
            = Some (approximate_label c 6)).
Proof.
  assert (6 ∉ (value <$> READING_LEVEL_DESCRIPTIVE_MAP)) as H6
    by (apply (bool_decide_unpack _); vm_compute; exact I).
  split; [reflexivity|]. split.
  - exact (proj1 (proj2 (reading_level_labels 7))
             READING_LEVEL_DESCRIPTIVE_MAP 3%nat (mkItem 7 (lit "High School"))
             eq_refl).
  - split; [done|]. split; [exact H6|].
    destruct (proj1 (proj2 (proj2 (reading_level_labels 6)))
                READING_LEVEL_DESCRIPTIVE_MAP ltac:(done) H6)
      as (c & Hc & Hl & _).
    exists c. by split.
Defined.

(** Between two levels of the source the lower one gives the label. *)
Example getReadingLevelLabel_samples :
  getReadingLevelLabel 5 = lit "Standard"
  ∧ getReadingLevelLabel 6 = lit "~Standard (Level 6/10)"
  ∧ getReadingLevelLabel 3 = lit "~Kindergarten (Level 3/10)"
  ∧ getReadingLevelLabel 1 = lit "~Kindergarten (Level 1/10)"
  ∧ getReadingLevelLabel 12 = lit "~Graduate School (Level 12/10)".
Proof. by_evaluation. Qed.

(** ** Starting over *)

(** The updates a call of [handleGenerateChapterContent] and the start
    button enqueue: none of them brings a task, an outline or a step. *)
Definition keeps_reset (u : Update) : Prop :=
  match u with
  | setChapterTasksWith _ _ | setError _ | setIsAutoGeneratingChapters _
  | setActivelyGeneratingChapterId _ => True
  | _ => False
  end.

Definition is_reset (s : AppState) : Prop :=
  currentStep s = USER_INPUT ∧ userInputs s = None ∧ bookTitle s = None
  ∧ bookStructure s = None ∧ chapterTasks s = [].

Lemma keeps_reset_queue ρ q s :
  Forall keeps_reset q → is_reset s → is_reset (apply_queue ρ q s).
Proof.
  revert s. induction q as [|u q IH]; intros s Hq Hs; [done|].
  apply Forall_cons_1 in Hq as [Hu Hq]. unfold apply_queue in *. simpl.
  apply IH; [done|]. destruct Hs as (H1 & H2 & H3 & H4 & H5).
  destruct u as [| | | |v|f [r|]| | | | |]; simpl in *; try done;
    unfold is_reset; simpl; unfold apply_updater; by rewrite H5.
Qed.

Lemma reset_effects_inert now m :
  is_reset (rendered m) → autoAdvanceEffect (reflattenEffect now m) = m.
Proof.
  intros (H1 & _ & _ & H4 & _).
  unfold reflattenEffect. rewrite H4.
  unfold autoAdvanceEffect. by rewrite H1.
Qed.

Lemma keeps_reset_step m e m' :
  is_reset (rendered m) → Forall keeps_reset (queue m) →
  step m e = Some m' →
  is_reset (rendered m') ∧ Forall keeps_reset (queue m').
Proof.
  intros Hs Hq.
  destruct e as [now| |taskId text eager|taskId|taskId err eager]; simpl.
  - intros [= <-]. unfold render.
    rewrite reset_effects_inert; simpl; [|by apply keeps_reset_queue].
    split; [by apply keeps_reset_queue|constructor].
  - intros [= <-]. split; [done|]. simpl.
    apply Forall_app. split; [done|]. by repeat constructor.
  - destruct (find_call taskId m); [|done]. intros [= <-].
    destruct text as [textChunk|]; [|done]. simpl.
    destruct (dispatch_cases eager (show_buffer taskId)
                (set_ref (generatingChapterContentRef m ++ textChunk) m))
      as (a & -> & _).
    split; [done|]. simpl. apply Forall_app. split; [done|].
    by repeat constructor.
  - destruct (find_call taskId m) as [[i c]|]; [|done]. intros [= <-].
    unfold on_end.
    destruct (dispatch_cases false
                (commit_done taskId
                   (trim (or_else (generatingChapterContentRef m) []))) m)
      as (a & -> & _).
    split; [done|]. simpl. rewrite <- app_assoc.
    apply Forall_app. split; [done|]. by repeat constructor.
  - destruct (find_call taskId m) as [[i c]|]; [|done]. intros [= <-].
    unfold on_fail.
    destruct (dispatch_cases eager
                (mark_error (call_taskId c) (message_of err)) m)
      as (a & -> & _).
    split; [done|]. simpl. rewrite <- app_assoc.
    apply Forall_app. split; [done|]. by repeat constructor.
Qed.

(** Starting over ([resetState], from the book view or from the outline
    pane) leaves nothing of the previous book at the next render,
    whatever updates were waiting; and nothing that happens afterwards to
    a call that was still suspended brings a task back: its updates map
    over the empty list. *)
Theorem reset_is_final (m : Machine) (now : nat → N) (evs : list Event)
    (m' : Machine) :
  let fresh := mkApp USER_INPUT None None None [] None false false None in
  (∀ m0, m0 = render now (resetState m) ∨ m0 = render now (goBackToInputs m) →
     rendered m0 = fresh (apiKeyMissing (rendered m0))
     ∧ queue m0 = [] ∧ generatingChapterContentRef m0 = [])
  ∧ (run (render now (resetState m)) evs = Some m' →
     currentStep (rendered m') = USER_INPUT
     ∧ bookStructure (rendered m') = None
     ∧ chapterTasks (rendered m') = []).
Proof.
  intros fresh.
  set (resets := [setUserInputs None; setBookTitle None; setBookStructure None;
                  setChapterTasks []; setError None; setCurrentStep USER_INPUT;
                  setIsLoading false; setIsAutoGeneratingChapters false;
                  setActivelyGeneratingChapterId None]).
  assert (∀ extra, Forall (λ u, u = setCurrentStep USER_INPUT) extra →
            let m0 := render now
                        (mkMachine (rendered m) (queue m ++ resets ++ extra) []
                                   (inflight m) (requests m)) in
            rendered m0 = fresh (apiKeyMissing (rendered m0))
            ∧ queue m0 = [] ∧ generatingChapterContentRef m0 = []) as Hreset.
  { intros extra Hextra m0. unfold m0, render.
    set (s1 := next_state _).
    assert (s1 = fresh (apiKeyMissing
                          (apply_queue [] (queue m) (rendered m)))) as Hs1.
    { unfold s1, next_state. simpl.
      rewrite !apply_queue_app. simpl.
      induction Hextra as [|u extra -> _ IH]; [done|].
      simpl. exact IH. }
    rewrite reset_effects_inert by (simpl; by rewrite Hs1).
    simpl. split_and!; [|done|done]. by rewrite Hs1. }
  assert (resetState m
          = mkMachine (rendered m) (queue m ++ resets ++ []) []
                      (inflight m) (requests m)) as Hrs
    by (by rewrite app_nil_r).
  assert (goBackToInputs m
          = mkMachine (rendered m)
                      (queue m ++ resets ++ [setCurrentStep USER_INPUT]) []
                      (inflight m) (requests m)) as Hgb.
  { unfold goBackToInputs, resetState, enqueue, set_ref. simpl.
    by rewrite <- app_assoc. }
  split.
  - intros m0 [->| ->].
    + rewrite Hrs. apply (Hreset []). constructor.
    + rewrite Hgb. apply (Hreset [setCurrentStep USER_INPUT]).
      by repeat constructor.
  - rewrite Hrs.
    destruct (Hreset [] ltac:(constructor)) as (Hr & Hq & _).
    set (m0 := render now _) in *.
    assert (is_reset (rendered m0)) as Hs by (by rewrite Hr).
    assert (Forall keeps_reset (queue m0)) as Hk by (rewrite Hq; constructor).
    clearbody m0. clear Hr Hq. revert m0 Hs Hk.
    induction evs as [|e evs IH]; intros m0 Hs Hk; simpl.
    + intros [= <-]. by destruct Hs as (? & _ & _ & ? & ?).
    + destruct (step m0 e) as [m1|] eqn:He; [|done].
      destruct (keeps_reset_step _ _ _ Hs Hk He) as [Hs1 Hk1].
      by apply IH.
Qed.

(** A stream is running when the user starts over; it fails later. *)
Definition sample_running : Machine :=
  render sample_clock
    (startAutomaticChapterGeneration
       (entered sample_inputs sample_outline sample_clock)).

Lemma reset_is_final_witness :
  ∃ m',
    run (render sample_clock (resetState sample_running))
        [Chunk (lit "Ch1-1700000000000-0") (Some (lit "Hello")) false;
         StreamFail (lit "Ch1-1700000000000-0") (ThrownError (lit "quota"))
           false;
         Render sample_clock] = Some m'
    ∧ currentStep (rendered m') = USER_INPUT
    ∧ bookStructure (rendered m') = None
    ∧ chapterTasks (rendered m') = [].
Proof.
  eexists.
  assert (∀ (A B : Prop), A → (A → B) → A ∧ B) as cut by tauto.
  apply cut.
  - vm_compute. reflexivity.
  - apply (reset_is_final sample_running sample_clock).
Defined.

(** ** The outline request and the outline page *)

(** The state that the handler's first updates lead to. *)
Definition outline_requested (inputs : UserInputs) (s : AppState) : Prop :=
  currentStep s = GENERATING_OUTLINE ∧ userInputs s = Some inputs
  ∧ isLoading s = true ∧ appError s = None ∧ bookStructure s = None
  ∧ bookTitle s = None ∧ chapterTasks s = [].

Lemma submit_begin_next inputs m :
  apiKeyMissing (rendered m) = false →
  outline_requested inputs (next_state (submit_begin inputs m)).
Proof.
  intros Hkey. unfold submit_begin. rewrite Hkey.
  unfold next_state. simpl. by rewrite apply_queue_app.
Qed.

(** The handler has passed its first [await], with or without a render
    since its first updates. *)
Definition outline_awaited (inputs : UserInputs) (m m0 : Machine) : Prop :=
  m0 = submit_begin inputs m ∨ ∃ now0, m0 = render now0 (submit_begin inputs m).

Lemma outline_awaited_next inputs m m0 us :
  apiKeyMissing (rendered m) = false → outline_awaited inputs m m0 →
  ∃ s, outline_requested inputs s
       ∧ next_state (enqueue us m0)
         = apply_queue (generatingChapterContentRef m) us s
       ∧ generatingChapterContentRef m0 = generatingChapterContentRef m
       ∧ inflight m0 = inflight m ∧ requests m0 = requests m.
Proof.
  intros Hkey Hm0. pose proof (submit_begin_next inputs m Hkey) as Hreq.
  assert (generatingChapterContentRef (submit_begin inputs m)
          = generatingChapterContentRef m
          ∧ inflight (submit_begin inputs m) = inflight m
          ∧ requests (submit_begin inputs m) = requests m) as (Hρ & Hi & Hr).
  { unfold submit_begin. by rewrite Hkey. }
  exists (next_state (submit_begin inputs m)). split; [done|].
  destruct Hm0 as [->|(now0 & ->)].
  - split; [|done]. unfold next_state. simpl.
    by rewrite apply_queue_app, Hρ.
  - rewrite render_outline_phase by (by destruct Hreq).
    split; [|done]. unfold next_state at 1. simpl. by rewrite Hρ.
Qed.

Lemma outline_message_queue ρ err s :
  let s' := apply_queue ρ (outline_catch err ++ [setIsLoading false]) s in
  currentStep s' = USER_INPUT
  ∧ appError s' = Some match err with
                       | ThrownError message => message
                       | ThrownOther =>
                           lit "Failed to generate outline or title."
                       end
  ∧ isLoading s' = false
  ∧ bookStructure s' = bookStructure s ∧ bookTitle s' = bookTitle s
  ∧ chapterTasks s' = chapterTasks s ∧ userInputs s' = userInputs s.
Proof. done. Qed.

Lemma input_page_effects_inert now m :
  currentStep (rendered m) = USER_INPUT →
  autoAdvanceEffect (reflattenEffect now m) = m.
Proof.
  intros H.
  assert (reflattenEffect now m = m) as ->.
  { unfold reflattenEffect. rewrite H.
    destruct (bookStructure (rendered m)); [|done]. simpl.
    by rewrite andb_false_r. }
  unfold autoAdvanceEffect. by rewrite H.
Qed.

(** When the outline stream fails, or the title request after the
    outline was parsed, the workflow is back at the input stage with the
    message of the error (a fixed message for what is no [Error]) and
    nothing more to render.  After a failed stream no outline is set;
    after a failed title request the outline that was parsed stays in
    the state. *)
Theorem outline_request_failure (inputs : UserInputs)
    (chunks : list (option jsstring)) (err : Thrown) (m m0 : Machine)
    (now : nat → N) :
  apiKeyMissing (rendered m) = false → outline_awaited inputs m m0 →
  let message := match err with
                 | ThrownError message => message
                 | ThrownOther => lit "Failed to generate outline or title."
                 end in
  let back (m' : Machine) (structure : option JSON) :=
    currentStep (rendered m') = USER_INPUT
    ∧ appError (rendered m') = Some message
    ∧ isLoading (rendered m') = false
    ∧ bookStructure (rendered m') = structure
    ∧ bookTitle (rendered m') = None
    ∧ chapterTasks (rendered m') = []
    ∧ userInputs (rendered m') = Some inputs
    ∧ queue m' = [] in
  (∀ title, back (render now (submit_settle chunks (Throws err) title m0)) None)
  ∧ (∀ structure,
       parseJsonFromText (accumulatedStructure chunks) = Returns structure →
       back (render now (submit_settle chunks (Returns ()) (Throws err) m0))
            (Some structure)).
Proof.
  intros Hkey Hm0 message back.
  assert (∀ us structure,
            (us = [] ∧ structure = None
             ∨ ∃ v, us = [setBookStructure (Some v)] ∧ structure = Some v) →
            back (render now
                    (enqueue (us ++ outline_catch err ++ [setIsLoading false])
                       m0)) structure) as Hback.
  { intros us structure Hus.
    destruct (outline_awaited_next inputs m m0
                (us ++ outline_catch err ++ [setIsLoading false]) Hkey Hm0)
      as (s & (H1 & H2 & H3 & H4 & H5 & H6 & H7) & Hnext & _).
    unfold render. rewrite input_page_effects_inert.
    2: { cbn [rendered]. rewrite Hnext, apply_queue_app.
         apply outline_message_queue. }
    unfold back. cbn [rendered queue]. rewrite Hnext, apply_queue_app.
    set (s1 := apply_queue _ us s).
    destruct (outline_message_queue (generatingChapterContentRef m) err s1)
      as (-> & -> & -> & -> & -> & -> & ->).
    unfold s1. destruct Hus as [[-> ->]|(v & -> & ->)]; by simpl. }
  split.
  - intros title. apply (Hback [] None). by left.
  - intros structure Hparse. unfold submit_settle. rewrite Hparse.
    apply (Hback [setBookStructure (Some structure)] (Some structure)).
    right. by exists structure.
Qed.

Lemma outline_request_failure_witness :
  let chunks := [Some (JSON_stringify sample_outline)] in
  let m0 := submit_begin sample_inputs fresh_component in
  let m' := render sample_clock
              (submit_settle chunks (Returns ()) (Throws ThrownOther) m0) in
  apiKeyMissing (rendered fresh_component) = false
  ∧ outline_awaited sample_inputs fresh_component m0
  ∧ parseJsonFromText (accumulatedStructure chunks) = Returns sample_outline
  ∧ currentStep (rendered m') = USER_INPUT
  ∧ appError (rendered m') = Some (lit "Failed to generate outline or title.")
  ∧ bookStructure (rendered m') = Some sample_outline.
Proof.
  intros chunks m0 m'.
  assert (parseJsonFromText (accumulatedStructure chunks)
          = Returns sample_outline) as Hparse by (vm_compute; reflexivity).
  assert (outline_awaited sample_inputs fresh_component m0) as Hm0
    by (by left).
  split; [reflexivity|]. split; [exact Hm0|]. split; [exact Hparse|].
  destruct (proj2 (outline_request_failure sample_inputs chunks ThrownOther
                     fresh_component m0 sample_clock eq_refl Hm0)
              sample_outline Hparse)
    as (H1 & H2 & _ & H4 & _).
  split; [exact H1|]. split; [exact H2|exact H4].
Defined.

Lemma forallb_pending (l : list ChapterTask) :
  (∀ t, t ∈ l → status t = pending) →
  forallb (λ t, bool_decide (status t = pending)) l = true.
Proof.
  intros H. apply forallb_forall. intros t Ht%list_elem_of_In.
  apply bool_decide_eq_true. by apply H.
Qed.

(** A render that shows the outline page with a list of pending tasks, or
    with none, asks for a new flattening. *)
Lemma render_outline_review now m structure :
  currentStep (next_state m) = OUTLINE_REVIEW →
  bookStructure (next_state m) = Some structure → truthy structure = true →
  (∀ t, t ∈ chapterTasks (next_state m) → status t = pending) →
  render now m
  = mkMachine (next_state m)
      [setChapterTasks (flattenStructureToTasks now structure)]
      (generatingChapterContentRef m) (inflight m) (requests m).
Proof.
  intros Hstep Hbs Htruthy Hpending. unfold render.
  set (m1 := mkMachine _ _ _ _ _).
  assert (reflattenEffect now m1
          = enqueue [setChapterTasks (flattenStructureToTasks now structure)]
              m1) as ->.
  { unfold reflattenEffect. simpl. rewrite Hbs, Htruthy, Hstep. simpl.
    by rewrite forallb_pending, orb_true_r. }
  unfold autoAdvanceEffect. simpl. by rewrite Hstep.
Qed.

Definition renders (nows : list (nat → N)) (m : Machine) : Machine :=
  fold_left (λ m now, render now m) nows m.

(** The outline page never comes to rest.  The render that follows a
    successful outline request shows the page without tasks and asks for
    the flattening of the outline; every later render shows the list
    that the render before it asked for, all its tasks pending, and asks
    for a new one, with the identifiers of its own reading of the
    clock. *)
Theorem outline_review_reflattens_at_every_render (inputs : UserInputs)
    (chunks : list (option jsstring)) (structure : JSON) (title : jsstring)
    (m m0 : Machine) (now : nat → N) :
  apiKeyMissing (rendered m) = false → outline_awaited inputs m m0 →
  parseJsonFromText (accumulatedStructure chunks) = Returns structure →
  truthy structure = true →
  let m1 := render now (submit_settle chunks (Returns ()) (Returns title) m0) in
  (currentStep (rendered m1) = OUTLINE_REVIEW
   ∧ bookStructure (rendered m1) = Some structure
   ∧ bookTitle (rendered m1) = Some title
   ∧ isLoading (rendered m1) = false ∧ appError (rendered m1) = None
   ∧ chapterTasks (rendered m1) = []
   ∧ queue m1 = [setChapterTasks (flattenStructureToTasks now structure)])
  ∧ ∀ nows now',
      let before := last (now :: nows) in
      let m' := renders (nows ++ [now']) m1 in
      currentStep (rendered m') = OUTLINE_REVIEW
      ∧ Some (chapterTasks (rendered m'))
        = (λ now, flattenStructureToTasks now structure) <$> before
      ∧ queue m' = [setChapterTasks (flattenStructureToTasks now' structure)].
Proof.
  intros Hkey Hm0 Hparse Htruthy m1.
  set (us := [setBookStructure (Some structure); setBookTitle (Some title);
              setCurrentStep OUTLINE_REVIEW; setIsLoading false]).
  destruct (outline_awaited_next inputs m m0 us Hkey Hm0)
    as (s & (H1 & H2 & H3 & H4 & H5 & H6 & H7) & Hnext & Hρ & Hi & Hr).
  assert (submit_settle chunks (Returns ()) (Returns title) m0
          = enqueue us m0) as Hsettle
    by (unfold submit_settle; by rewrite Hparse).
  assert (m1 = mkMachine (apply_queue (generatingChapterContentRef m) us s)
                 [setChapterTasks (flattenStructureToTasks now structure)]
                 (generatingChapterContentRef m) (inflight m) (requests m))
    as Hm1.
  { unfold m1. rewrite Hsettle.
    rewrite (render_outline_review now _ structure); rewrite ?Hnext.
    - simpl. by rewrite Hρ, Hi, Hr.
    - done.
    - done.
    - done.
    - simpl. rewrite H7. intros t Ht. by apply elem_of_nil in Ht. }
  split; [by rewrite Hm1; simpl; rewrite ?H4, ?H7|].
  assert (∀ nows mk nowk,
            currentStep (rendered mk) = OUTLINE_REVIEW →
            bookStructure (rendered mk) = Some structure →
            queue mk
            = [setChapterTasks (flattenStructureToTasks nowk structure)] →
            ∀ now',
              let m' := renders (nows ++ [now']) mk in
              currentStep (rendered m') = OUTLINE_REVIEW
              ∧ Some (chapterTasks (rendered m'))
                = (λ now, flattenStructureToTasks now structure)
                    <$> last (nowk :: nows)
              ∧ queue m'
                = [setChapterTasks (flattenStructureToTasks now' structure)])
    as Hloop.
  { induction nows as [|n nows IH]; intros mk nowk Hstep Hbs Hq now'.
    - simpl. rewrite (render_outline_review now' mk structure);
        unfold next_state; rewrite ?Hq; simpl; try done.
      intros t Ht.
      by eapply flatten_loop_pending.
    - change (renders ((n :: nows) ++ [now']) mk)
        with (renders (nows ++ [now']) (render n mk)).
      rewrite last_cons_cons.
      assert (render n mk
              = mkMachine (next_state mk)
                  [setChapterTasks (flattenStructureToTasks n structure)]
                  (generatingChapterContentRef mk) (inflight mk)
                  (requests mk)) as ->.
      { apply render_outline_review; unfold next_state; rewrite ?Hq; simpl;
          try done.
        intros t Ht. by eapply flatten_loop_pending. }
      apply IH; unfold next_state; rewrite ?Hq; simpl; done. }
  intros nows now'. apply (Hloop nows m1 now); by rewrite Hm1.
Qed.

Lemma outline_review_reflattens_witness :
  let chunks := [Some (JSON_stringify sample_outline)] in
  let m0 := submit_begin sample_inputs fresh_component in
  let m1 := render sample_clock
              (submit_settle chunks (Returns ()) (Returns (lit "A title")) m0) in
  let m3 := renders [sample_clock; sample_clock] m1 in
  apiKeyMissing (rendered fresh_component) = false
  ∧ outline_awaited sample_inputs fresh_component m0
  ∧ parseJsonFromText (accumulatedStructure chunks) = Returns sample_outline
  ∧ truthy sample_outline = true
  ∧ chapterTasks (rendered m1) = []
  ∧ Some (chapterTasks (rendered m3))
    = Some (flattenStructureToTasks sample_clock sample_outline)
  ∧ queue m3
    = [setChapterTasks (flattenStructureToTasks sample_clock sample_outline)].
Proof.
  intros chunks m0 m1 m3.
  assert (parseJsonFromText (accumulatedStructure chunks)
          = Returns sample_outline) as Hparse by (vm_compute; reflexivity).
  assert (outline_awaited sample_inputs fresh_component m0) as Hm0
    by (by left).
  split; [reflexivity|]. split; [exact Hm0|]. split; [exact Hparse|].
  split; [reflexivity|].
  destruct (outline_review_reflattens_at_every_render sample_inputs chunks
              sample_outline (lit "A title") fresh_component m0 sample_clock
              eq_refl Hm0 Hparse eq_refl)
    as ((_ & _ & _ & _ & _ & H1 & _) & Hloop).
  split; [exact H1|].
  destruct (Hloop [sample_clock] sample_clock) as (_ & H2 & H3).
  split; [exact H2|exact H3].
Defined.

(** ** What the chapter pane shows during a run *)

(** The active id names the task that is generating, and no other task
    is generating. *)
Definition active_generates (s : AppState) : Prop :=
  (∀ t, t ∈ chapterTasks s →
     activelyGeneratingChapterId s = Some (id t) ↔ status t = generating)
  ∧ (truthy_str (activelyGeneratingChapterId s) = true →
     ∃ t, t ∈ chapterTasks s ∧ activelyGeneratingChapterId s = Some (id t)).

Lemma active_generates_render structure now m evs :
  Inv structure m evs → active_generates (rendered (render now m)).
Proof.
  intros [Hs Hph]. unfold render.
  rewrite rendered_autoAdvanceEffect, rendered_reflattenEffect.
  cbn [rendered]. unfold next_state, active_generates.
  set (ρ := generatingChapterContentRef m).
  destruct Hph as [(_ & _ & Hq & Hact & Hset)
                  |(id0 & i & t0 & Haim & Hi & Hid & Hst & Hset & Hph)].
  - destruct (quiet_queue_frame ρ _ _ Hq) as [-> ->].
    rewrite Forall_forall in Hset. split.
    + intros t Ht. split.
      * intros Ha. rewrite Ha in Hact. simpl in Hact.
        pose proof (st_ids _ _ Hs t Ht). by destruct (id t).
      * intros Hg. by destruct (Hset t Ht) as (H & _); specialize (H Hg).
    + by rewrite Hact.
  - rewrite (tasks_apply_queue ρ _ _ (aims_at_replaces_nothing _ _ _ Haim)).
    rewrite Forall_forall in Hset.
    assert (∀ t, t ∈ chapterTasks (rendered m) → id t ≠ id0 →
              flush_task ρ (queue m) t = t ∧ status t ≠ generating) as Hother.
    { intros t Ht Hne. split; [by eapply flush_task_other|].
      intros Hg. destruct (Hset t Ht) as (H & _).
      specialize (H Hg). congruence. }
    assert (∀ t, t ∈ chapterTasks (rendered m) → id t = id0 → t = t0) as Hsame.
    { intros t Ht Hidt. eapply focus_unique; [done..|congruence]. }
    destruct Hph as [(c & _ & _ & _ & Hρ)|(_ & _ & Hρ)];
      destruct (Hρ ρ) as (Ha & Hst0).
    + rewrite Ha. split.
      * intros t' (t & -> & Ht)%list_elem_of_fmap.
        destruct (decide (id t = id0)) as [He|Hne].
        -- rewrite (Hsame t Ht He), flush_task_id, Hid.
           by destruct Hst0 as [-> _].
        -- destruct (Hother t Ht Hne) as (-> & Hg).
           split; [intros [= ?]; congruence|done].
      * intros _. exists (flush_task ρ (queue m) t0). split.
        -- apply list_elem_of_fmap. exists t0. split; [done|].
           by eapply list_elem_of_lookup_2.
        -- by rewrite flush_task_id, Hid.
    + rewrite Ha. split; [|done].
      intros t' (t & -> & Ht)%list_elem_of_fmap. split; [done|].
      destruct (decide (id t = id0)) as [He|Hne].
      * rewrite (Hsame t Ht He). destruct Hst0 as [[-> _]| ->]; done.
      * by destruct (Hother t Ht Hne) as (-> & Hg).
Qed.

Lemma step_rendered m e m' :
  step m e = Some m' → (∀ now, e ≠ Render now) → rendered m' = rendered m.
Proof.
  destruct e as [now| |taskId text eager|taskId|taskId err eager]; simpl.
  - intros _ H. by destruct (H now).
  - by intros [= <-].
  - destruct (find_call taskId m); [|done]. intros [= <-] _.
    destruct text as [textChunk|]; [|done]. unfold on_chunk.
    by destruct (dispatch_frame eager (show_buffer taskId)
                   (set_ref (generatingChapterContentRef m ++ textChunk) m))
      as [-> _].
  - destruct (find_call taskId m) as [[i c]|]; [|done]. intros [= <-] _.
    unfold on_end, remove_call, set_ref, enqueue. cbn [rendered].
    by destruct (dispatch_frame false
                   (commit_done taskId
                      (trim (or_else (generatingChapterContentRef m) []))) m)
      as [-> _].
  - destruct (find_call taskId m) as [[i c]|]; [|done]. intros [= <-] _.
    unfold on_fail, remove_call, set_ref, enqueue. cbn [rendered].
    by destruct (dispatch_frame eager
                   (mark_error (call_taskId c) (message_of err)) m)
      as [-> _].
Qed.

Lemma active_generates_run structure m evs0 evs m' :
  Inv structure m evs0 → active_generates (rendered m) →
  run m evs = Some m' → active_generates (rendered m').
Proof.
  revert m evs0. induction evs as [|e evs IH]; intros m evs0 HI HP; simpl.
  { by intros [= <-]. }
  destruct (step m e) as [m1|] eqn:He; [|done].
  destruct (Inv_step structure _ _ _ _ HI He) as [HI1 _].
  apply (IH m1 (evs0 ++ [e]) HI1).
  destruct e as [now| |taskId text eager|taskId|taskId err eager];
    try (rewrite (step_rendered _ _ _ He); [done|by intros ?]).
  simpl in He. injection He as <-.
  by eapply active_generates_render.
Qed.

(** In every state of a driver run the pane marks as being written the
    task that is generating and no other; the content of a failed task
    is never shown; and while auto-run is on and a task is active, the
    header names that task, which is generating, and the way back to the
    outline is closed. *)
Theorem chapter_pane_during_a_run (inputs : UserInputs) (structure : JSON)
    (now : nat → N) (evs : list Event) (m : Machine) :
  run (entered inputs structure now) evs = Some m →
  let s := rendered m in
  let current := isCurrentlyGeneratingThis (activelyGeneratingChapterId s) in
  (∀ t, t ∈ chapterTasks s →
     (current t = true ↔ status t = generating)
     ∧ (status t = error → shows_content t (current t) = false))
  ∧ (isAutoGeneratingChapters s = true →
     truthy_str (activelyGeneratingChapterId s) = true →
     ∃ t, t ∈ chapterTasks s ∧ status t = generating
          ∧ progress_label (chapter_pane s)
            = Some (lit "Writing: " ++ or_else (title t) (lit "Chapter")
                    ++ lit "...")
          ∧ back_enabled (chapter_pane s) = false).
Proof.
  intros Hrun s current.
  pose proof (Inv_entered structure inputs now) as H0.
  pose proof (Inv_run structure _ [] _ _ H0 Hrun) as [Hs _].
  assert (active_generates s) as [Hgen Hact].
  { eapply (active_generates_run structure); [exact H0| |exact Hrun].
    split; [|done]. intros t Ht. split; [done|].
    intros Hg. unfold entered in Ht. simpl in Ht.
    unfold flattenStructureToTasks in Ht.
    apply flatten_loop_pending in Ht. congruence. }
  assert (∀ t, t ∈ chapterTasks s →
            current t = true ↔ status t = generating) as Hcur.
  { intros t Ht. unfold current, isCurrentlyGeneratingThis.
    rewrite bool_decide_eq_true. by apply Hgen. }
  split.
  - intros t Ht. split; [by apply Hcur|].
    intros He. unfold shows_content.
    destruct (current t) eqn:Hc.
    { apply Hcur in Hc; [congruence|done]. }
    rewrite He. done.
  - intros Hauto Htruthy. destruct (Hact Htruthy) as (t & Ht & Ha).
    exists t. split; [done|]. split; [by apply Hgen|].
    unfold chapter_pane, ChapterGenerationPane. fold s.
    rewrite Hauto, Htruthy.
    destruct (chapterTasks s) as [|t1 l] eqn:Hl; [by apply elem_of_nil in Ht|].
    rewrite <- Hl in *. simpl. split; [|done].
    destruct (list_find_elem_of
                (λ t, Some (id t) = activelyGeneratingChapterId s)
                (chapterTasks s) t Ht (eq_sym Ha)) as [[j t'] Hf].
    rewrite Hf. apply list_find_Some in Hf as (Hj & Hid & _).
    assert (t = t') as <-; [|done].
    eapply (focus_unique structure); [exact Hs|exact Hj|exact Ht|].
    rewrite Ha in Hid. by injection Hid.
Qed.

Lemma chapter_pane_during_a_run_witness :
  ∃ m, run (entered sample_inputs sample_outline sample_clock)
           (take 4 sample_run) = Some m
       ∧ isAutoGeneratingChapters (rendered m) = true
       ∧ truthy_str (activelyGeneratingChapterId (rendered m)) = true
       ∧ ∃ t, t ∈ chapterTasks (rendered m) ∧ status t = generating
              ∧ progress_label (chapter_pane (rendered m))
                = Some (lit "Writing: " ++ or_else (title t) (lit "Chapter")
                        ++ lit "...")
              ∧ back_enabled (chapter_pane (rendered m)) = false.
Proof.
  eexists.
  assert (∀ (A B C D : Prop), A → B → C → (A → B → C → D) → A ∧ B ∧ C ∧ D)
    as cut by tauto.
  apply cut.
  - vm_compute. reflexivity.
  - vm_compute. reflexivity.
  - vm_compute. reflexivity.
  - intros Hrun Hauto Hact.
    exact (proj2 (chapter_pane_during_a_run sample_inputs sample_outline
                    sample_clock _ _ Hrun) Hauto Hact).
Defined.

(** ** The prompts: what the chain of [replace] calls does to a template *)

(** A template cut at its placeholders. *)
Inductive Segment := Text (t : jsstring) | Hole (name : jsstring).

Definition segment_text (seg : Segment) : jsstring :=
  match seg with
  | Text t => t
  | Hole name => placeholder name
  end.

Definition template_text (segs : list Segment) : jsstring :=
  concat (segment_text <$> segs).

(** No dollar sign of [t] opens a placeholder, whatever follows [t]. *)
Fixpoint plain (t : jsstring) : bool :=
  match t with
  | [] => true
  | c :: t' =>
      (negb (c =? 36)
       || match t' with d :: _ => negb (d =? 123) | [] => false end)
      && plain t'
  end.

(** A name as the source has them: no dollar sign, no closing brace. *)
Definition name_ok (name : jsstring) : Prop := (36 ∉ name) ∧ (125 ∉ name).

Definition segment_ok (seg : Segment) : Prop :=
  match seg with
  | Text t => plain t = true
  | Hole name => name_ok name
  end.

(** The replacement text has no [$`] and no [$'], read as
    [GetSubstitution] reads it: what it stands for does not depend on the
    place of the match. *)
Fixpoint position_free (t : jsstring) : bool :=
  match t with
  | [] => true
  | c :: t' =>
      if c =? 36 then
        match t' with
        | d :: t'' =>
            if (d =? 36) || (d =? 38) then position_free t''
            else negb ((d =? 96) || (d =? 39)) && position_free t'
        | [] => true
        end
      else position_free t'
  end.

(** What a position-free replacement text stands for. *)
Definition expand (matched replacement : jsstring) : jsstring :=
  GetSubstitution matched [] 0 replacement.

Definition fill1 (name v : jsstring) (segs : list Segment) : list Segment :=
  (λ seg, match seg with
          | Hole name' => if decide (name' = name) then Text v else seg
          | Text _ => seg
          end) <$> segs.

Lemma dollar_free_plain (t : jsstring) : 36 ∉ t → plain t = true.
Proof.
  induction t as [|c t IH]; [done|].
  intros [Hc Ht]%not_elem_of_cons. simpl. rewrite IH by done.
  rewrite andb_true_r, orb_true_iff. left.
  apply negb_true_iff, N.eqb_neq. done.
Qed.

Lemma GetSubstitution_dollar_free matched str position (t : jsstring) :
  36 ∉ t → GetSubstitution matched str position t = t.
Proof.
  induction t as [|c t IH]; [done|].
  intros [Hc Ht]%not_elem_of_cons. simpl.
  rewrite (proj2 (N.eqb_neq c 36)) by done. by rewrite IH.
Qed.

Lemma GetSubstitution_position_free matched str position str' position'
    (t : jsstring) :
  position_free t = true →
  GetSubstitution matched str position t
  = GetSubstitution matched str' position' t.
Proof.
  remember (length t) as n eqn:Hn. revert t Hn.
  induction n as [n IH] using lt_wf_ind. intros t Hn.
  destruct t as [|c t]; [done|]. cbn [position_free GetSubstitution].
  destruct (c =? 36) eqn:Ec.
  - destruct t as [|d t']; [done|].
    destruct (d =? 36) eqn:E1.
    { simpl. intros Ht. f_equal.
      apply (IH (length t')); [simpl in Hn; lia|done|done]. }
    destruct (d =? 38) eqn:E2.
    { apply N.eqb_eq in E2 as ->. simpl. intros Ht. f_equal.
      apply (IH (length t')); [simpl in Hn; lia|done|done]. }
    cbn [orb]. intros [Hd Ht]%andb_true_iff.
    apply negb_true_iff, orb_false_iff in Hd as [E3 E4]. rewrite E3, E4.
    f_equal. apply (IH (length (d :: t'))); [simpl in *; lia|done|done].
  - intros Ht. f_equal. apply (IH (length t)); [simpl in Hn; lia|done|done].
Qed.

Lemma dollar_free_position_free (t : jsstring) :
  36 ∉ t → position_free t = true.
Proof.
  induction t as [|c t IH]; [done|].
  intros [Hc Ht]%not_elem_of_cons. simpl.
  rewrite (proj2 (N.eqb_neq c 36)) by done. by apply IH.
Qed.

Lemma replace_scan_skip pattern replacement str (x rest : jsstring) position :
  replace_scan pattern replacement str (length x) position (x ++ rest)
  = replace_scan pattern replacement str 0 (position + length x) rest.
Proof.
  revert position. induction x as [|c x IH]; intros position; simpl.
  - by rewrite Nat.add_0_r.
  - rewrite IH. f_equal. lia.
Qed.

Lemma replace_scan_plain name replacement str (t rest : jsstring) position :
  plain t = true →
  replace_scan (placeholder name) replacement str 0 position (t ++ rest)
  = t ++ replace_scan (placeholder name) replacement str 0
           (position + length t) rest.
Proof.
  revert position. induction t as [|c t IH]; intros position.
  { intros _. simpl. by rewrite Nat.add_0_r. }
  cbn [plain]. intros [Hc Ht]%andb_true_iff.
  rewrite <- app_comm_cons. cbn [replace_scan].
  assert (strip_prefix (placeholder name) (c :: t ++ rest) = None) as ->.
  { change (placeholder name) with (36 :: 123 :: name ++ [125]).
    cbn [strip_prefix].
    destruct (36 =? c) eqn:Ec; [|done].
    apply N.eqb_eq in Ec as <-. cbn [N.eqb Pos.eqb negb orb] in Hc.
    destruct t as [|d t']; [done|]. rewrite <- app_comm_cons.
    apply negb_true_iff in Hc. by rewrite N.eqb_sym, Hc. }
  rewrite IH by done. rewrite <- app_comm_cons.
  by replace (position + length (c :: t))%nat
    with (S position + length t)%nat by (simpl; lia).
Qed.

Lemma app_pivot_inj (x : N) (l1 l2 r1 r2 : jsstring) :
  x ∉ l1 → x ∉ l2 → l1 ++ x :: r1 = l2 ++ x :: r2 → l1 = l2.
Proof.
  revert l2. induction l1 as [|a l1 IH]; intros [|b l2]; simpl.
  - done.
  - intros _ [Hb _]%not_elem_of_cons [= ? _]. done.
  - intros [Ha _]%not_elem_of_cons _ [= ? _]. done.
  - intros [_ H1]%not_elem_of_cons [_ H2]%not_elem_of_cons [= -> H].
    f_equal. by apply IH.
Qed.

Lemma strip_prefix_placeholder name name' (rest : jsstring) :
  name_ok name → name_ok name' → name' ≠ name →
  strip_prefix (placeholder name) (placeholder name' ++ rest) = None.
Proof.
  intros [_ H1] [_ H2] Hne.
  destruct (strip_prefix _ _) as [r|] eqn:E; [|done].
  apply strip_prefix_Some in E. unfold placeholder in E.
  rewrite <- !app_assoc in E. simpl in E. injection E as E.
  by apply app_pivot_inj in E.
Qed.

(** One [replace] call on a template: the placeholders of that name give
    way to what the replacement text stands for, and nothing else
    changes. *)
Lemma replace_segments name replacement (segs : list Segment) :
  name_ok name → position_free replacement = true →
  Forall segment_ok segs →
  replace name replacement (template_text segs)
  = template_text (fill1 name (expand (placeholder name) replacement) segs).
Proof.
  intros Hname Hfree Hsegs. unfold replace, replace_all.
  enough (∀ position str,
            replace_scan (placeholder name) replacement str 0 position
              (template_text segs)
            = template_text
                (fill1 name (expand (placeholder name) replacement) segs))
    as H by apply H.
  induction Hsegs as [|seg segs Hseg _ IH]; intros position str; [done|].
  unfold template_text in *. cbn [fmap list_fmap concat fill1].
  destruct seg as [t|name']; cbn [segment_text].
  - rewrite replace_scan_plain by done. by rewrite IH.
  - destruct (decide (name' = name)) as [->|Hne]; cbn [segment_text].
    + assert (placeholder name ++ concat (segment_text <$> segs)
              = 36 :: ([123] ++ name ++ [125])
                ++ concat (segment_text <$> segs)) as Hsplit
        by (unfold placeholder; by rewrite <- !app_assoc).
      rewrite Hsplit at 1. cbn [replace_scan]. rewrite <- Hsplit.
      rewrite (proj2 (strip_prefix_Some (placeholder name) _ _) eq_refl).
      replace (length (placeholder name) - 1)%nat
        with (length ([123] ++ name ++ [125]))
        by (unfold placeholder; rewrite !length_app; simpl; lia).
      rewrite replace_scan_skip, IH. f_equal.
      unfold expand. by apply GetSubstitution_position_free.
    + assert (placeholder name' ++ concat (segment_text <$> segs)
              = 36 :: ([123] ++ name' ++ [125])
                ++ concat (segment_text <$> segs)) as Hsplit
        by (unfold placeholder; by rewrite <- !app_assoc).
      rewrite Hsplit at 1. cbn [replace_scan]. rewrite <- Hsplit.
      rewrite strip_prefix_placeholder by done.
      rewrite replace_scan_plain, IH.
      2: { destruct Hseg as [H36 _]. apply dollar_free_plain.
           rewrite !not_elem_of_app. split_and!; [|done|].
           - apply not_elem_of_cons. split; [done|apply not_elem_of_nil].
           - apply not_elem_of_cons. split; [done|apply not_elem_of_nil]. }
      unfold placeholder. by rewrite <- !app_assoc.
Qed.

Lemma fill1_ok name v (segs : list Segment) :
  plain v = true → Forall segment_ok segs →
  Forall segment_ok (fill1 name v segs).
Proof.
  intros Hv Hsegs. unfold fill1. apply Forall_fmap.
  eapply Forall_impl; [exact Hsegs|].
  intros [t|name'] H; simpl; [done|]. by case_decide.
Qed.

(** The chain of a builder: [values] in the order of the calls. *)
Definition replace_chain (values : list (jsstring * jsstring))
    (template : jsstring) : jsstring :=
  fold_left (λ str p, replace p.1 p.2 str) values template.

Fixpoint value_of (values : list (jsstring * jsstring)) (name : jsstring)
  : option jsstring :=
  match values with
  | [] => None
  | (name', v) :: values' =>
      if decide (name' = name) then Some v else value_of values' name
  end.

(** The template with every placeholder that has a value replaced by it. *)
Definition fill (values : list (jsstring * jsstring)) (segs : list Segment)
  : list Segment :=
  (λ seg, match seg with
          | Hole name =>
              match value_of values name with
              | Some v => Text v
              | None => seg
              end
          | Text _ => seg
          end) <$> segs.

Lemma fill_cons name v values (segs : list Segment) :
  fill values (fill1 name v segs) = fill ((name, v) :: values) segs.
Proof.
  unfold fill, fill1. rewrite <- list_fmap_compose.
  apply list_fmap_ext. intros _ [t|name'] _; simpl; [done|].
  by destruct (decide (name' = name)) as [->|Hne];
    [rewrite decide_True by done|rewrite decide_False by done].
Qed.

Definition benign (p : jsstring * jsstring) : Prop :=
  name_ok p.1 ∧ position_free p.2 = true
  ∧ plain (expand (placeholder p.1) p.2) = true.

Lemma replace_chain_segments values (segs : list Segment) :
  Forall benign values → Forall segment_ok segs →
  replace_chain values (template_text segs)
  = template_text
      (fill ((λ p, (p.1, expand (placeholder p.1) p.2)) <$> values) segs).
Proof.
  intros Hvalues. revert segs.
  induction Hvalues as [|[name v] values (Hn & Hf & Hp) _ IH]; intros segs Hsegs.
  { unfold fill. simpl. f_equal. rewrite <- (list_fmap_id segs) at 1.
    apply list_fmap_ext. by intros _ [t|name] _. }
  unfold replace_chain in *. cbn [fold_left fst snd].
  rewrite replace_segments by done.
  rewrite IH by (by apply fill1_ok).
  by rewrite fill_cons.
Qed.

Lemma replace_chain_dollar_free values (segs : list Segment) :
  Forall (λ p, name_ok p.1 ∧ 36 ∉ p.2) values → Forall segment_ok segs →
  replace_chain values (template_text segs) = template_text (fill values segs).
Proof.
  intros Hvalues Hsegs.
  assert ((λ p : jsstring * jsstring, (p.1, expand (placeholder p.1) p.2))
            <$> values = values) as Hsame.
  { rewrite <- (list_fmap_id values) at 2. apply Forall_fmap_ext_1.
    eapply Forall_impl; [exact Hvalues|]. intros [name v] [_ Hv]. simpl.
    unfold expand. by rewrite GetSubstitution_dollar_free. }
  rewrite replace_chain_segments, Hsame; [done| |done].
  eapply Forall_impl; [exact Hvalues|]. intros [name v] [Hn Hv].
  split_and!; [done|by apply dollar_free_position_free|]. simpl.
  unfold expand. rewrite GetSubstitution_dollar_free by done.
  by apply dollar_free_plain.
Qed.

Lemma source_names_ok :
  Forall name_ok
    [lit "language"; lit "subject"; lit "additionalInfo";
     lit "numberOfChapters"; lit "bookStructure"; lit "overallBookSubject";
     lit "chapterTitle"; lit "chapterOutlineJson"; lit "fullBookStructureJson";
     lit "previouslyGeneratedChaptersContent"; lit "contentLength";
     lit "readingLevel"].
Proof.
  repeat constructor; apply (bool_decide_unpack _); vm_compute; exact I.
Qed.

Lemma Number_toString_dollar_free (n : N) : 36 ∉ Number_toString n.
Proof.
  unfold Number_toString. intros Hin.
  pose proof (digits_alnum (N.to_uint n)) as H.
  rewrite Forall_forall in H. by specialize (H _ Hin).
Qed.

Lemma or_else_dollar_free (a b : jsstring) :
  36 ∉ a → 36 ∉ b → 36 ∉ or_else a b.
Proof. unfold or_else. by destruct (nonempty a). Qed.

Lemma lit_None_dollar_free : 36 ∉ lit "None".
Proof. apply (bool_decide_unpack _). vm_compute. exact I. Qed.

Lemma lit_no_chapters_dollar_free : 36 ∉ lit "No chapters written yet.".
Proof. apply (bool_decide_unpack _). vm_compute. exact I. Qed.

Definition structure_values (inputs : UserInputs)
  : list (jsstring * jsstring) :=
  [(lit "language", language inputs); (lit "subject", subject inputs);
   (lit "additionalInfo", or_else (additionalInfo inputs) (lit "None"));
   (lit "numberOfChapters", Number_toString (numberOfChapters inputs))].

Definition title_values (inputs : UserInputs) (bookStructure : JSON)
  : list (jsstring * jsstring) :=
  [(lit "language", language inputs); (lit "subject", subject inputs);
   (lit "additionalInfo", or_else (additionalInfo inputs) (lit "None"));
   (lit "bookStructure", JSON_stringify bookStructure)].

Definition content_values (inputs : UserInputs)
    (chapterTitle chapterOutlineJson fullBookStructureJson previous : jsstring)
  : list (jsstring * jsstring) :=
  [(lit "language", language inputs);
   (lit "overallBookSubject", subject inputs);
   (lit "additionalInfo", or_else (additionalInfo inputs) (lit "None"));
   (lit "chapterTitle", chapterTitle);
   (lit "chapterOutlineJson", chapterOutlineJson);
   (lit "fullBookStructureJson", fullBookStructureJson);
   (lit "previouslyGeneratedChaptersContent", previous);
   (lit "contentLength", Number_toString (contentLength inputs));
   (lit "readingLevel", Number_toString (readingLevel inputs))].

Ltac names_ok :=
  let H := fresh in
  pose proof source_names_ok as H; rewrite !Forall_cons in H;
  unfold name_ok in H; repeat constructor; cbn [fst snd]; try tauto.

(** On a template whose dollar signs all open placeholders, and with
    inputs that contain no dollar sign, each of the three prompts is the
    template with every placeholder of the builder replaced by its
    input: the language, the subject, the additional instructions
    ("None" when there are none), the numbers in decimal when they are
    safe integers, the text of the outline when the structure is one
    (strings and objects, the type [BookStructure]), and for the earlier
    chapters "No chapters written yet." when there are none.
    Placeholders of other names stay. *)
Theorem prompts_fill_the_template (segs : list Segment) (inputs : UserInputs) :
  Forall segment_ok segs →
  36 ∉ language inputs → 36 ∉ subject inputs → 36 ∉ additionalInfo inputs →
  (safe_integer (numberOfChapters inputs) →
   contents (generateBookStructureStream (template_text segs) inputs)
   = template_text (fill (structure_values inputs) segs))
  ∧ (∀ bookStructure,
       is_outline bookStructure = true → 36 ∉ JSON_stringify bookStructure →
       contents (generateBookTitle (template_text segs) inputs bookStructure)
       = template_text (fill (title_values inputs bookStructure) segs))
  ∧ (∀ chapterTitle chapterOutlineJson fullBookStructureJson previous,
       safe_integer (contentLength inputs) →
       safe_integer (readingLevel inputs) →
       36 ∉ chapterTitle → 36 ∉ chapterOutlineJson →
       36 ∉ fullBookStructureJson → 36 ∉ previous →
       contents (generateChapterContentStream (template_text segs) inputs
                   chapterTitle chapterOutlineJson fullBookStructureJson
                   previous)
       = template_text
           (fill (content_values inputs chapterTitle chapterOutlineJson
                    fullBookStructureJson
                    (or_else previous (lit "No chapters written yet.")))
              segs)).
Proof.
  intros Hsegs Hl Hs Ha.
  pose proof (or_else_dollar_free _ _ Ha lit_None_dollar_free) as Ha'.
  split_and!.
  - intros _.
    change (contents (generateBookStructureStream (template_text segs) inputs))
      with (replace_chain (structure_values inputs) (template_text segs)).
    apply replace_chain_dollar_free; [|done].
    names_ok. apply Number_toString_dollar_free.
  - intros bookStructure _ Hb.
    change (contents (generateBookTitle (template_text segs) inputs
                        bookStructure))
      with (replace_chain (title_values inputs bookStructure)
              (template_text segs)).
    apply replace_chain_dollar_free; [|done]. names_ok.
  - intros chapterTitle chapterOutlineJson fullBookStructureJson previous
      _ _ Ht Ho Hf Hp.
    pose proof (or_else_dollar_free _ _ Hp lit_no_chapters_dollar_free) as Hp'.
    change (contents (generateChapterContentStream (template_text segs) inputs
                        chapterTitle chapterOutlineJson fullBookStructureJson
                        previous))
      with (replace_chain
              (content_values inputs chapterTitle chapterOutlineJson
                 fullBookStructureJson
                 (or_else previous (lit "No chapters written yet.")))
              (template_text segs)).
    apply replace_chain_dollar_free; [|done].
    names_ok; apply Number_toString_dollar_free.
Qed.

Lemma prompts_fill_the_template_witness :
  let segs := [Text (lit "Write in "); Hole (lit "language");
               Text (lit " about "); Hole (lit "subject");
               Text (lit ", in "); Hole (lit "numberOfChapters");
               Text (lit " chapters. Notes: "); Hole (lit "additionalInfo")] in
  let titled := [Text (lit "A title in "); Hole (lit "language");
                 Text (lit " for: "); Hole (lit "bookStructure")] in
  let chapter := [Text (lit "Write "); Hole (lit "chapterTitle");
                  Text (lit " ("); Hole (lit "chapterOutlineJson");
                  Text (lit "), "); Hole (lit "contentLength");
                  Text (lit " words, level "); Hole (lit "readingLevel");
                  Text (lit ". So far: ");
                  Hole (lit "previouslyGeneratedChaptersContent")] in
  let leaf := JObject [(lit "Ch1", JString (lit "desc1"))] in
  (Forall segment_ok segs ∧ Forall segment_ok titled
   ∧ Forall segment_ok chapter)
  ∧ ((36 ∉ language sample_inputs) ∧ (36 ∉ subject sample_inputs)
     ∧ (36 ∉ additionalInfo sample_inputs))
  ∧ (safe_integer (numberOfChapters sample_inputs)
     ∧ safe_integer (contentLength sample_inputs)
     ∧ safe_integer (readingLevel sample_inputs))
  ∧ (is_outline leaf = true ∧ (36 ∉ JSON_stringify leaf))
  ∧ contents (generateBookStructureStream (template_text segs) sample_inputs)
    = lit "Write in en about Rocq, in 12 chapters. Notes: None"
  ∧ contents (generateBookTitle (template_text titled) sample_inputs leaf)
    = lit "A title in en for: {" ++ [10; 32; 32; 34] ++ lit "Ch1"
      ++ [34; 58; 32; 34] ++ lit "desc1" ++ [34; 10] ++ lit "}"
  ∧ contents (generateChapterContentStream (template_text chapter)
                sample_inputs (lit "Ch1") (lit "desc1") (JSON_stringify leaf)
                [])
    = lit "Write Ch1 (desc1), 7000 words, level 5. So far: No chapters written yet.".
Proof.
  intros segs titled chapter leaf.
  assert (Forall segment_ok segs) as Hsegs.
  { repeat constructor; apply (bool_decide_unpack _); vm_compute; exact I. }
  assert (Forall segment_ok titled) as Htitled.
  { repeat constructor; apply (bool_decide_unpack _); vm_compute; exact I. }
  assert (Forall segment_ok chapter) as Hchapter.
  { repeat constructor; apply (bool_decide_unpack _); vm_compute; exact I. }
  assert (36 ∉ language sample_inputs) as Hl
    by (apply (bool_decide_unpack _); vm_compute; exact I).
  assert (36 ∉ subject sample_inputs) as Hs
    by (apply (bool_decide_unpack _); vm_compute; exact I).
  assert (36 ∉ additionalInfo sample_inputs) as Ha
    by (apply (bool_decide_unpack _); vm_compute; exact I).
  assert (safe_integer (numberOfChapters sample_inputs)) as Hn
    by (vm_compute; reflexivity).
  assert (safe_integer (contentLength sample_inputs)) as Hc
    by (vm_compute; reflexivity).
  assert (safe_integer (readingLevel sample_inputs)) as Hr
    by (vm_compute; reflexivity).
  assert (is_outline leaf = true) as Ho by (vm_compute; reflexivity).
  assert (36 ∉ JSON_stringify leaf) as Hj
    by (apply (bool_decide_unpack _); vm_compute; exact I).
  assert (36 ∉ lit "Ch1") as Ht
    by (apply (bool_decide_unpack _); vm_compute; exact I).
  assert (36 ∉ lit "desc1") as Hd
    by (apply (bool_decide_unpack _); vm_compute; exact I).
  assert (36 ∉ @nil N) as Hp by apply not_elem_of_nil.
  split; [by split_and!|]. split; [by split_and!|].
  split; [by split_and!|]. split; [by split_and!|].
  split_and!.
  - rewrite (proj1 (prompts_fill_the_template segs sample_inputs
                      Hsegs Hl Hs Ha) Hn).
    vm_compute. reflexivity.
  - rewrite (proj1 (proj2 (prompts_fill_the_template titled sample_inputs
                             Htitled Hl Hs Ha)) leaf Ho Hj).
    vm_compute. reflexivity.
  - rewrite (proj2 (proj2 (prompts_fill_the_template chapter sample_inputs
                             Hchapter Hl Hs Ha))
               (lit "Ch1") (lit "desc1") (JSON_stringify leaf) []
               Hc Hr Ht Hd Hj Hp).
    vm_compute. reflexivity.
Defined.

Lemma benign_dollar_free (name v : jsstring) :
  name_ok name → 36 ∉ v → benign (name, v).
Proof.
  intros Hn Hv. split_and!; [done|by apply dollar_free_position_free|].
  simpl. unfold expand. rewrite GetSubstitution_dollar_free by done.
  by apply dollar_free_plain.
Qed.

Lemma GetSubstitution_app matched str position (a t : jsstring) :
  36 ∉ a →
  GetSubstitution matched str position (a ++ t)
  = a ++ GetSubstitution matched str position t.
Proof.
  induction a as [|c a IH]; [done|].
  intros [Hc Ha]%not_elem_of_cons. rewrite <- app_comm_cons.
  cbn [GetSubstitution]. rewrite (proj2 (N.eqb_neq c 36)) by done.
  by rewrite IH.
Qed.

Lemma position_free_app (a t : jsstring) :
  36 ∉ a → position_free (a ++ t) = position_free t.
Proof.
  induction a as [|c a IH]; [done|].
  intros [Hc Ha]%not_elem_of_cons. rewrite <- app_comm_cons.
  cbn [position_free]. rewrite (proj2 (N.eqb_neq c 36)) by done.
  by apply IH.
Qed.

Lemma plain_app (a t : jsstring) : 36 ∉ a → plain (a ++ t) = plain t.
Proof.
  induction a as [|c a IH]; [done|].
  intros [Hc Ha]%not_elem_of_cons. rewrite <- app_comm_cons.
  cbn [plain]. rewrite (proj2 (N.eqb_neq c 36)) by done. by apply IH.
Qed.

(** A pair of dollar signs in the text of the earlier chapters reaches
    the model as one: [replace] reads its second argument as a
    replacement pattern, in which [$$] stands for a dollar sign. *)
Theorem dollar_pair_in_earlier_chapters (segs : list Segment)
    (inputs : UserInputs)
    (chapterTitle chapterOutlineJson fullBookStructureJson a b : jsstring)
    (c : N) :
  Forall segment_ok segs →
  36 ∉ language inputs → 36 ∉ subject inputs → 36 ∉ additionalInfo inputs →
  36 ∉ chapterTitle → 36 ∉ chapterOutlineJson → 36 ∉ fullBookStructureJson →
  36 ∉ a → 36 ∉ c :: b → c ≠ 123 →
  contents (generateChapterContentStream (template_text segs) inputs
              chapterTitle chapterOutlineJson fullBookStructureJson
              (a ++ [36; 36] ++ c :: b))
  = template_text
      (fill (content_values inputs chapterTitle chapterOutlineJson
               fullBookStructureJson (a ++ [36] ++ c :: b))
         segs).
Proof.
  intros Hsegs Hl Hs Ha Ht Ho Hf Ha0 Hb Hc.
  pose proof (or_else_dollar_free _ _ Ha lit_None_dollar_free) as Ha'.
  set (previous := a ++ [36; 36] ++ c :: b).
  assert (or_else previous (lit "No chapters written yet.") = previous) as Hp.
  { unfold previous. by destruct a. }
  change (contents (generateChapterContentStream (template_text segs) inputs
                      chapterTitle chapterOutlineJson fullBookStructureJson
                      previous))
    with (replace_chain
            (content_values inputs chapterTitle chapterOutlineJson
               fullBookStructureJson
               (or_else previous (lit "No chapters written yet.")))
            (template_text segs)).
  rewrite Hp.
  assert (expand (placeholder (lit "previouslyGeneratedChaptersContent"))
            previous = a ++ [36] ++ c :: b) as Hexpand.
  { unfold expand, previous. rewrite GetSubstitution_app by done.
    f_equal.
    change (GetSubstitution ?m ?s ?p ([36; 36] ++ c :: b))
      with (36 :: GetSubstitution m s p (c :: b)).
    by rewrite GetSubstitution_dollar_free. }
  pose proof source_names_ok as Hnames. rewrite !Forall_cons in Hnames.
  assert (benign (lit "previouslyGeneratedChaptersContent", previous)) as Hprev.
  { split_and!; cbn [fst snd]; [tauto| |].
    - unfold previous. rewrite position_free_app by done.
      change (position_free ([36; 36] ++ c :: b))
        with (position_free (c :: b)).
      by apply dollar_free_position_free.
    - rewrite Hexpand, plain_app by done.
      change (plain ([36] ++ c :: b))
        with ((negb (36 =? 36) || negb (c =? 123)) && plain (c :: b)).
      rewrite (dollar_free_plain (c :: b)) by done.
      rewrite (proj2 (N.eqb_neq c 123)) by done. done. }
  rewrite replace_chain_segments; [| |done].
  - cbn [fmap list_fmap content_values fst snd]. rewrite Hexpand.
    unfold expand.
    rewrite !GetSubstitution_dollar_free
      by first [done|apply Number_toString_dollar_free].
    done.
  - unfold content_values.
    repeat (apply Forall_cons; split); [..|by apply Forall_nil];
      first [exact Hprev
            |apply benign_dollar_free;
               [tauto|first [done|apply Number_toString_dollar_free]]].
Qed.

Lemma dollar_pair_in_earlier_chapters_witness :
  let segs := [Text (lit "Earlier chapters: ");
               Hole (lit "previouslyGeneratedChaptersContent");
               Text (lit " Now write: "); Hole (lit "chapterTitle")] in
  Forall segment_ok segs
  ∧ contents (generateChapterContentStream (template_text segs) sample_inputs
                (lit "Ch2") (lit "outline") (lit "{}") (lit "Price: $$5"))
    = lit "Earlier chapters: Price: $5 Now write: Ch2".
Proof.
  intros segs.
  assert (Forall segment_ok segs) as Hsegs.
  { repeat constructor; apply (bool_decide_unpack _); vm_compute; exact I. }
  split; [exact Hsegs|].
  change (lit "Price: $$5") with (lit "Price: " ++ [36; 36] ++ [53]).
  rewrite (dollar_pair_in_earlier_chapters segs sample_inputs (lit "Ch2")
             (lit "outline") (lit "{}") (lit "Price: ") [] 53 Hsegs);
    apply (bool_decide_unpack _); vm_compute; exact I.
Defined.

(** ** A complete run of the driver *)

(** How the stream of a task goes: what happens while it is read (its
    fragments, and renders), how it finishes, and the readings of the
    clock at the renders that follow. *)
Inductive Finish := Ends | Fails (err : Thrown) (eager : bool).

Record Attempt := mkAttempt {
  body : list Event;
  finish : Finish;
  clock_after : nat → N;
  clock_restart : nat → N;
}.

(** While the stream of [taskId] is read, it yields and React renders. *)
Definition body_of (taskId : jsstring) (e : Event) : Prop :=
  match e with
  | Chunk i _ _ => i = taskId
  | Render _ => True
  | _ => False
  end.

(** The events of one task: its stream, then the render that follows the
    end; after a failure the user starts the generation again. *)
Definition attempt_events (t0 : ChapterTask) (a : Attempt) : list Event :=
  body a
  ++ match finish a with
     | Ends => [StreamEnd (id t0); Render (clock_after a)]
     | Fails err eager =>
         [StreamFail (id t0) err eager; Render (clock_after a);
          ClickStart; Render (clock_restart a)]
     end.

(** The task [t0] as its attempt leaves it. *)
Definition outcome_of (t0 : ChapterTask) (a : Attempt) (f : ChapterTask)
  : Prop :=
  id f = id t0 ∧ title f = title t0 ∧ description f = description t0
  ∧ path f = path t0
  ∧ match finish a with
    | Ends =>
        status f = done
        ∧ content f = Some (trim (delivered (id t0) (body a)))
        ∧ errorMessage f = None
    | Fails err _ =>
        status f = error ∧ errorMessage f = Some (message_of err)
    end.

Definition is_show (id0 : jsstring) (u : Update) : Prop :=
  ∃ a, u = setChapterTasksWith (show_buffer id0) a.

Lemma is_show_aims_at id0 q : Forall (is_show id0) q → Forall (aims_at id0) q.
Proof. intros H. eapply Forall_impl; [exact H|]. by intros u (a & ->). Qed.

Lemma apply_shows ρ id0 shows s :
  Forall (is_show id0) shows →
  apply_queue ρ shows s
  = with_tasks s (flush_task ρ shows <$> chapterTasks s).
Proof.
  revert s. induction shows as [|u shows IH]; intros s Hq.
  { simpl. rewrite list_fmap_id. by destruct s. }
  apply Forall_cons_1 in Hq as [(a & ->) Hq].
  unfold apply_queue, flush_task in *. cbn [fold_left].
  rewrite IH by done. unfold with_tasks.
  destruct a as [r|]; simpl; unfold apply_updater;
    by rewrite <- list_fmap_compose.
Qed.

Lemma flush_shows ρ id0 shows t :
  Forall (is_show id0) shows →
  let t' := flush_task ρ shows t in
  id t' = id t ∧ title t' = title t ∧ description t' = description t
  ∧ path t' = path t ∧ status t' = status t
  ∧ errorMessage t' = errorMessage t.
Proof.
  revert t. induction shows as [|u shows IH]; intros t Hq; [done|].
  apply Forall_cons_1 in Hq as [(a & ->) Hq].
  unfold flush_task in *. cbn [fold_left].
  destruct (IH (flush_update ρ t (setChapterTasksWith (show_buffer id0) a)) Hq)
    as (-> & -> & -> & -> & -> & ->).
  destruct a as [r|]; simpl; unfold update_task; case_decide; done.
Qed.

(** A map that leaves the tasks of other ids alone changes one task of a
    list whose ids are distinct. *)
Lemma fmap_focus (g : ChapterTask → ChapterTask) (id0 : jsstring)
    (finals rest : list ChapterTask) (tk : ChapterTask) :
  (∀ t, id t ≠ id0 → g t = t) →
  Forall (λ t, id t ≠ id0) finals → Forall (λ t, id t ≠ id0) rest →
  g <$> (finals ++ tk :: rest) = finals ++ g tk :: rest.
Proof.
  intros Hg Hf Hr. rewrite fmap_app, fmap_cons. f_equal; [|f_equal].
  - rewrite <- (list_fmap_id finals) at 2. apply Forall_fmap_ext_1.
    eapply Forall_impl; [exact Hf|]. intros t Ht. by apply Hg.
  - rewrite <- (list_fmap_id rest) at 2. apply Forall_fmap_ext_1.
    eapply Forall_impl; [exact Hr|]. intros t Ht. by apply Hg.
Qed.

Lemma list_find_middle {A} (P : A → Prop) `{∀ x, Decision (P x)}
    (l1 l2 : list A) (x : A) :
  Forall (λ y, ¬ P y) l1 → P x →
  list_find P (l1 ++ x :: l2) = Some (length l1, x).
Proof.
  intros Hl1 Hx. apply list_find_Some. split_and!.
  - by apply list_lookup_middle.
  - done.
  - intros j y Hj Hlt. rewrite lookup_app_l in Hj by done.
    rewrite Forall_lookup in Hl1. by eapply Hl1.
Qed.

Section CompleteRun.
Context (inputs : UserInputs) (structure : JSON).
Hypothesis structure_truthy : truthy structure = true.

(** The states of the chapter phase: only the tasks, the error, the
    auto-run flag and the active id vary. *)
Definition driving (tasks : list ChapterTask) (err : option jsstring)
    (auto : bool) (act : option jsstring) : AppState :=
  mkApp GENERATING_CHAPTERS (Some inputs) None (Some structure) tasks err
        false auto act false.

(** Nothing waits, nothing is suspended. *)
Definition at_rest (tasks : list ChapterTask) (err : option jsstring)
    (auto : bool) (act : option jsstring) (reqs : list (jsstring * Request))
  : Machine :=
  mkMachine (driving tasks err auto act) [] [] [] reqs.

(** After a render that shows the tasks [finals ++ rest] with auto-run
    on and no task active. *)
Definition starting (finals rest : list ChapterTask)
    (reqs : list (jsstring * Request)) : Machine :=
  autoAdvanceEffect (at_rest (finals ++ rest) None true None reqs).

Lemma render_to_rest now' m tasks err auto act :
  next_state m = driving tasks err auto act → tasks ≠ [] →
  generatingChapterContentRef m = [] → inflight m = [] →
  render now' m = autoAdvanceEffect (at_rest tasks err auto act (requests m)).
Proof.
  intros Hnext Hne Hρ Hin. unfold render. rewrite Hnext, Hρ, Hin.
  f_equal. unfold reflattenEffect. cbn [rendered driving bookStructure
    currentStep chapterTasks].
  rewrite structure_truthy.
  destruct tasks as [|t tasks]; [done|]. done.
Qed.

Lemma autoAdvance_off tasks err act reqs :
  autoAdvanceEffect (at_rest tasks err false act reqs)
  = at_rest tasks err false act reqs.
Proof. done. Qed.

Lemma starting_nil finals reqs :
  Forall (λ t, status t ≠ pending) finals →
  starting finals [] reqs
  = mkMachine (driving finals None true None)
      [setIsAutoGeneratingChapters false] [] [] reqs.
Proof.
  intros Hf. unfold starting, autoAdvanceEffect. rewrite app_nil_r.
  cbn [rendered at_rest driving currentStep isAutoGeneratingChapters
         activelyGeneratingChapterId apiKeyMissing chapterTasks].
  assert (list_find (λ task, status task = pending) finals = None) as ->
    by (by apply list_find_None).
  done.
Qed.

Lemma starting_cons finals t0 rest reqs :
  Forall (λ t, status t ≠ pending) finals → status t0 = pending →
  Forall (λ t, id t ≠ id t0) finals →
  starting finals (t0 :: rest) reqs
  = mkMachine (driving (finals ++ t0 :: rest) None true None)
      [setActivelyGeneratingChapterId (Some (id t0));
       setChapterTasksWith (mark_generating (id t0)) None]
      [] [mkCall (id t0) (finals ++ t0 :: rest)]
      (reqs ++ [(id t0,
                 mkRequest inputs (title t0) (description t0)
                   (JSON_stringify structure)
                   (previouslyGeneratedContent (finals ++ t0 :: rest)
                      (length finals)))]).
Proof.
  intros Hf Ht0 Hids. unfold starting, autoAdvanceEffect.
  cbn [rendered at_rest driving currentStep isAutoGeneratingChapters
         activelyGeneratingChapterId apiKeyMissing chapterTasks].
  rewrite (list_find_middle (λ task, status task = pending)) by done.
  cbn [bool_decide decide_rel andb negb truthy_str].
  unfold handleGenerateChapterContent.
  cbn [rendered at_rest driving userInputs bookStructure
         isAutoGeneratingChapters apiKeyMissing chapterTasks].
  rewrite structure_truthy.
  rewrite (list_find_middle (λ t, id t = id t0)) by done.
  rewrite decide_True by done. done.
Qed.

Lemma effects_active now' tasks err auto id0 q ρ calls reqs :
  id0 ≠ [] → tasks ≠ [] →
  let m := mkMachine (driving tasks err auto (Some id0)) q ρ calls reqs in
  autoAdvanceEffect (reflattenEffect now' m) = m.
Proof.
  intros Hid Hne m.
  assert (reflattenEffect now' m = m) as ->.
  { unfold reflattenEffect, m.
    cbn [rendered driving bookStructure currentStep chapterTasks].
    rewrite structure_truthy. by destruct tasks. }
  unfold autoAdvanceEffect, m.
  cbn [rendered driving currentStep isAutoGeneratingChapters
         activelyGeneratingChapterId apiKeyMissing].
  destruct id0; [done|]. by rewrite andb_false_r.
Qed.

Definition same_task (t0 tk : ChapterTask) : Prop :=
  id tk = id t0 ∧ title tk = title t0 ∧ description tk = description t0
  ∧ path tk = path t0.

Section Focus.
Context (finals : list ChapterTask) (t0 : ChapterTask)
  (rest : list ChapterTask) (reqs : list (jsstring * Request)).
Hypothesis finals_other : Forall (λ t, id t ≠ id t0) finals.
Hypothesis rest_other : Forall (λ t, id t ≠ id t0) rest.
Hypothesis id_nonempty : id t0 ≠ [].

(** The call for [t0] is suspended; [ρ] is what its stream has
    delivered. *)
Definition Running (ρ : jsstring) (m : Machine) : Prop :=
  ∃ tk act pre shows,
    rendered m = driving (finals ++ tk :: rest) None true act
    ∧ queue m = pre ++ shows
    ∧ Forall (is_show (id t0)) shows
    ∧ generatingChapterContentRef m = ρ
    ∧ inflight m = [mkCall (id t0) (finals ++ t0 :: rest)]
    ∧ requests m = reqs
    ∧ same_task t0 tk ∧ errorMessage tk = None
    ∧ (status tk = pending ∧ act = None
       ∧ pre = [setActivelyGeneratingChapterId (Some (id t0));
                setChapterTasksWith (mark_generating (id t0)) None]
       ∨ status tk = generating ∧ act = Some (id t0) ∧ pre = []).

Lemma focus_update (f : TasksUpdater) ρ (tk : ChapterTask) :
  target f = id t0 → id tk = id t0 →
  apply_updater f ρ (finals ++ tk :: rest)
  = finals ++ rewrite_task f ρ tk :: rest.
Proof.
  intros Hf Hid. unfold apply_updater.
  rewrite (fmap_focus _ (id t0)); [|by intros t Ht; unfold update_task;
    rewrite decide_False by congruence|done|done].
  unfold update_task. by rewrite decide_True by congruence.
Qed.

Lemma focus_shows ρ shows (tk : ChapterTask) :
  Forall (is_show (id t0)) shows →
  flush_task ρ shows <$> (finals ++ tk :: rest)
  = finals ++ flush_task ρ shows tk :: rest.
Proof.
  intros Hs. apply (fmap_focus _ (id t0)); [|done|done].
  intros t Ht. eapply flush_task_other; [|done]. by apply is_show_aims_at.
Qed.

(** What the waiting updates make of the state, whatever the reference
    holds when they run: the task is generating and active. *)
Lemma running_flush ρ ρ' m :
  Running ρ m →
  ∃ tk', apply_queue ρ' (queue m) (rendered m)
         = driving (finals ++ tk' :: rest) None true (Some (id t0))
         ∧ same_task t0 tk' ∧ errorMessage tk' = None
         ∧ status tk' = generating.
Proof.
  intros (tk & act & pre & shows & Hr & Hq & Hs & _ & _ & _
          & (Hid & Hti & Hde & Hpa) & Hem & Hcase).
  rewrite Hr, Hq, apply_queue_app.
  destruct Hcase as [(Hst & -> & ->)|(Hst & -> & ->)].
  - set (tk1 := rewrite_task (mark_generating (id t0)) ρ' tk).
    assert (apply_queue ρ'
              [setActivelyGeneratingChapterId (Some (id t0));
               setChapterTasksWith (mark_generating (id t0)) None]
              (driving (finals ++ tk :: rest) None true None)
            = driving (finals ++ tk1 :: rest) None true (Some (id t0))) as ->.
    { unfold apply_queue, driving. cbn [fold_left apply_update with_tasks
        currentStep userInputs bookTitle bookStructure chapterTasks appError
        isLoading isAutoGeneratingChapters activelyGeneratingChapterId
        apiKeyMissing].
      by rewrite focus_update. }
    rewrite (apply_shows _ (id t0)) by done.
    unfold driving. cbn [with_tasks chapterTasks currentStep userInputs
      bookTitle bookStructure appError isLoading isAutoGeneratingChapters
      activelyGeneratingChapterId apiKeyMissing].
    rewrite focus_shows by done.
    exists (flush_task ρ' shows tk1).
    destruct (flush_shows ρ' (id t0) shows tk1 Hs)
      as (H1 & H2 & H3 & H4 & H5 & H6).
    split; [done|]. unfold same_task. rewrite H1, H2, H3, H4, H5, H6.
    by split_and!.
  - change (apply_queue ρ' [] ?s) with s.
    rewrite (apply_shows _ (id t0)) by done.
    unfold driving. cbn [with_tasks chapterTasks currentStep userInputs
      bookTitle bookStructure appError isLoading isAutoGeneratingChapters
      activelyGeneratingChapterId apiKeyMissing].
    rewrite focus_shows by done.
    exists (flush_task ρ' shows tk).
    destruct (flush_shows ρ' (id t0) shows tk Hs)
      as (H1 & H2 & H3 & H4 & H5 & H6).
    split; [done|]. unfold same_task. rewrite H1, H2, H3, H4, H5, H6.
    by split_and!.
Qed.

Lemma running_find_call ρ m :
  Running ρ m →
  find_call (id t0) m = Some (0%nat, mkCall (id t0) (finals ++ t0 :: rest)).
Proof.
  intros (tk & act & pre & shows & _ & _ & _ & _ & Hin & _).
  unfold find_call. rewrite Hin. cbn [list_find call_taskId].
  by rewrite decide_True.
Qed.

(** One event of the body: the invariant holds on, and the reference has
    grown by what the event delivered. *)
Lemma running_event ρ m e :
  Running ρ m → body_of (id t0) e →
  ∃ m', step m e = Some m' ∧ Running (ρ ++ delivered (id t0) [e]) m'.
Proof.
  intros HR He. pose proof (running_find_call _ _ HR) as Hfind.
  destruct e as [now'| |i text eager| |]; try done.
  - eexists. split; [done|]. cbn [delivered]. rewrite app_nil_r.
    destruct (running_flush ρ ρ m HR) as (tk' & Hnext & Hsame & Hem & Hst).
    destruct HR as (tk & act & pre & shows & Hr & Hq & Hs & Hρ & Hin & Hreq
                    & _).
    unfold render, next_state. rewrite Hρ, Hnext.
    rewrite effects_active; [|done|by destruct finals].
    exists tk', (Some (id t0)), [], []. split_and!; try done. by right.
  - simpl in He. subst i. cbn [step]. rewrite Hfind.
    eexists. split; [done|].
    destruct HR as (tk & act & pre & shows & Hr & Hq & Hs & Hρ & Hin & Hreq
                    & Hsame & Hem & Hcase).
    destruct text as [textChunk|].
    + cbn [delivered]. rewrite decide_True by done. rewrite app_nil_r.
      unfold on_chunk.
      destruct (dispatch_cases eager (show_buffer (id t0))
                  (set_ref (generatingChapterContentRef m ++ textChunk) m))
        as (a & -> & _).
      exists tk, act, pre, (shows ++ [setChapterTasksWith (show_buffer (id t0)) a]).
      cbn [enqueue set_ref rendered queue generatingChapterContentRef
             inflight requests].
      split_and!; try done.
      * by rewrite Hq, app_assoc.
      * apply Forall_app. split; [done|]. constructor; [by exists a|done].
      * by rewrite Hρ.
    + cbn [delivered on_chunk]. rewrite app_nil_r.
      by exists tk, act, pre, shows.
Qed.

Lemma running_body ρ m evs :
  Running ρ m → Forall (body_of (id t0)) evs →
  ∃ m', run m evs = Some m' ∧ Running (ρ ++ delivered (id t0) evs) m'.
Proof.
  intros HR Hevs. revert ρ m HR.
  induction Hevs as [|e evs He _ IH]; intros ρ m HR.
  { exists m. split; [done|]. by rewrite app_nil_r. }
  destruct (running_event ρ m e HR He) as (m1 & Hstep & HR1).
  destruct (IH _ _ HR1) as (m' & Hrun & HR').
  exists m'. split; [by cbn [run]; rewrite Hstep|].
  change (e :: evs) with ([e] ++ evs).
  by rewrite delivered_app, app_assoc.
Qed.

Lemma same_task_eq (tk : ChapterTask) (st : Status) (c m : option jsstring) :
  same_task t0 tk →
  {| id := id tk; title := title tk; description := description tk;
     path := path tk; status := st; content := c; errorMessage := m |}
  = mkTask (id t0) (title t0) (description t0) (path t0) st c m.
Proof. by intros (-> & -> & -> & ->). Qed.

Lemma starting_next (f : ChapterTask) :
  autoAdvanceEffect (at_rest (finals ++ f :: rest) None true None reqs)
  = starting (finals ++ [f]) rest reqs.
Proof. unfold starting. by rewrite <- app_assoc. Qed.

(** The stream ends: the next render shows the task done, with the trim
    of what was delivered, and starts the next task. *)
Lemma running_end ρ m now' :
  Running ρ m →
  run m [StreamEnd (id t0); Render now']
  = Some (starting
            (finals ++ [mkTask (id t0) (title t0) (description t0) (path t0)
                          done (Some (trim ρ)) None])
            rest reqs).
Proof.
  intros HR. pose proof (running_find_call _ _ HR) as Hfind.
  destruct (running_flush ρ [] m HR) as (tk' & Hnext & Hsame & Hem & Hst).
  destruct HR as (tk & act & pre & shows & Hr & Hq & Hs & Hρ & Hin & Hreq & _).
  cbn [run step]. rewrite Hfind. f_equal.
  rewrite <- starting_next. rewrite <- Hreq.
  set (m1 := remove_call 0 (on_end (id t0) m)).
  change (requests m) with (requests m1).
  apply render_to_rest; [|by destruct finals|done|by unfold m1; simpl; rewrite Hin].
  unfold next_state, m1, on_end, dispatch.
  cbn [remove_call set_ref enqueue rendered queue generatingChapterContentRef].
  rewrite <- app_assoc, apply_queue_app, Hnext.
  unfold apply_queue, driving. cbn [fold_left app apply_update with_tasks
    currentStep userInputs bookTitle bookStructure chapterTasks appError
    isLoading isAutoGeneratingChapters activelyGeneratingChapterId
    apiKeyMissing].
  rewrite focus_update by (done || by destruct Hsame).
  cbn [rewrite_task]. rewrite Hem, same_task_eq, Hρ, or_else_nil by done.
  done.
Qed.

(** The stream fails: the next render shows the task failed and auto-run
    off; when the user starts the generation again, the render that
    follows starts the next task. *)
Lemma running_fail ρ m err eager now1 now2 :
  Running ρ m →
  ∃ c, run m [StreamFail (id t0) err eager; Render now1; ClickStart;
              Render now2]
       = Some (starting
                 (finals ++ [mkTask (id t0) (title t0) (description t0)
                               (path t0) error (Some c)
                               (Some (message_of err))])
                 rest reqs).
Proof.
  intros HR. pose proof (running_find_call _ _ HR) as Hfind.
  destruct (running_flush ρ [] m HR) as (tk' & Hnext & Hsame & Hem & Hst).
  destruct HR as (tk & act & pre & shows & Hr & Hq & Hs & Hρ & Hin & Hreq & _).
  cbn [run step]. rewrite Hfind.
  set (c0 := mkCall (id t0) (finals ++ t0 :: rest)).
  destruct (dispatch_cases eager (mark_error (id t0) (message_of err)) m)
    as (a & Hd & _).
  set (r := default [] a).
  exists (trim (or_else r [])).
  set (f := mkTask (id t0) (title t0) (description t0) (path t0) error
              (Some (trim (or_else r []))) (Some (message_of err))).
  unfold on_fail, c0. cbn [call_taskId]. rewrite Hd.
  set (m1 := remove_call 0 _).
  assert (∃ e, render now1 m1
               = at_rest (finals ++ f :: rest) (Some e) false None reqs)
    as (e & ->).
  { eexists. rewrite <- autoAdvance_off, <- Hreq.
    change (requests m) with (requests m1).
    apply render_to_rest;
      [|by destruct finals|done|by unfold m1; simpl; rewrite Hin].
    unfold next_state, m1.
    cbn [remove_call set_ref enqueue rendered queue
           generatingChapterContentRef].
    rewrite <- app_assoc, apply_queue_app, Hnext.
    unfold f, r. clear Hd.
    destruct a as [r0|]; unfold apply_queue, driving;
      cbn [fold_left app apply_update with_tasks default
        currentStep userInputs bookTitle bookStructure chapterTasks appError
        isLoading isAutoGeneratingChapters activelyGeneratingChapterId
        apiKeyMissing];
      (rewrite focus_update by (done || by destruct Hsame));
      cbn [rewrite_task]; rewrite same_task_eq by done; done. }
  cbn [step startAutomaticChapterGeneration]. f_equal.
  rewrite <- starting_next.
  set (m2 := startAutomaticChapterGeneration _).
  change reqs with (requests m2). by apply render_to_rest; [|destruct finals|..].
Qed.

End Focus.

Lemma previous_prefix (finals l : list ChapterTask) :
  previouslyGeneratedContent (finals ++ l) (length finals)
  = previouslyGeneratedContent finals (length finals).
Proof.
  unfold previouslyGeneratedContent.
  by rewrite take_app_length, firstn_all.
Qed.

(** The request that starting [t0] sends, the tasks [finals] before it. *)
Definition request_for (finals : list ChapterTask) (t0 : ChapterTask)
  : jsstring * Request :=
  (id t0,
   mkRequest inputs (title t0) (description t0) (JSON_stringify structure)
     (previouslyGeneratedContent finals (length finals))).

Lemma starting_running finals t0 rest reqs :
  Forall (λ t, status t ≠ pending) finals → status t0 = pending →
  errorMessage t0 = None → Forall (λ t, id t ≠ id t0) finals →
  Running finals t0 rest (reqs ++ [request_for finals t0]) []
    (starting finals (t0 :: rest) reqs).
Proof.
  intros Hf Hst Hem Hids. rewrite starting_cons by done.
  exists t0, None,
    [setActivelyGeneratingChapterId (Some (id t0));
     setChapterTasksWith (mark_generating (id t0)) None], [].
  split_and!; try done.
  - unfold request_for. cbn [requests]. by rewrite previous_prefix.
  - by left.
Qed.

(** The events of one task, from the render that started it to the
    render that starts the next one. *)
Lemma attempt_run finals t0 rest reqs a :
  Forall (λ t, status t ≠ pending) finals → status t0 = pending →
  errorMessage t0 = None → id t0 ≠ [] →
  Forall (λ t, id t ≠ id t0) finals → Forall (λ t, id t ≠ id t0) rest →
  Forall (body_of (id t0)) (body a) →
  ∃ f, run (starting finals (t0 :: rest) reqs) (attempt_events t0 a)
       = Some (starting (finals ++ [f]) rest
                 (reqs ++ [request_for finals t0]))
       ∧ outcome_of t0 a f.
Proof.
  intros Hf Hst Hem Hid Hfo Hro Hbody.
  pose proof (starting_running finals t0 rest reqs Hf Hst Hem Hfo) as HR.
  destruct (running_body finals t0 rest _ Hfo Hro Hid [] _ (body a) HR Hbody)
    as (m1 & Hrun & HR1).
  unfold attempt_events. rewrite run_app, Hrun. cbn [mbind option_bind].
  cbn [app] in HR1. unfold outcome_of.
  destruct (finish a) as [|err eager].
  - eexists. split; [by eapply running_end|]. by split_and!.
  - destruct (running_fail finals t0 rest _ Hfo Hro _ _ err eager
                (clock_after a) (clock_restart a) HR1) as (c & ->).
    eexists. split; [done|]. by split_and!.
Qed.

(** The requests sent for the tasks [t0s], one after the other, when
    they end as [fs] and the tasks [finals] precede them. *)
Fixpoint requests_sent (finals t0s fs : list ChapterTask)
  : list (jsstring * Request) :=
  match t0s, fs with
  | t0 :: t0s', f :: fs' =>
      request_for finals t0 :: requests_sent (finals ++ [f]) t0s' fs'
  | _, _ => []
  end.

Lemma outcome_settled t0 a f : outcome_of t0 a f → status f ≠ pending.
Proof.
  intros (_ & _ & _ & _ & H).
  destruct (finish a); destruct H as (-> & _); done.
Qed.

(** The tasks [t0s], all pending, are taken in order; each attempt ends
    in the render that starts the next one. *)
Lemma drive t0s : ∀ finals reqs attempts,
  NoDup (id <$> (finals ++ t0s)) →
  Forall (λ t, status t = pending ∧ errorMessage t = None ∧ id t ≠ []) t0s →
  Forall (λ t, status t ≠ pending) finals →
  Forall2 (λ t0 a, Forall (body_of (id t0)) (body a)) t0s attempts →
  ∃ fs, run (starting finals t0s reqs)
            (concat (zip_with attempt_events t0s attempts))
        = Some (starting (finals ++ fs) []
                  (reqs ++ requests_sent finals t0s fs))
        ∧ Forall3 outcome_of t0s attempts fs.
Proof.
  induction t0s as [|t0 t0s IH]; intros finals reqs attempts Hnd Hp Hf Hb.
  - apply Forall2_nil_inv_l in Hb as ->. exists []. split; [|constructor].
    cbn [zip_with concat run requests_sent]. by rewrite !app_nil_r.
  - apply Forall2_cons_inv_l in Hb as (a & attempts' & Ha & Hb & ->).
    apply Forall_cons in Hp as ((Hst & Hem & Hid) & Hp).
    rewrite fmap_app, fmap_cons in Hnd.
    pose proof Hnd as Hnd0.
    apply NoDup_app in Hnd0 as (_ & Hdis & Hnd0).
    apply NoDup_cons in Hnd0 as (Hnot & _).
    assert (Forall (λ t, id t ≠ id t0) finals) as Hfo.
    { apply Forall_forall. intros t Ht E. apply (Hdis (id t)).
      - by apply list_elem_of_fmap_2.
      - rewrite E. apply elem_of_cons. by left. }
    assert (Forall (λ t, id t ≠ id t0) t0s) as Hro.
    { apply Forall_forall. intros t Ht E. apply Hnot. rewrite <- E.
      by apply list_elem_of_fmap_2. }
    destruct (attempt_run finals t0 t0s reqs a Hf Hst Hem Hid Hfo Hro Ha)
      as (f & Hrun & Hout).
    destruct (IH (finals ++ [f]) (reqs ++ [request_for finals t0]) attempts')
      as (fs & Hrun' & Hall); try done.
    + destruct Hout as (Hidf & _).
      rewrite <- (assoc_L (++)). cbn [app].
      rewrite fmap_app, fmap_cons, Hidf. done.
    + apply Forall_app. split; [done|].
      apply Forall_singleton. by eapply outcome_settled.
    + exists (f :: fs). split; [|by constructor].
      cbn [zip_with concat]. rewrite run_app, Hrun. cbn [mbind option_bind].
      rewrite Hrun'. cbn [requests_sent].
      by rewrite <- !(assoc_L (++)).
Qed.

End CompleteRun.


Lemma previous_take (finals fs : list ChapterTask) (j : nat) :
  previouslyGeneratedContent (finals ++ take j fs) (length finals + j)
  = previouslyGeneratedContent (finals ++ fs) (length finals + j).
Proof.
  unfold previouslyGeneratedContent.
  rewrite !take_app_add, take_take. by rewrite Nat.min_id.
Qed.

Lemma requests_sent_imap inputs structure t0s : ∀ finals fs,
  length fs = length t0s →
  requests_sent inputs structure finals t0s fs
  = imap (λ j t0,
            (id t0,
             mkRequest inputs (title t0) (description t0)
               (JSON_stringify structure)
               (previouslyGeneratedContent (finals ++ fs)
                  (length finals + j)))) t0s.
Proof.
  induction t0s as [|t0 t0s IH]; intros finals [|f fs] Hlen;
    try done; simpl in Hlen.
  cbn [requests_sent imap]. f_equal.
  - unfold request_for. rewrite Nat.add_0_r. by rewrite previous_prefix.
  - rewrite IH by lia. apply imap_ext. intros j t _. cbn.
    rewrite <- (assoc_L (++)), length_app. cbn [app length].
    do 3 f_equal. lia.
Qed.

Lemma entries_truthy (structure : JSON) :
  Object_entries structure ≠ [] → truthy structure = true.
Proof. by destruct structure as [| | |[|c s]| |]. Qed.

Lemma flatten_loop_clean now order entries t :
  t ∈ flatten_loop now order entries → errorMessage t = None.
Proof.
  revert order. induction entries as [|[k v] rest IH]; intros order; simpl.
  - intros H. by apply elem_of_nil in H.
  - intros [->|H]%elem_of_cons; [done|by eapply IH].
Qed.

(** A complete run.  The chapter page shows the tasks of the outline, all
    pending; the user presses the start button.  Every task in turn is
    started by a render, its stream yields its fragments (renders may come
    in between) and ends or fails; after a failure the user presses the
    start button again.  Then: every task has been requested exactly
    once, in the order of the outline, the request of a task carrying
    the chapters before it that are done with a non-empty text; a task
    whose stream ended is done, its content the trimmed concatenation of
    its fragments; a task whose stream failed is in error with the
    message of the failure; and after the last render nothing runs any
    more: auto-generation is off, no task is active, no update waits. *)
Theorem complete_run inputs structure now c0 cf attempts :
  let T0 := flattenStructureToTasks now structure in
  T0 ≠ [] →
  Forall2 (λ t0 a, Forall (body_of (id t0)) (body a)) T0 attempts →
  ∃ fs,
    run (entered inputs structure now)
        ([ClickStart; Render c0]
         ++ concat (zip_with attempt_events T0 attempts) ++ [Render cf])
    = Some (at_rest inputs structure fs None false None
              (imap (λ k t0,
                       (id t0,
                        mkRequest inputs (title t0) (description t0)
                          (JSON_stringify structure)
                          (previouslyGeneratedContent fs k))) T0))
    ∧ Forall3 outcome_of T0 attempts fs.
Proof.
  intros T0 Hne Hbodies.
  assert (truthy structure = true) as Htruthy.
  { apply entries_truthy. intros E. apply Hne. unfold T0.
    unfold flattenStructureToTasks. by rewrite E. }
  destruct (drive inputs structure Htruthy T0 [] [] attempts)
    as (fs & Hrun & Hall); try done.
  { apply flatten_loop_NoDup. }
  { apply Forall_forall. intros t Ht. split_and!.
    - by eapply flatten_loop_pending.
    - by eapply flatten_loop_clean.
    - by eapply flatten_loop_id_nonempty. }
  exists fs. split; [|done].
  assert (length fs = length T0) as Hlen.
  { clear -Hall. induction Hall; simpl; congruence. }
  assert (Forall (λ t, status t ≠ pending) fs) as Hsettled.
  { clear -Hall. induction Hall; constructor; [|done].
    by eapply outcome_settled. }
  assert (fs ≠ []) as Hfs.
  { intros ->. apply Hne. by apply length_zero_iff_nil. }
  cbn [app] in Hrun. rewrite starting_nil in Hrun by done.
  rewrite requests_sent_imap in Hrun by done. cbn [app length] in Hrun.
  change (run (entered inputs structure now) ([ClickStart; Render c0] ++ ?l))
    with (run (render c0 (startAutomaticChapterGeneration
                            (entered inputs structure now))) l).
  rewrite (render_to_rest inputs structure Htruthy c0 _ T0 None true None)
    by done.
  change (autoAdvanceEffect _) with (starting inputs structure [] T0 []).
  rewrite run_app, Hrun. cbn [mbind option_bind run step]. f_equal.
  by rewrite (render_to_rest inputs structure Htruthy cf _ fs None false None).
Qed.

Definition sample_attempts : list Attempt :=
  [mkAttempt
     [Chunk (lit "Ch1-1700000000000-0") (Some (lit "Hello ")) false;
      Render sample_clock;
      Chunk (lit "Ch1-1700000000000-0") (Some (lit "world ")) true]
     Ends sample_clock sample_clock;
   mkAttempt [Chunk (lit "Ch2-1700000000000-1") None false]
     (Fails (ThrownError (lit "quota")) false) sample_clock sample_clock].

Lemma complete_run_witness :
  ∃ fs,
    run (entered sample_inputs sample_outline sample_clock)
        ([ClickStart; Render sample_clock]
         ++ concat (zip_with attempt_events
                      (flattenStructureToTasks sample_clock sample_outline)
                      sample_attempts)
         ++ [Render sample_clock])
    = Some (at_rest sample_inputs sample_outline fs None false None
              (imap (λ k t0,
                       (id t0,
                        mkRequest sample_inputs (title t0) (description t0)
                          (JSON_stringify sample_outline)
                          (previouslyGeneratedContent fs k)))
                 (flattenStructureToTasks sample_clock sample_outline)))
    ∧ Forall3 outcome_of
        (flattenStructureToTasks sample_clock sample_outline)
        sample_attempts fs.
Proof.
  apply (complete_run sample_inputs sample_outline sample_clock
           sample_clock sample_clock sample_attempts).
  - vm_compute. discriminate.
  - repeat (apply Forall2_cons; split); [..|apply Forall2_nil];
      repeat (apply Forall_cons; split); try apply Forall_nil;
      vm_compute; done.
Defined.
